(** * Contract compiler: import resolution and compilation cache

    Shallow embedding of [ContractCompiler] (apps/contracts, compiler.ts):
    [findImports], [resolveAllImports], [compileContract], [getContract],
    [clearCache] and [getCacheKeys], together with the parts of the
    JavaScript string API and of Node's POSIX [path] module they call.

    What is outside the program is a parameter of the embedding: the
    file system is a finite map from absolute paths to contents, the
    Solidity compiler is a function from the sources it is given to its
    parsed output, and the working directory is a text.

    The two plain objects of the class, [sources] and [cache], are
    tables of their own entries in the order of [Object.keys] (array
    indices first, in ascending order, then the other keys in the order
    of their creation).  A read of a property that is not an own entry
    finds the members inherited from [Object.prototype], and an
    assignment to [__proto__] creates no entry. *)

From Stdlib Require Import Ascii String.
From stdpp Require Import base decidable option list strings gmap sets.

#[local] Set Warnings "-clear-no-such-hyp".

(** ** JavaScript strings

    A string is a sequence of code units; the embedding uses [string] and
    therefore covers the code units below 256. *)

Module JsString.

Definition slash : ascii := "/"%char.
Definition backslash : ascii := "\"%char.

(** [s.startsWith(p)] *)
Fixpoint startsWith (s p : string) {struct p} : bool :=
  match p with
  | EmptyString => true
  | String c p' =>
      match s with
      | EmptyString => false
      | String d s' => Ascii.eqb d c && startsWith s' p'
      end
  end.

(** [s.includes(sub)] *)
Fixpoint includes (s sub : string) : bool :=
  startsWith s sub ||
  match s with
  | EmptyString => false
  | String _ s' => includes s' sub
  end.

(** [s.slice(n)] for [0 <= n] *)
Fixpoint drop (n : nat) (s : string) : string :=
  match n, s with
  | O, _ => s
  | S _, EmptyString => EmptyString
  | S n', String _ s' => drop n' s'
  end.

(** [s.replace(pat, rep)] with a string pattern: only the first
    occurrence is replaced. *)
Fixpoint replace (s pat rep : string) : string :=
  if startsWith s pat then rep +:+ drop (String.length pat) s
  else match s with
       | EmptyString => EmptyString
       | String c s' => String c (replace s' pat rep)
       end.

(** [s.replace(/\\/g, '/')] *)
Fixpoint backslashesToSlashes (s : string) : string :=
  match s with
  | EmptyString => EmptyString
  | String c s' =>
      String (if Ascii.eqb c backslash then slash else c)
             (backslashesToSlashes s')
  end.

(** [s.split(sep)] for a non-empty separator.  [skip] counts the code
    units of a separator still to be passed over, [cur] is the piece
    being collected, reversed. *)
Fixpoint split_go (sep s : string) (skip : nat) (cur : string) : list string :=
  match s with
  | EmptyString => [String.rev cur]
  | String c s' =>
      match skip with
      | S k => split_go sep s' k cur
      | O =>
          if startsWith s sep
          then String.rev cur :: split_go sep s' (String.length sep - 1) EmptyString
          else split_go sep s' 0 (String c cur)
      end
  end.

Definition split (s sep : string) : list string := split_go sep s 0 EmptyString.

(** [xs.join(sep)] *)
Fixpoint join (sep : string) (xs : list string) : string :=
  match xs with
  | [] => EmptyString
  | [x] => x
  | x :: rest => x +:+ sep +:+ join sep rest
  end.

(** JavaScript truthiness of a string: only the empty string is falsy. *)
Definition truthy (s : string) : bool :=
  match s with EmptyString => false | _ => true end.

End JsString.

(** ** Node's [path] module (POSIX flavour)

    [process.cwd()] is always an absolute path; it is passed around as
    the text [cwdTail] that follows its leading slash. *)

Module Path.
Import JsString.

Definition chars (s : string) : list ascii := list_ascii_of_string s.
Definition str (l : list ascii) : string := string_of_list_ascii l.

Definition isSlash (c : ascii) : bool := Ascii.eqb c slash.

(** Longest prefix whose elements satisfy [f], and the rest. *)
Fixpoint span (f : ascii → bool) (l : list ascii) : list ascii * list ascii :=
  match l with
  | [] => ([], [])
  | c :: l' =>
      if f c then let '(a, b) := span f l' in (c :: a, b) else ([], l)
  end.

(** Components of a path text: the pieces between slashes. *)
Fixpoint segments_go (s : string) (cur : string) : list string :=
  match s with
  | EmptyString => [String.rev cur]
  | String c s' =>
      if isSlash c then String.rev cur :: segments_go s' EmptyString
      else segments_go s' (String c cur)
  end.
Definition segments (s : string) : list string := segments_go s EmptyString.

(** [normalizeString]: [stack] holds the components kept so far, last
    one first. *)
Fixpoint normalizeSegs (allowAboveRoot : bool) (stack : list string)
    (segs : list string) : list string :=
  match segs with
  | [] => rev stack
  | seg :: rest =>
      if decide (seg = "" ∨ seg = ".") then normalizeSegs allowAboveRoot stack rest
      else if decide (seg = "..") then
        match stack with
        | top :: stack' =>
            if decide (top = "..")
            then normalizeSegs allowAboveRoot
                   (if allowAboveRoot then ".." :: stack else stack) rest
            else normalizeSegs allowAboveRoot stack' rest
        | [] =>
            normalizeSegs allowAboveRoot
              (if allowAboveRoot then [".."] else []) rest
        end
      else normalizeSegs allowAboveRoot (seg :: stack) rest
  end.

Definition normalizeString (path : string) (allowAboveRoot : bool) : string :=
  join "/" (normalizeSegs allowAboveRoot [] (segments path)).

(** The right-to-left loop of [path.resolve]: [args] is given last
    argument first and ends with the working directory. *)
Fixpoint resolve_go (args : list string) (resolvedPath : string) : string * bool :=
  match args with
  | [] => (resolvedPath, false)
  | p :: rest =>
      if decide (p = "") then resolve_go rest resolvedPath
      else
        let resolvedPath' := p +:+ "/" +:+ resolvedPath in
        if startsWith p "/" then (resolvedPath', true)
        else resolve_go rest resolvedPath'
  end.

Definition posixCwd (cwdTail : string) : string := "/" +:+ cwdTail.

(** [path.resolve(...args)] *)
Definition resolve (cwdTail : string) (args : list string) : string :=
  let '(resolvedPath, resolvedAbsolute) :=
    resolve_go (rev args ++ [posixCwd cwdTail]) "" in
  let normalized := normalizeString resolvedPath (negb resolvedAbsolute) in
  if resolvedAbsolute then "/" +:+ normalized
  else if decide (normalized = "") then "." else normalized.

(** [path.dirname(path)] *)
Definition dirname (path : string) : string :=
  match path with
  | EmptyString => "."
  | String c0 tl =>
      let hasRoot := isSlash c0 in
      let r := rev (chars tl) in
      let '(_, r1) := span isSlash r in
      let '(_, r2) := span (λ c, negb (isSlash c)) r1 in
      match r2 with
      | [] => if hasRoot then "/" else "."
      | _ :: before =>
          if hasRoot && bool_decide (before = []) then "//"
          else String c0 (str (rev before))
      end
  end.

(** Matching the extension backwards over the last component. *)
Inductive SuffixScan :=
| SuffixMatched (remaining : list ascii)
| SuffixMismatch
| ComponentExhausted.

Fixpoint scanSuffix (ext comp : list ascii) : SuffixScan :=
  match ext with
  | [] => SuffixMatched comp
  | e :: ext' =>
      match comp with
      | [] => ComponentExhausted
      | c :: comp' =>
          if Ascii.eqb c e then scanSuffix ext' comp' else SuffixMismatch
      end
  end.

(** [path.basename(path, suffix)] *)
Definition basename (path suffix : string) : string :=
  let r := rev (chars path) in
  let '(trailing, r1) := span isSlash r in
  let '(comp, _) := span (λ c, negb (isSlash c)) r1 in
  if bool_decide (0 < String.length suffix ≤ String.length path) then
    if decide (suffix = path) then ""
    else
      match comp with
      | [] => path
      | _ =>
          match scanSuffix (rev (chars suffix)) comp with
          | SuffixMatched [] => str (rev comp)
          | SuffixMatched remaining => str (rev remaining)
          | SuffixMismatch => str (rev comp)
          | ComponentExhausted => str (rev comp ++ trailing)
          end
      end
  else str (rev comp).

Fixpoint dropCommon (a b : list string) : list string * list string :=
  match a, b with
  | x :: a', y :: b' => if decide (x = y) then dropCommon a' b' else (a, b)
  | _, _ => (a, b)
  end.

(** Components of an absolute, normalized path. *)
Definition absSegments (p : string) : list string :=
  filter (λ s, s ≠ "") (segments p).

(** [path.relative(from, to)] *)
Definition relative (cwdTail : string) (from to : string) : string :=
  if decide (from = to) then ""
  else
    let from' := resolve cwdTail [from] in
    let to' := resolve cwdTail [to] in
    if decide (from' = to') then ""
    else
      let '(up, down) := dropCommon (absSegments from') (absSegments to') in
      join "/" (replicate (length up) ".." ++ down).

End Path.

(** ** The import scanner

    [processFile] extracts import specifiers with the regular expression

      /import\s+.*?from\s+[q]([^q]+)[q];|import\s+[q]([^q]+)[q];/g

    (q: the double and the single quote) run by repeated [exec].  The
    matcher below is a backtracking matcher for the pieces this
    expression is made of. *)

Module ImportScan.

Inductive Item :=
| Lit (l : list ascii)            (* literal text *)
| OneOf (f : ascii → bool)        (* one code unit of a class *)
| PlusGreedy (f : ascii → bool)   (* cls+ *)
| StarLazy (f : ascii → bool)     (* cls*? *)
| GroupPlus (f : ascii → bool).   (* (cls+), the capture group *)

Fixpoint stripPrefix (l s : list ascii) : option (list ascii) :=
  match l with
  | [] => Some s
  | a :: l' =>
      match s with
      | [] => None
      | c :: s' => if Ascii.eqb c a then stripPrefix l' s' else None
      end
  end.

(** [matchItems items s cap] matches [items] at the start of [s] and
    returns the captured text and the unmatched rest of [s]; choices
    are tried in the order of a backtracking engine. *)
Fixpoint matchItems (items : list Item) (s : list ascii) (cap : list ascii)
    : option (list ascii * list ascii) :=
  match items with
  | [] => Some (cap, s)
  | Lit l :: rest =>
      match stripPrefix l s with
      | Some s' => matchItems rest s' cap
      | None => None
      end
  | OneOf f :: rest =>
      match s with
      | c :: s' => if f c then matchItems rest s' cap else None
      | [] => None
      end
  | PlusGreedy f :: rest =>
      let star :=
        fix star (s : list ascii) :=
          match s with
          | c :: s' =>
              if f c then
                match star s' with
                | Some r => Some r
                | None => matchItems rest s cap
                end
              else matchItems rest s cap
          | [] => matchItems rest [] cap
          end in
      match s with
      | c :: s' => if f c then star s' else None
      | [] => None
      end
  | StarLazy f :: rest =>
      (fix star (s : list ascii) :=
         match matchItems rest s cap with
         | Some r => Some r
         | None =>
             match s with
             | c :: s' => if f c then star s' else None
             | [] => None
             end
         end) s
  | GroupPlus f :: rest =>
      let star :=
        fix star (s acc : list ascii) :=
          match s with
          | c :: s' =>
              if f c then
                match star s' (c :: acc) with
                | Some r => Some r
                | None => matchItems rest s (rev acc)
                end
              else matchItems rest s (rev acc)
          | [] => matchItems rest [] (rev acc)
          end in
      match s with
      | c :: s' => if f c then star s' [c] else None
      | [] => None
      end
  end.

(** [\s] on code units below 256 *)
Definition isWhite (c : ascii) : bool :=
  Ascii.is_space c || Ascii.eqb c "160"%char.
(** [.] excludes the line terminators *)
Definition isDot (c : ascii) : bool :=
  negb (Ascii.eqb c "010"%char || Ascii.eqb c "013"%char).
(** double or single quote *)
Definition isQuote (c : ascii) : bool :=
  Ascii.eqb c "034"%char || Ascii.eqb c "039"%char.
Definition notQuote (c : ascii) : bool := negb (isQuote c).

Definition kwImport : list ascii := list_ascii_of_string "import".
Definition kwFrom : list ascii := list_ascii_of_string "from".
Definition semicolon : list ascii := list_ascii_of_string ";".

(** First alternative: import, white space, a lazy run of [.], from,
    white space, a quoted specifier, a semicolon. *)
Definition importFrom : list Item :=
  [Lit kwImport; PlusGreedy isWhite; StarLazy isDot; Lit kwFrom;
   PlusGreedy isWhite; OneOf isQuote; GroupPlus notQuote; OneOf isQuote;
   Lit semicolon].

(** Second alternative: import, white space, a quoted specifier, a
    semicolon. *)
Definition importBare : list Item :=
  [Lit kwImport; PlusGreedy isWhite; OneOf isQuote; GroupPlus notQuote;
   OneOf isQuote; Lit semicolon].

(** One match attempt at the start of [s]: [match[1] || match[2]] and
    the number of code units the match covers. *)
Definition matchHere (s : list ascii) : option (string * nat) :=
  let result :=
    match matchItems importFrom s [] with
    | Some r => Some r
    | None => matchItems importBare s []
    end in
  match result with
  | Some (cap, rest) => Some (string_of_list_ascii cap, length s - length rest)
  | None => None
  end.

(** The [while ((match = importRegex.exec(source)) !== null)] loop:
    [skip] is the distance to [lastIndex]. *)
Fixpoint scan_go (s : list ascii) (skip : nat) : list string :=
  match s with
  | [] => []
  | _ :: s' =>
      match skip with
      | S k => scan_go s' k
      | O =>
          match matchHere s with
          | Some (spec, n) => spec :: scan_go s' (n - 1)
          | None => scan_go s' 0
          end
      end
  end.

Definition scanImports (source : string) : list string :=
  scan_go (list_ascii_of_string source) 0.

End ImportScan.

(** ** Plain objects used as string-keyed tables

    [sources] and [cache] are object literals filled by assignment.  The
    embedding keeps the own enumerable properties of such an object, in
    the order in which [Object.keys] and [JSON.stringify] list them:
    the keys that are array indices first, in ascending numeric order,
    then the other keys in the order in which they were created.
    Assigning to a key that is there replaces its value where it is.

    The prototype of the object is [Object.prototype]: reading a
    property that is not an own entry finds the members of
    [prototypeNames], all of them functions or objects, hence truthy.
    Assigning to [__proto__] runs the setter inherited from there: it
    creates no own entry, and the prototype it installs (here an object
    [{ content }] with no function in it) is seen neither by
    [Object.keys] nor by [JSON.stringify]. *)

Module JsObject.

Definition t (A : Type) : Type := list (string * A).

(** [Object.getOwnPropertyNames(Object.prototype)] *)
Definition prototypeNames : list string :=
  ["constructor"; "__defineGetter__"; "__defineSetter__"; "hasOwnProperty";
   "__lookupGetter__"; "__lookupSetter__"; "isPrototypeOf";
   "propertyIsEnumerable"; "toString"; "valueOf"; "__proto__";
   "toLocaleString"].

Definition inherited (k : string) : bool := bool_decide (k ∈ prototypeNames).

Definition digit (c : ascii) : option N :=
  let n := N_of_ascii c in
  if ((48 <=? n) && (n <=? 57))%N then Some (n - 48)%N else None.

Fixpoint digits (s : string) (acc : N) : option N :=
  match s with
  | EmptyString => Some acc
  | String c s' =>
      match digit c with
      | Some d => digits s' (10 * acc + d)%N
      | None => None
      end
  end.

(** A key is an array index when it is the canonical decimal text of an
    integer from 0 to 2^32 - 2. *)
Definition arrayIndex (k : string) : option N :=
  match k with
  | EmptyString => None
  | String c rest =>
      if Ascii.eqb c "0" then
        match rest with EmptyString => Some 0%N | _ => None end
      else
        match digits k 0 with
        | Some n => if (n <? 4294967295)%N then Some n else None
        | None => None
        end
  end.

Section Table.
Context {A : Type}.

(** The own property [k]. *)
Fixpoint get (k : string) (o : t A) : option A :=
  match o with
  | [] => None
  | (k', v) :: o' => if decide (k' = k) then Some v else get k o'
  end.

(** Assignment to an own property that exists. *)
Fixpoint overwrite (k : string) (v : A) (o : t A) : t A :=
  match o with
  | [] => []
  | (k', v') :: o' =>
      if decide (k' = k) then (k, v) :: o' else (k', v') :: overwrite k v o'
  end.

(** A new array index [n] goes before the first key that is a larger
    index or no index. *)
Fixpoint insertIndex (n : N) (k : string) (v : A) (o : t A) : t A :=
  match o with
  | [] => [(k, v)]
  | (k', v') :: o' =>
      match arrayIndex k' with
      | Some m =>
          if (m <? n)%N then (k', v') :: insertIndex n k v o' else (k, v) :: o
      | None => (k, v) :: o
      end
  end.

(** [o[k] = v] *)
Definition set (k : string) (v : A) (o : t A) : t A :=
  if decide (k = "__proto__") then o
  else
    match get k o with
    | Some _ => overwrite k v o
    | None =>
        match arrayIndex k with
        | Some n => insertIndex n k v o
        | None => o ++ [(k, v)]
        end
    end.

(** [Object.keys(o)] *)
Definition keys (o : t A) : list string := o.*1.

End Table.

End JsObject.

(** [o !! k] is the own property [k] of [o]; [size o] counts the own
    properties. *)
Global Instance JsObject_lookup {A} : Lookup string A (JsObject.t A) :=
  JsObject.get.
Global Instance JsObject_size {A} : Size (JsObject.t A) := length.

(** ** The compiler instance *)

Definition ozPrefix : string := "@openzeppelin/contracts/".
Definition ozMarker : string := "node_modules/@openzeppelin/contracts/".

(** The two directories fixed by the constructor, and the working
    directory of the process. *)
Record Config := {
  cwdTail : string;
  contractsDir : string;
  ozContractsDir : string;
}.

(** The private constructor, from [__dirname]. *)
Definition newContractCompiler (cwd dirName : string) : Config :=
  let srcDir :=
    if JsString.includes dirName "dist"
    then Path.resolve cwd [dirName; "../src"]
    else dirName in
  let projectRoot := Path.resolve cwd [dirName; "../../../"] in
  {| cwdTail := cwd;
     contractsDir := Path.resolve cwd [srcDir; "contracts"];
     ozContractsDir :=
       Path.resolve cwd [projectRoot; "node_modules/@openzeppelin/contracts/"] |}.

(** The file system: the readable files, by absolute path. *)
Abbreviation FileSystem := (gmap string string).

Record Diagnostic := { severity : string; diagMessage : string }.

Inductive JsError :=
| ImportNotFound (importPath : string) (basePath : option string)
| ReadFailed (path : string)
| CompilationErrors (errors : list Diagnostic)
| TypeError.

Inductive Result (A : Type) :=
| Ok (a : A)
| Err (e : JsError).
Arguments Ok {A} a.
Arguments Err {A} e.

(** Effects, in the order they happen: [fs.readFile] calls, assignments
    [sources[sourceKey] = ...], [console.warn] calls and [solc.compile]
    calls. *)
Inductive Event :=
| EvRead (path : string)
| EvRecord (filePath sourceKey content : string)
| EvWarn (importPath filePath message : string)
| EvCompile (sources : JsObject.t string).

Global Instance Diagnostic_eq_dec : EqDecision Diagnostic.
Proof. solve_decision. Defined.
Global Instance Event_eq_dec : EqDecision Event.
Proof. solve_decision. Defined.

Definition isRelativeSpec (importPath : string) : bool :=
  JsString.startsWith importPath "./" || JsString.startsWith importPath "../".

Section Resolver.

Variable cfg : Config.
Variable fs : FileSystem.

Definition pathResolve (args : list string) : string :=
  Path.resolve (cwdTail cfg) args.

(** The path [findImports] reads (the spec's [resolveImportPath]). *)
Definition findImports_fullPath (importPath : string) (basePath : option string)
    : string :=
  if JsString.startsWith importPath ozPrefix then
    pathResolve [ozContractsDir cfg; JsString.replace importPath ozPrefix ""]
  else if isRelativeSpec importPath then
    match basePath with
    | Some base =>
        if JsString.truthy base
        then pathResolve [Path.dirname base; importPath]
        else pathResolve [contractsDir cfg; importPath]
    | None => pathResolve [contractsDir cfg; importPath]
    end
  else pathResolve [contractsDir cfg; importPath].

Definition showBase (basePath : option string) : string :=
  match basePath with Some b => b | None => "undefined" end.

Definition importNotFoundMessage (importPath : string) (basePath : option string)
    : string :=
  "Import not found: " +:+ importPath +:+ " (base: " +:+ showBase basePath +:+ ")".

(** [findImports]: the result, the file read being reported by the
    caller as [EvRead (findImports_fullPath ...)]. *)
Definition findImports (importPath : string) (basePath : option string)
    : Result string :=
  match fs !! findImports_fullPath importPath basePath with
  | Some contents => Ok contents
  | None => Err (ImportNotFound importPath basePath)
  end.

(** The key under which an import is recorded. *)
Definition importSourceKey (filePath importPath : string) : string :=
  if JsString.startsWith importPath ozPrefix then importPath
  else if isRelativeSpec importPath then
    let resolvedPath := pathResolve [Path.dirname filePath; importPath] in
    if JsString.includes resolvedPath ozMarker then
      ozPrefix +:+
      JsString.backslashesToSlashes
        (default "" (JsString.split resolvedPath ozMarker !! 1))
    else
      JsString.backslashesToSlashes
        (Path.relative (cwdTail cfg) (contractsDir cfg) resolvedPath)
  else importPath.

(** The path under which the imported file is processed. *)
Definition importFilePath (filePath importPath : string) : string :=
  if JsString.startsWith importPath ozPrefix then
    pathResolve [ozContractsDir cfg; JsString.replace importPath ozPrefix ""]
  else if isRelativeSpec importPath then
    pathResolve [Path.dirname filePath; importPath]
  else pathResolve [contractsDir cfg; importPath].

Record RState := {
  sources : JsObject.t string;
  processedPaths : gset string;
  rtrace : list Event;
}.

Definition emit (e : Event) (st : RState) : RState :=
  {| sources := sources st; processedPaths := processedPaths st;
     rtrace := rtrace st ++ [e] |}.

(** [processedPaths.add(filePath); sources[sourceKey] = { content }] *)
Definition record (source filePath sourceKey : string) (st : RState) : RState :=
  {| sources := JsObject.set sourceKey source (sources st);
     processedPaths := {[filePath]} ∪ processedPaths st;
     rtrace := rtrace st ++ [EvRecord filePath sourceKey source] |}.

Definition warn (importPath filePath : string) (st : RState) : RState :=
  emit (EvWarn importPath filePath
          (importNotFoundMessage importPath (Some filePath))) st.

(** The [while] loop over the imports of one file; [rec] is
    [processFile] itself. *)
Fixpoint processImports
    (rec : RState → string → string → string → option RState)
    (filePath : string) (imports : list string) (st : RState) : option RState :=
  match imports with
  | [] => Some st
  | importPath :: rest =>
      let st1 := emit (EvRead (findImports_fullPath importPath (Some filePath))) st in
      match findImports importPath (Some filePath) with
      | Ok contents =>
          match rec st1 contents (importFilePath filePath importPath)
                  (importSourceKey filePath importPath) with
          | Some st2 => processImports rec filePath rest st2
          | None => None
          end
      | Err _ => processImports rec filePath rest (warn importPath filePath st1)
      end
  end.

(** [processFile], with a bound on the depth of the recursion. *)
Fixpoint processFile (fuel : nat) (st : RState)
    (source filePath sourceKey : string) : option RState :=
  match fuel with
  | O => None
  | S fuel' =>
      if decide (filePath ∈ processedPaths st) then Some st
      else
        processImports (processFile fuel') filePath
          (ImportScan.scanImports source)
          (record source filePath sourceKey st)
  end.

Definition initialState : RState :=
  {| sources := []; processedPaths := ∅; rtrace := [] |}.

Definition resolveAllImports_fuel (fuel : nat)
    (contractSource contractPath : string) : option RState :=
  processFile fuel initialState contractSource contractPath
    (Path.basename contractPath ".sol").

(** A recursion depth that is always enough (see
    [resolveAllImports_fuel_enough]). *)
Definition fuelBound (contractSource : string) : nat :=
  2 + size (dom fs) + length (ImportScan.scanImports contractSource).

(** [resolveAllImports]: the final [sources] table is its result. *)
Definition resolveAllImports (contractSource contractPath : string) : RState :=
  default initialState
    (resolveAllImports_fuel (fuelBound contractSource) contractSource contractPath).

End Resolver.

(** ** The compilation cache *)

Record CompiledContract := {
  bytecode : string;
  abi : list string;
  metadata : string;
}.

Global Instance CompiledContract_eq_dec : EqDecision CompiledContract.
Proof. solve_decision. Defined.

(** One contract of the compiler's JSON output: [abi],
    [evm.bytecode.object] and [metadata]. *)
Record ContractOutput := {
  co_abi : list string;
  co_bytecode_object : string;
  co_metadata : string;
}.

(** The parsed output of [solc.compile]: [errors] may be missing;
    [contracts] maps a source key to the contracts declared there, in
    the order of [Object.keys]. *)
Record SolcOutput := {
  errors : option (list Diagnostic);
  contracts : list (string * list (string * ContractOutput));
}.

Definition isError (d : Diagnostic) : bool := bool_decide (severity d = "error").

Fixpoint assoc {A : Type} (k : string) (o : list (string * A)) : option A :=
  match o with
  | [] => None
  | (k', v) :: o' => if decide (k' = k) then Some v else assoc k o'
  end.

(** What [compileContract] returns: an artifact or, when the cache
    object answers with a member inherited from [Object.prototype],
    that member, known here by its name. *)
Inductive Returned :=
| Artifact (compiled : CompiledContract)
| PrototypeMember (name : string).

(** The state of the instance: its cache, and the effects so far. *)
Record State := {
  cache : JsObject.t CompiledContract;
  trace : list Event;
}.

Definition emptyState : State := {| cache := []; trace := [] |}.

Section Compiler.

Variable cfg : Config.
Variable fs : FileSystem.
(** The external compiler, as a function of the sources it is given
    (the rest of the request, language, version and settings, is fixed);
    its value is the parsed JSON answer. *)
Variable solc : JsObject.t string → SolcOutput.

Definition logged (evs : list Event) (w : State) : State :=
  {| cache := cache w; trace := trace w ++ evs |}.

(** [if (this.cache[contractName]) return this.cache[contractName]]
    finds an own entry (an artifact, which is an object and truthy) or,
    failing that, a member inherited from [Object.prototype] (truthy as
    well).  Past this test [contractName] is no inherited name, so that
    [output.contracts[contractName]] is an own property or undefined. *)
Definition compileContract (contractPath : string) (w : State)
    : Result Returned * State :=
  let contractName := Path.basename contractPath ".sol" in
  match cache w !! contractName with
  | Some compiled => (Ok (Artifact compiled), w)
  | None =>
      if JsObject.inherited contractName
      then (Ok (PrototypeMember contractName), w)
      else
        match fs !! contractPath with
        | None => (Err (ReadFailed contractPath), logged [EvRead contractPath] w)
        | Some source =>
            let r := resolveAllImports cfg fs source contractPath in
            let allSources := sources r in
            let output := solc allSources in
            let w1 :=
              logged (EvRead contractPath :: rtrace r ++ [EvCompile allSources]) w in
            let errs := filter (λ d, isError d) (default [] (errors output)) in
            if bool_decide (0 < length errs) then (Err (CompilationErrors errs), w1)
            else
              match assoc contractName (contracts output) with
              | Some ((_, contract) :: _) =>
                  let compiled :=
                    {| bytecode := co_bytecode_object contract;
                       abi := co_abi contract;
                       metadata := co_metadata contract |} in
                  (Ok (Artifact compiled),
                   {| cache := JsObject.set contractName compiled (cache w1);
                      trace := trace w1 |})
              | _ => (Err TypeError, w1)
              end
        end
  end.

Definition entryPath (contractName : string) : string :=
  Path.resolve (cwdTail cfg) [contractsDir cfg; contractName +:+ ".sol"].

(** The key under which [getContract contractName] looks up and stores. *)
Definition cacheKey (contractName : string) : string :=
  Path.basename (entryPath contractName) ".sol".

Definition getContract (contractName : string) (w : State)
    : Result Returned * State :=
  compileContract (entryPath contractName) w.

Definition getERC20 := getContract "ERC20".
Definition getERC721 := getContract "ERC721".
Definition getERC1155 := getContract "ERC1155".

Definition clearCache (w : State) : State :=
  {| cache := []; trace := trace w |}.

(** [Object.keys(this.cache)] *)
Definition getCacheKeys (w : State) : list string :=
  JsObject.keys (cache w).

(** The states the instance can be in: it starts with an empty cache
    and changes only through its public methods. *)
Inductive reachable : State → Prop :=
| reachable_init : reachable emptyState
| reachable_getContract name w :
    reachable w → reachable (getContract name w).2
| reachable_clearCache w :
    reachable w → reachable (clearCache w).

End Compiler.

(** Counting effects in a trace. *)
Definition isCompile (e : Event) : bool :=
  match e with EvCompile _ => true | _ => false end.
Definition isReadOf (p : string) (e : Event) : bool :=
  match e with EvRead q => bool_decide (q = p) | _ => false end.
Definition isRecordOf (p : string) (e : Event) : bool :=
  match e with EvRecord q _ _ => bool_decide (q = p) | _ => false end.

Definition countEv (f : Event → bool) (tr : list Event) : nat :=
  length (filter (λ e, f e) tr).

Definition compileCount (tr : list Event) : nat := countEv isCompile tr.
Definition readCount (p : string) (tr : list Event) : nat := countEv (isReadOf p) tr.
Definition recordCount (p : string) (tr : list Event) : nat := countEv (isRecordOf p) tr.

(** * Vocabulary of the statements *)

(** ** Path texts *)

Section PathSpec.
Import JsString Path.

(** Text without a slash. *)
Fixpoint noSlash (s : string) : bool :=
  match s with
  | EmptyString => true
  | String c s' => negb (isSlash c) && noSlash s'
  end.

(** The text after the last slash. *)
Fixpoint lastSegment_go (s cur : string) : string :=
  match s with
  | EmptyString => String.rev cur
  | String c s' =>
      if isSlash c then lastSegment_go s' EmptyString
      else lastSegment_go s' (String c cur)
  end.
Definition lastSegment (s : string) : string := lastSegment_go s EmptyString.

Definition regularSegment (seg : string) : Prop :=
  seg ≠ "" ∧ seg ≠ "." ∧ seg ≠ "..".

(** Two paths joined: the components of [root] followed by those of
    [rel], without the empty and the [.] components, each [..] removing
    the component before it; the result is absolute. *)
Definition joined (root rel : string) : string :=
  "/" +:+ join "/" (normalizeSegs false [] (segments root ++ segments rel)).

(** [s] cut at the first occurrence of [sep]: the text before it and
    the text after it. *)
Fixpoint cutAt (sep s : string) : option (string * string) :=
  if startsWith s sep then Some ("", drop (String.length sep) s)
  else
    match s with
    | EmptyString => None
    | String c s' =>
        match cutAt sep s' with
        | Some (before, after) => Some (String c before, after)
        | None => None
        end
    end.

(** The text between the first occurrence of [sep] and the next one,
    or the end of [s] when there is no other. *)
Definition secondPiece (sep s : string) : option string :=
  match cutAt sep s with
  | Some (_, after) =>
      Some (match cutAt sep after with
            | Some (piece, _) => piece
            | None => after
            end)
  | None => None
  end.

End PathSpec.

(** ** Tables and traces *)

(** The assignments to [sources] found in a trace, in order. *)
Definition recordEntry (e : Event) : option (string * string) :=
  match e with EvRecord _ k c => Some (k, c) | _ => None end.
Definition recordEntries (tr : list Event) : list (string * string) :=
  omap recordEntry tr.

(** Performing these assignments on an empty object. *)
Definition replayOn (o : JsObject.t string) (entries : list (string * string))
    : JsObject.t string :=
  foldl (λ acc kc, JsObject.set kc.1 kc.2 acc) o entries.
Definition replay (tr : list Event) : JsObject.t string :=
  replayOn [] (recordEntries tr).

Definition isRecord (e : Event) : bool :=
  match e with EvRecord _ _ _ => true | _ => false end.

(** The events of the loop itself: a file read, a warning. *)
Definition isQuiet (e : Event) : bool :=
  match e with EvRead _ | EvWarn _ _ _ => true | _ => false end.

Record Inv (st : RState) : Prop := {
  inv_sources : sources st = replay (rtrace st);
  inv_keys : NoDup (JsObject.keys (sources st));
  inv_visited : ∀ q, q ∈ processedPaths st ↔ ∃ k c, EvRecord q k c ∈ rtrace st;
  inv_unique : ∀ q k c k' c',
    EvRecord q k c ∈ rtrace st → EvRecord q k' c' ∈ rtrace st → k = k' ∧ c = c';
  inv_count : ∀ q,
    recordCount q (rtrace st) = if decide (q ∈ processedPaths st) then 1 else 0;
}.

(** ** Runs of the resolver *)

Section ResolverSpec.

Variable cfg : Config.
Variable fs : FileSystem.

Local Abbreviation findImp := (findImports cfg fs).
Local Abbreviation fullPath := (findImports_fullPath cfg).
Local Abbreviation childPath := (importFilePath cfg).
Local Abbreviation childKey := (importSourceKey cfg).
Local Abbreviation scanImports := ImportScan.scanImports.

Inductive Exec : RState → string → string → string → RState → Prop :=
| Exec_seen st source filePath sourceKey :
    filePath ∈ processedPaths st →
    Exec st source filePath sourceKey st
| Exec_new st source filePath sourceKey st' :
    filePath ∉ processedPaths st →
    ExecLoop filePath (scanImports source)
      (record source filePath sourceKey st) st' →
    Exec st source filePath sourceKey st'
with ExecLoop : string → list string → RState → RState → Prop :=
| ExecLoop_done filePath st :
    ExecLoop filePath [] st st
| ExecLoop_import filePath importPath rest st contents st2 st3 :
    findImp importPath (Some filePath) = Ok contents →
    Exec (emit (EvRead (fullPath importPath (Some filePath))) st) contents
      (childPath filePath importPath)
      (childKey filePath importPath) st2 →
    ExecLoop filePath rest st2 st3 →
    ExecLoop filePath (importPath :: rest) st st3
| ExecLoop_missing filePath importPath rest st e st3 :
    findImp importPath (Some filePath) = Err e →
    ExecLoop filePath rest
      (warn importPath filePath
         (emit (EvRead (fullPath importPath (Some filePath))) st)) st3 →
    ExecLoop filePath (importPath :: rest) st st3.

Scheme Exec_mut := Induction for Exec Sort Prop
with ExecLoop_mut := Induction for ExecLoop Sort Prop.
Combined Scheme Exec_ExecLoop_ind from Exec_mut, ExecLoop_mut.

Definition consistent (st : RState) : Prop :=
  ∀ q k c, EvRecord q k c ∈ rtrace st → fs !! q = Some c ∧ q ≠ "".

(** An import that can be read has had its file handled; one that
    cannot has been reported. *)
Definition importHandled (q imp : string) (st : RState) : Prop :=
  match findImp imp (Some q) with
  | Ok _ => childPath q imp ∈ processedPaths st
  | Err _ => EvWarn imp q (importNotFoundMessage imp (Some q)) ∈ rtrace st
  end.

Definition importsHandled (q c : string) (st : RState) : Prop :=
  ∀ imp, imp ∈ scanImports c → importHandled q imp st.

(** [G]: the files whose loop is still running. *)
Definition closedExcept (G : gset string) (st : RState) : Prop :=
  ∀ q k c, EvRecord q k c ∈ rtrace st → q ∈ G ∨ importsHandled q c st.

(** The files a root transitively imports: those reached from it
    through imports that can be read. *)
Inductive Reachable (root : string) : string → Prop :=
| Reachable_root : Reachable root root
| Reachable_import parent source imp :
    Reachable root parent →
    fs !! parent = Some source →
    imp ∈ scanImports source →
    is_Some (fs !! fullPath imp (Some parent)) →
    Reachable root (fullPath imp (Some parent)).

(** The paths [processFile] can be called with. *)
Definition candidates (contractSource contractPath : string) : gset string :=
  {[contractPath]} ∪ dom fs ∪
  list_to_set (childPath contractPath <$> scanImports contractSource).

(** The imports among [imports], made from file [p], that read [d]. *)
Definition pending (d p : string) (imports : list string) : nat :=
  length (filter (λ imp, fullPath imp (Some p) = d) imports).

Definition importReads (d : string) (e : Event) : nat :=
  match e with
  | EvRecord p _ c => pending d p (scanImports c)
  | _ => 0
  end.

(** The import statements, over all files handled, that read [d]. *)
Definition expectedReads (d : string) (tr : list Event) : nat :=
  sum_list_with (importReads d) tr.

(** What stands before an event in the trace of a resolution.  A read
    is made for an import statement of a file recorded before.  A record
    is the first of its file; it opens the trace, or it follows at once
    the read of an import, whose content, path and key it takes.  A
    warning follows at once the read of an import whose file does not
    exist. *)
Definition justified (before : list Event) (e : Event) : Prop :=
  match e with
  | EvRead path =>
      ∃ parent kp cp imp,
        EvRecord parent kp cp ∈ before ∧ imp ∈ scanImports cp ∧
        path = fullPath imp (Some parent)
  | EvRecord q k c =>
      (∀ k' c', EvRecord q k' c' ∉ before) ∧
      (before = [] ∨
       ∃ earlier parent kp cp imp,
         before = earlier ++ [EvRead (fullPath imp (Some parent))] ∧
         EvRecord parent kp cp ∈ earlier ∧ imp ∈ scanImports cp ∧
         fs !! fullPath imp (Some parent) = Some c ∧
         q = childPath parent imp ∧ k = childKey parent imp)
  | EvWarn imp parent message =>
      ∃ earlier kp cp,
        before = earlier ++ [EvRead (fullPath imp (Some parent))] ∧
        EvRecord parent kp cp ∈ earlier ∧ imp ∈ scanImports cp ∧
        fs !! fullPath imp (Some parent) = None ∧
        message = "Import not found: " +:+ imp +:+ " (base: " +:+ parent +:+ ")"
  | EvCompile _ => False
  end.

Definition justifiedTrace (tr : list Event) : Prop :=
  ∀ before e after, tr = before ++ e :: after → justified before e.

(** Every read of a file that exists is answered: the file has been
    recorded before the read, or it is recorded by the next event. *)
Definition answered (tr : list Event) : Prop :=
  ∀ before p after, tr = before ++ EvRead p :: after → is_Some (fs !! p) →
    ∃ k c, EvRecord p k c ∈ before ++ take 1 after.

(** A record made for an import of a file recorded in [tr]. *)
Definition derivedIn (tr : list Event) (e : Event) : Prop :=
  ∃ parent kp cp imp contents,
    EvRecord parent kp cp ∈ tr ∧ imp ∈ scanImports cp ∧
    findImp imp (Some parent) = Ok contents ∧
    e = EvRecord (childPath parent imp) (childKey parent imp) contents.

End ResolverSpec.

(** ** Calls of the compiler *)

Section CompilerSpec.

Variable cfg : Config.
Variable fs : FileSystem.
Variable solc : JsObject.t string → SolcOutput.

(** The state after a compiler call. *)
Definition compiledState (name source : string) (w : State) : State :=
  let r := resolveAllImports cfg fs source (entryPath cfg name) in
  logged (EvRead (entryPath cfg name) :: rtrace r ++ [EvCompile (sources r)]) w.

Definition compilerOutput (name source : string) : SolcOutput :=
  solc (sources (resolveAllImports cfg fs source (entryPath cfg name))).

Definition errorDiagnostics (out : SolcOutput) : list Diagnostic :=
  filter (λ d, isError d) (default [] (errors out)).

Definition artifactOf (contract : ContractOutput) : CompiledContract :=
  {| bytecode := co_bytecode_object contract;
     abi := co_abi contract;
     metadata := co_metadata contract |}.

End CompilerSpec.

(** ** Warnings of the resolver *)

Definition isWarn (e : Event) : bool :=
  match e with EvWarn _ _ _ => true | _ => false end.

Definition isRead (e : Event) : bool :=
  match e with EvRead _ => true | _ => false end.

(** The import statements of the file an event records. *)
Definition importStatements (e : Event) : nat :=
  match e with
  | EvRecord _ _ c => length (ImportScan.scanImports c)
  | _ => 0
  end.

(** * Sample trees *)

Module Fixtures.

Definition nl : string := String "010"%char EmptyString.

(** The instance made when [__dirname] is [/app/apps/contracts/src]. *)
Definition cfg : Config :=
  newContractCompiler "app/apps/contracts" "/app/apps/contracts/src".

Definition templates : string := "/app/apps/contracts/src/contracts".
Definition library : string := "/app/node_modules/@openzeppelin/contracts".

Definition inTemplates (file : string) : string := templates +:+ "/" +:+ file.
Definition inLibrary (file : string) : string := library +:+ "/" +:+ file.

(** A imports B, B imports A. *)
Definition srcA : string := "import './B.sol';" +:+ nl +:+ "contract A {}".
Definition srcB : string := "import './A.sol';" +:+ nl +:+ "contract B {}".
Definition pathA : string := inTemplates "A.sol".
Definition pathB : string := inTemplates "B.sol".
Definition cycleFs : FileSystem := {[ pathA := srcA; pathB := srcB ]}.

(** Root imports L and R, which both import D. *)
Definition srcRoot : string :=
  "import './L.sol';" +:+ nl +:+ "import './R.sol';" +:+ nl +:+ "contract Root {}".
Definition srcL : string := "import './D.sol';" +:+ nl +:+ "contract L {}".
Definition srcR : string := "import './D.sol';" +:+ nl +:+ "contract R {}".
Definition srcD : string := "contract D {}".
Definition pathRoot : string := inTemplates "Root.sol".
Definition pathL : string := inTemplates "L.sol".
Definition pathR : string := inTemplates "R.sol".
Definition pathD : string := inTemplates "D.sol".
Definition diamondFs : FileSystem :=
  {[ pathRoot := srcRoot; pathL := srcL; pathR := srcR; pathD := srcD ]}.

(** A template that imports a library file and a copy of it kept
    under the templates directory. *)
Definition srcVendor : string :=
  "import '@openzeppelin/contracts/X.sol';" +:+ nl +:+
  "import './node_modules/@openzeppelin/contracts/X.sol';" +:+ nl +:+
  "contract Vendor {}".
Definition srcLibX : string := "contract X { uint a; }".
Definition srcCopyX : string := "contract X { uint b; }".
Definition pathVendor : string := inTemplates "Vendor.sol".
Definition pathLibX : string := inLibrary "X.sol".
Definition pathCopyX : string :=
  inTemplates "node_modules/@openzeppelin/contracts/X.sol".
Definition vendorFs : FileSystem :=
  {[ pathVendor := srcVendor; pathLibX := srcLibX; pathCopyX := srcCopyX ]}.

(** Two files that import the copy, the second of them the library
    file as well. *)
Definition srcTop : string :=
  "import './P.sol';" +:+ nl +:+ "import './Q.sol';" +:+ nl +:+ "contract Top {}".
Definition srcP : string :=
  "import './node_modules/@openzeppelin/contracts/X.sol';" +:+ nl +:+ "contract P {}".
Definition srcQ : string :=
  "import './node_modules/@openzeppelin/contracts/X.sol';" +:+ nl +:+
  "import '@openzeppelin/contracts/X.sol';" +:+ nl +:+ "contract Q {}".
Definition pathTop : string := inTemplates "Top.sol".
Definition pathP : string := inTemplates "P.sol".
Definition pathQ : string := inTemplates "Q.sol".
Definition sharedCopyFs : FileSystem :=
  {[ pathTop := srcTop; pathP := srcP; pathQ := srcQ;
     pathLibX := srcLibX; pathCopyX := srcCopyX ]}.

(** A template whose first import is missing. *)
Definition srcBroken : string :=
  "import './Missing.sol';" +:+ nl +:+ "import './D.sol';" +:+ nl +:+
  "contract Broken {}".
Definition pathBroken : string := inTemplates "Broken.sol".
Definition brokenFs : FileSystem := {[ pathBroken := srcBroken; pathD := srcD ]}.

(** The ERC20 template with its two library imports. *)
Definition srcERC20 : string :=
  "import '@openzeppelin/contracts/token/ERC20/ERC20.sol';" +:+ nl +:+
  "import '@openzeppelin/contracts/access/Ownable.sol';" +:+ nl +:+
  "contract StabilityERC20 is ERC20, Ownable {}".
Definition pathERC20 : string := inTemplates "ERC20.sol".
Definition erc20Fs : FileSystem :=
  {[ pathERC20 := srcERC20;
     inLibrary "token/ERC20/ERC20.sol" := "contract ERC20 {}";
     inLibrary "access/Ownable.sol" := "contract Ownable {}" ]}.

Definition warning : Diagnostic := {| severity := "warning"; diagMessage := "unused" |}.
Definition failure : Diagnostic := {| severity := "error"; diagMessage := "parse" |}.

Definition outERC20 : ContractOutput :=
  {| co_abi := ["constructor"]; co_bytecode_object := "6080"; co_metadata := "{}" |}.

(** A compiler that answers with warnings only. *)
Definition solcWarns (_ : JsObject.t string) : SolcOutput :=
  {| errors := Some [warning];
     contracts := [("ERC20", [("StabilityERC20", outERC20)])] |}.

(** A compiler that answers with a warning and an error. *)
Definition solcFails (_ : JsObject.t string) : SolcOutput :=
  {| errors := Some [warning; failure]; contracts := [] |}.

(** A compiler that compiles whatever entry it is given. *)
Definition solcAny (srcs : JsObject.t string) : SolcOutput :=
  {| errors := None;
     contracts :=
       match srcs with
       | (k, c) :: _ => [(k, [(k, {| co_abi := []; co_bytecode_object := c;
                                    co_metadata := "" |})])]
       | [] => []
       end |}.

(** A template named after a member of [Object.prototype]. *)
Definition protoFs : FileSystem :=
  {[ inTemplates "constructor.sol" := "contract C {}" ]}.

Definition fooFs : FileSystem :=
  {[ inTemplates "a/Foo.sol" := "contract FooA {}";
     inTemplates "b/Foo.sol" := "contract FooB {}" ]}.

(** A template [7.sol] that imports a file named [3], one that imports
    a file named [__proto__], and a template [__proto__.sol]. *)
Definition srcSeven : string := "import '3';" +:+ nl +:+ "contract Seven {}".
Definition pathSeven : string := inTemplates "7.sol".
Definition indexFs : FileSystem :=
  {[ pathSeven := srcSeven; inTemplates "3" := "contract Three {}" ]}.

Definition srcT : string := "import '__proto__';" +:+ nl +:+ "contract T {}".
Definition pathT : string := inTemplates "T.sol".
Definition protoKeyFs : FileSystem :=
  {[ pathT := srcT; inTemplates "__proto__" := "contract P {}" ]}.

Definition protoRootFs : FileSystem :=
  {[ inTemplates "__proto__.sol" := "contract R {}" ]}.

Definition orderFs : FileSystem :=
  {[ inTemplates "Zeta.sol" := "contract Zeta {}";
     inTemplates "Alpha.sol" := "contract Alpha {}";
     pathSeven := "contract Seven {}" ]}.

End Fixtures.

(** * The embedding at work *)

Example resolve_normalizes :
  Path.resolve "work" ["/app/src/contracts"; "../x/./y//z.sol"] = "/app/src/x/y/z.sol"
  ∧ Path.resolve "work" ["a/b"; "../../../.."; "c"] = "/c"
  ∧ Path.resolve "work/dir" [""; ""] = "/work/dir".
Proof. by vm_compute. Qed.

(** The samples of Node's documentation of [path]. *)
Example path_documentation_samples :
  Path.resolve "home" ["/foo/bar"; "./baz"] = "/foo/bar/baz"
  ∧ Path.resolve "home" ["/foo/bar"; "/tmp/file/"] = "/tmp/file"
  ∧ Path.resolve "home/myself/node"
      ["wwwroot"; "static_files/png/"; "../gif/image.gif"]
    = "/home/myself/node/wwwroot/static_files/gif/image.gif"
  ∧ Path.dirname "/foo/bar/baz/asdf/quux" = "/foo/bar/baz/asdf"
  ∧ Path.basename "/foo/bar/baz/asdf/quux.html" ".html" = "quux"
  ∧ Path.relative "home" "/data/orandea/test/aaa" "/data/orandea/impl/bbb"
    = "../../impl/bbb".
Proof. by vm_compute. Qed.

Example dirname_samples :
  Path.dirname "/a/b/c.sol" = "/a/b" ∧ Path.dirname "/a" = "/" ∧
  Path.dirname "a" = "." ∧ Path.dirname "" = "." ∧ Path.dirname "/a/b//" = "/a".
Proof. by vm_compute. Qed.

Example basename_samples :
  Path.basename "/a/b/c.sol" ".sol" = "c" ∧ Path.basename "/a/.sol" ".sol" = ".sol" ∧
  Path.basename "/a/b.txt//" ".sol" = "b.txt" ∧ Path.basename ".sol" ".sol" = "".
Proof. by vm_compute. Qed.

Example relative_samples :
  Path.relative "w" "/app/src/contracts" "/app/src/contracts/a/b.sol" = "a/b.sol" ∧
  Path.relative "w" "/app/src/contracts" "/app/node_modules/x.sol"
  = "../../node_modules/x.sol".
Proof. by vm_compute. Qed.

(** Both forms of import are found; on one line, the first alternative
    runs from the first [import] to the first [from]. *)
Example scanImports_samples :
  ImportScan.scanImports
    ("pragma solidity ^0.8.24;" +:+ Fixtures.nl +:+
     "import './B.sol';" +:+ Fixtures.nl +:+
     "import {X, Y}  from  '@openzeppelin/contracts/a/X.sol';")
  = ["./B.sol"; "@openzeppelin/contracts/a/X.sol"]
  ∧ ImportScan.scanImports "import 'a'; import {q} from 'c'; import 'd';" = ["c"; "d"]
  ∧ (let q := String "034"%char EmptyString in
     ImportScan.scanImports ("import " +:+ q +:+ "./C.sol" +:+ q +:+ ";") = ["./C.sol"])
  ∧ ImportScan.scanImports "// import './B.sol' without semicolon" = [].
Proof. by vm_compute. Qed.

(** The ERC20 template: three sources, one compiler call, one cache
    entry. *)
Example erc20_end_to_end :
  let call := getERC20 Fixtures.cfg Fixtures.erc20Fs Fixtures.solcWarns emptyState in
  JsObject.keys
    (sources (resolveAllImports Fixtures.cfg Fixtures.erc20Fs
                Fixtures.srcERC20 Fixtures.pathERC20))
  = ["ERC20"; "@openzeppelin/contracts/token/ERC20/ERC20.sol";
     "@openzeppelin/contracts/access/Ownable.sol"]
  ∧ call.1 = Ok (Artifact {| bytecode := "6080"; abi := ["constructor"]; metadata := "{}" |})
  ∧ getCacheKeys call.2 = ["ERC20"]
  ∧ compileCount (trace call.2) = 1.
Proof. by vm_compute. Qed.

(** The two objects.  Keys that are array indices are listed first; an
    assignment under [__proto__] leaves no entry; a name inherited from
    [Object.prototype] is answered by the cache test without a read or
    a compilation; the cache keys come in the order of their creation,
    array indices first. *)
Example plain_object_samples :
  (let r := resolveAllImports Fixtures.cfg Fixtures.indexFs
              Fixtures.srcSeven Fixtures.pathSeven in
   recordEntries (rtrace r) = [("7", Fixtures.srcSeven); ("3", "contract Three {}")] ∧
   sources r = [("3", "contract Three {}"); ("7", Fixtures.srcSeven)]) ∧
  (let r := resolveAllImports Fixtures.cfg Fixtures.protoKeyFs
              Fixtures.srcT Fixtures.pathT in
   recordEntries (rtrace r) = [("T", Fixtures.srcT); ("__proto__", "contract P {}")] ∧
   sources r = [("T", Fixtures.srcT)]) ∧
  (let r := resolveAllImports Fixtures.cfg Fixtures.protoRootFs
              "contract R {}" (Fixtures.inTemplates "__proto__.sol") in
   recordEntries (rtrace r) = [("__proto__", "contract R {}")] ∧ sources r = []) ∧
  getContract Fixtures.cfg Fixtures.protoFs Fixtures.solcAny "toString" emptyState
  = (Ok (PrototypeMember "toString"), emptyState) ∧
  getContract Fixtures.cfg Fixtures.protoRootFs Fixtures.solcAny "__proto__" emptyState
  = (Ok (PrototypeMember "__proto__"), emptyState) ∧
  (let get := getContract Fixtures.cfg Fixtures.orderFs Fixtures.solcAny in
   getCacheKeys (get "7" (get "Alpha" (get "Zeta" emptyState).2).2).2
   = ["7"; "Zeta"; "Alpha"]).
Proof. cbv zeta. split_and!; vm_compute; reflexivity. Qed.

(** * Facts about strings and paths *)

Section StringFacts.
Import JsString Path.

Lemma app_cons c s t : String c s +:+ t = String c (s +:+ t).
Proof. reflexivity. Qed.

Lemma app_empty_l t : "" +:+ t = t.
Proof. reflexivity. Qed.

Lemma app_empty_r s : s +:+ "" = s.
Proof. induction s as [|c s IH]; [done|]. by rewrite app_cons, IH. Qed.

Lemma app_assoc_str a b c : (a +:+ b) +:+ c = a +:+ b +:+ c.
Proof. induction a as [|x a IH]; [done|]. by rewrite !app_cons, IH. Qed.

Lemma length_app_str a b :
  String.length (a +:+ b) = String.length a + String.length b.
Proof. induction a as [|x a IH]; [done|]. rewrite app_cons. simpl. by rewrite IH. Qed.

Lemma chars_app a b : chars (a +:+ b) = chars a ++ chars b.
Proof.
  unfold chars. induction a as [|x a IH]; [done|].
  rewrite app_cons. simpl. by rewrite IH.
Qed.

Lemma str_chars s : str (chars s) = s.
Proof. apply string_of_list_ascii_of_string. Qed.

Lemma rev_app_app s acc t :
  String.rev_app s acc +:+ t = String.rev_app s (acc +:+ t).
Proof.
  revert acc. induction s as [|c s IH]; intros acc; simpl; [done|].
  by rewrite IH, app_cons.
Qed.

Lemma segments_go_noSlash t cur :
  noSlash t = true → segments_go t cur = [String.rev cur +:+ t].
Proof.
  revert cur. induction t as [|c t IH]; intros cur Ht; simpl in *.
  - by rewrite app_empty_r.
  - apply andb_true_iff in Ht as [Hc Ht]. apply negb_true_iff in Hc.
    rewrite Hc, IH by done. unfold String.rev. simpl.
    by rewrite !rev_app_app.
Qed.

(** Splitting a path text at one of its slashes. *)
Lemma segments_go_slash y s cur :
  segments_go (y +:+ "/" +:+ s) cur = segments_go y cur ++ segments s.
Proof.
  revert cur. induction y as [|c y IH]; intros cur.
  - reflexivity.
  - rewrite app_cons. simpl. destruct (isSlash c); by rewrite IH.
Qed.

Lemma segments_go_last s t cur :
  noSlash t = true →
  ∃ init, segments_go (s +:+ t) cur = init ++ [lastSegment_go s cur +:+ t].
Proof.
  intros Ht. revert cur. induction s as [|c s IH]; intros cur.
  - exists []. rewrite app_empty_l. by apply segments_go_noSlash.
  - rewrite app_cons. simpl. destruct (isSlash c).
    + destruct (IH "") as [init ->]. by exists (String.rev cur :: init).
    + apply IH.
Qed.

Lemma noSlash_rev_app a b :
  noSlash (String.rev_app a b) = noSlash a && noSlash b.
Proof.
  revert b. induction a as [|x a IHa]; intros b; simpl; [done|].
  rewrite IHa. simpl. destruct (isSlash x), (noSlash a); simpl; done.
Qed.

Lemma lastSegment_go_noSlash s cur :
  noSlash cur = true → noSlash (lastSegment_go s cur) = true.
Proof.
  revert cur. induction s as [|c s IH]; intros cur Hcur; simpl.
  - unfold String.rev. rewrite noSlash_rev_app, Hcur. done.
  - destruct (isSlash c) eqn:Hc; apply IH; simpl; [done|].
    by rewrite Hc, Hcur.
Qed.

Lemma lastSegment_noSlash s : noSlash (lastSegment s) = true.
Proof. by apply lastSegment_go_noSlash. Qed.

Lemma noSlash_app a b : noSlash (a +:+ b) = noSlash a && noSlash b.
Proof.
  induction a as [|x a IH]; [done|]. rewrite app_cons. simpl.
  rewrite IH. by rewrite andb_assoc.
Qed.

Lemma length_chars s : length (chars s) = String.length s.
Proof. unfold chars. induction s; simpl; auto. Qed.

Lemma noSlash_chars s c : noSlash s = true → c ∈ chars s → isSlash c = false.
Proof.
  unfold chars. induction s as [|x s IH]; simpl; intros Hs Hc.
  - by apply elem_of_nil in Hc.
  - apply andb_true_iff in Hs as [Hx Hs]. apply negb_true_iff in Hx.
    apply elem_of_cons in Hc as [->|Hc]; auto.
Qed.

Lemma span_stop f l rest :
  (∀ c, c ∈ l → f c = true) →
  match rest with [] => True | c :: _ => f c = false end →
  span f (l ++ rest) = (l, rest).
Proof.
  intros Hl Hrest. induction l as [|x l IH]; simpl.
  - destruct rest as [|c rest]; [done|]. simpl. by rewrite Hrest.
  - rewrite Hl by apply list_elem_of_here.
    rewrite IH; [done|]. intros c Hc. apply Hl. by apply list_elem_of_further.
Qed.

(** ** [path.resolve] of an entry file *)

Lemma normalizeSegs_app allowAboveRoot l1 :
  ∀ stack, ∃ stack', ∀ l2,
    normalizeSegs allowAboveRoot stack (l1 ++ l2)
    = normalizeSegs allowAboveRoot stack' l2.
Proof.
  induction l1 as [|seg l1 IH]; intros stack; simpl.
  - by exists stack.
  - repeat case_match; apply IH.
Qed.

Lemma normalizeSegs_last allowAboveRoot stack seg :
  regularSegment seg →
  normalizeSegs allowAboveRoot stack [seg; ""] = rev stack ++ [seg].
Proof.
  intros (H1 & H2 & H3). simpl.
  rewrite decide_False by (intros [?|?]; done).
  rewrite decide_False by done. done.
Qed.

Lemma join_last (l : list string) seg :
  ∃ pre, "/" +:+ join "/" (l ++ [seg]) = pre +:+ "/" +:+ seg.
Proof.
  induction l as [|x l [pre IH]].
  - by exists "".
  - exists ("/" +:+ x +:+ pre).
    assert (join "/" ((x :: l) ++ [seg]) = x +:+ "/" +:+ join "/" (l ++ [seg])) as ->.
    { simpl. destruct (l ++ [seg]) eqn:E; [|done]. by destruct l. }
    rewrite IH. by rewrite !app_assoc_str.
Qed.

Lemma sol_regular b : regularSegment (b +:+ ".sol").
Proof.
  assert (4 ≤ String.length (b +:+ ".sol")) as H
    by (rewrite length_app_str; simpl; lia).
  split_and!; intros E; rewrite E in H; simpl in H; lia.
Qed.

(** The loop of [path.resolve] ends with an absolute text; the last
    argument comes last in it. *)
Lemma resolve_go_last cwd dir file :
  file ≠ "" →
  ∃ x, resolve_go (rev [dir; file] ++ [posixCwd cwd]) "" = (x +:+ file +:+ "/", true)
       ∧ (x = "" ∨ ∃ y, x = y +:+ "/").
Proof.
  intros Hfile.
  change (rev [dir; file] ++ [posixCwd cwd]) with [file; dir; posixCwd cwd].
  assert (startsWith (posixCwd cwd) "/" = true) as Hcwd by done.
  cbn [resolve_go]. rewrite Hcwd.
  rewrite (decide_False (P := file = "")) by done.
  rewrite (decide_False (P := posixCwd cwd = "")) by done.
  rewrite app_empty_r.
  destruct (startsWith file "/").
  { exists "". auto. }
  destruct (decide (dir = "")) as [->|Hdir].
  - exists (posixCwd cwd +:+ "/"). split.
    + by rewrite !app_assoc_str.
    + right. by exists (posixCwd cwd).
  - destruct (startsWith dir "/").
    + exists (dir +:+ "/"). split; [by rewrite !app_assoc_str|].
      right. by exists dir.
    + exists (posixCwd cwd +:+ "/" +:+ dir +:+ "/"). split.
      * by rewrite !app_assoc_str.
      * right. exists (posixCwd cwd +:+ "/" +:+ dir).
        by rewrite !app_assoc_str.
Qed.

Lemma segments_entry x name :
  (x = "" ∨ ∃ y, x = y +:+ "/") →
  ∃ pre, segments (x +:+ (name +:+ ".sol") +:+ "/")
         = pre ++ [lastSegment name +:+ ".sol"; ""].
Proof.
  intros Hx.
  assert (∃ pre, segments (x +:+ name +:+ ".sol")
                 = pre ++ [lastSegment name +:+ ".sol"]) as [pre Hpre].
  { destruct (segments_go_last name ".sol" "" eq_refl) as [init Hinit].
    destruct Hx as [->|[y ->]].
    - by exists init.
    - exists (segments_go y "" ++ init). unfold segments.
      rewrite app_assoc_str, segments_go_slash. unfold segments.
      by rewrite Hinit, app_assoc. }
  exists pre. unfold segments in *.
  replace (x +:+ (name +:+ ".sol") +:+ "/")
    with ((x +:+ name +:+ ".sol") +:+ "/" +:+ "")
    by (by rewrite !app_assoc_str).
  rewrite segments_go_slash, Hpre. by rewrite <- app_assoc.
Qed.

(** The entry path ends with the last segment of the requested name. *)
Lemma resolve_entry cwd dir name :
  ∃ pre, Path.resolve cwd [dir; name +:+ ".sol"]
         = pre +:+ "/" +:+ lastSegment name +:+ ".sol".
Proof.
  unfold Path.resolve.
  destruct (resolve_go_last cwd dir (name +:+ ".sol")) as (x & -> & Hx).
  { intros E. pose proof (sol_regular name) as [? _]. done. }
  destruct (segments_entry x name Hx) as [segs Hsegs].
  unfold normalizeString. rewrite Hsegs. simpl negb.
  destruct (normalizeSegs_app false segs []) as [stack ->].
  rewrite normalizeSegs_last by apply sol_regular.
  apply join_last.
Qed.

(** ** [path.basename] of an entry file *)

Lemma basename_sol pre b :
  noSlash b = true →
  Path.basename (pre +:+ "/" +:+ b +:+ ".sol") ".sol"
  = if decide (b = "") then ".sol" else b.
Proof.
  intros Hb.
  set (path := pre +:+ "/" +:+ b +:+ ".sol").
  set (comp0 := ["l"; "o"; "s"; "."]%char ++ rev (chars b)).
  set (rest := "/"%char :: rev (chars pre)).
  assert (rev (chars path) = comp0 ++ rest) as Hrev.
  { unfold path, comp0, rest. rewrite !chars_app, !rev_app_distr.
    rewrite <- !app_assoc. done. }
  assert (span isSlash (comp0 ++ rest) = ([], comp0 ++ rest)) as Hspan1 by done.
  assert (span (λ c, negb (isSlash c)) (comp0 ++ rest) = (comp0, rest)) as Hspan2.
  { apply span_stop; [|done].
    intros c [Hc|Hc]%elem_of_app.
    - repeat (apply elem_of_cons in Hc as [->|Hc]; [done|]).
      by apply elem_of_nil in Hc.
    - apply negb_true_iff, (noSlash_chars b); [done|].
      apply list_elem_of_In, in_rev. by apply list_elem_of_In. }
  assert (5 ≤ String.length path) as Hlen.
  { unfold path. rewrite !length_app_str. simpl. lia. }
  unfold Path.basename. rewrite Hrev, Hspan1, Hspan2. cbv beta iota zeta.
  rewrite bool_decide_eq_true_2 by (simpl; lia).
  rewrite decide_False by (intros E; rewrite <- E in Hlen; simpl in Hlen; lia).
  change (rev (chars ".sol")) with ["l"; "o"; "s"; "."]%char.
  unfold comp0.
  destruct (rev (chars b)) as [|c r] eqn:E.
  - apply (f_equal (@rev ascii)) in E. rewrite rev_involutive in E. simpl in E.
    apply (f_equal str) in E. rewrite str_chars in E. subst b. done.
  - rewrite decide_False.
    2:{ intros ->. done. }
    assert (str (rev (c :: r)) = b) as Hstr
      by (rewrite <- E, rev_involutive; apply str_chars).
    simpl. simpl in Hstr. exact Hstr.
Qed.

Lemma lastSegment_go_id s cur :
  noSlash s = true → lastSegment_go s cur = String.rev cur +:+ s.
Proof.
  revert cur. induction s as [|c s IH]; intros cur Hs; simpl in *.
  - by rewrite app_empty_r.
  - apply andb_true_iff in Hs as [Hc Hs]. apply negb_true_iff in Hc.
    rewrite Hc, IH by done. unfold String.rev. simpl.
    by rewrite !rev_app_app.
Qed.

Lemma lastSegment_id s : noSlash s = true → lastSegment s = s.
Proof. intros. unfold lastSegment. by rewrite lastSegment_go_id. Qed.

(** A prefix is what [replace] finds first. *)
Lemma replace_prefix s p :
  startsWith s p = true → JsString.replace s p "" = JsString.drop (String.length p) s.
Proof. intros H. destruct s; simpl; by rewrite H. Qed.

Lemma split_go_nonempty sep s skip cur : split_go sep s skip cur ≠ [].
Proof.
  revert skip cur. induction s as [|c s IH]; intros skip cur; simpl; [done|].
  destruct skip; [|apply IH]. destruct (startsWith _ _); [done|apply IH].
Qed.

(** Text that includes the separator splits into two pieces at least. *)
Lemma split_second s sep :
  sep ≠ "" → includes s sep = true → is_Some (split s sep !! 1).
Proof.
  intros Hsep. unfold split. generalize "" as cur.
  induction s as [|c s IH]; intros cur Hinc.
  - simpl in Hinc. rewrite orb_false_r in Hinc. by destruct sep.
  - cbn [includes] in Hinc. cbn [split_go].
    destruct (startsWith (String c s) sep) eqn:Hst.
    + pose proof (split_go_nonempty sep s (String.length sep - 1) "") as Hne.
      destruct (split_go sep s _ _); [done|]. by eexists.
    + simpl in Hinc. by apply IH.
Qed.

(** ** Absolute paths *)

Lemma absolute_inv p :
  startsWith p "/" = true → ∃ tl, p = String "/" tl.
Proof.
  destruct p as [|c tl]; [done|]. cbn [startsWith].
  intros [Hc _]%andb_true_iff. apply Ascii.eqb_eq in Hc as ->. by exists tl.
Qed.

Lemma resolve_go_absolute cwd args :
  ∀ acc, (resolve_go (args ++ [posixCwd cwd]) acc).2 = true.
Proof.
  induction args as [|a args IH]; intros acc; cbn [app resolve_go].
  - unfold posixCwd. case_decide; [done|]. done.
  - case_decide; [apply IH|].
    destruct (startsWith a "/"); [done|apply IH].
Qed.

Lemma resolve_absolute cwd args :
  startsWith (Path.resolve cwd args) "/" = true.
Proof.
  unfold Path.resolve.
  pose proof (resolve_go_absolute cwd (rev args) "") as Habs.
  destruct (resolve_go _ _) as [rp abs]. simpl in Habs. subst abs. done.
Qed.

Lemma dirname_absolute p :
  startsWith p "/" = true → startsWith (Path.dirname p) "/" = true.
Proof.
  intros [tl ->]%absolute_inv. unfold Path.dirname.
  destruct (span isSlash _) as [? r1].
  destruct (span _ r1) as [? r2].
  destruct r2 as [|? before]; [done|].
  by destruct (isSlash "/" && bool_decide (before = [])).
Qed.

(** ** [path.resolve] of a root and a relative path *)

Lemma normalizeSegs_snoc_empty allowAboveRoot l stack :
  normalizeSegs allowAboveRoot stack (l ++ [""])
  = normalizeSegs allowAboveRoot stack l.
Proof.
  destruct (normalizeSegs_app allowAboveRoot l stack) as [stack' Hstack].
  rewrite (Hstack [""]). pose proof (Hstack []) as Hnil.
  rewrite app_nil_r in Hnil. rewrite Hnil.
  cbn [normalizeSegs]. by rewrite decide_True by auto.
Qed.

Lemma segments_slash a b : segments (a +:+ "/" +:+ b) = segments a ++ segments b.
Proof. apply segments_go_slash. Qed.

(** With an absolute root, [path.resolve(root, rel)] joins the two,
    unless [rel] is absolute itself: then the root is not used. *)
Lemma resolve_joined cwd root rel :
  startsWith root "/" = true →
  Path.resolve cwd [root; rel] =
  if startsWith rel "/" then joined "" rel else joined root rel.
Proof.
  intros Hroot. destruct (absolute_inv _ Hroot) as [tl Htl].
  assert (root ≠ "") as Hne by (by subst root).
  unfold Path.resolve.
  change (rev [root; rel] ++ [posixCwd cwd]) with [rel; root; posixCwd cwd].
  cbn [resolve_go].
  destruct (decide (rel = "")) as [->|Hrel].
  - rewrite (decide_False (P := root = "")) by done. rewrite Hroot.
    cbn [startsWith negb]. unfold normalizeString, joined.
    by rewrite segments_slash.
  - destruct (startsWith rel "/") eqn:Hr.
    + cbn [negb]. unfold normalizeString, joined.
      rewrite segments_slash.
      change (segments "") with [""].
      rewrite normalizeSegs_snoc_empty.
      cbn [app normalizeSegs]. by rewrite decide_True by auto.
    + rewrite (decide_False (P := root = "")) by done. rewrite Hroot.
      cbn [negb]. unfold normalizeString, joined.
      rewrite !segments_slash. change (segments "") with [""].
      by rewrite app_assoc, normalizeSegs_snoc_empty.
Qed.

(** ** [split] and the first occurrence of a separator *)

Lemma startsWith_length s p :
  startsWith s p = true → String.length p ≤ String.length s.
Proof.
  revert s. induction p as [|c p IH]; intros s Hs; simpl; [lia|].
  destruct s as [|d s]; [done|]. cbn [startsWith] in Hs.
  apply andb_true_iff in Hs as [_ Hs]. apply IH in Hs. simpl. lia.
Qed.

Lemma startsWith_drop s p :
  startsWith s p = true → s = p +:+ drop (String.length p) s.
Proof.
  revert s. induction p as [|c p IH]; intros s Hs; [by destruct s|].
  destruct s as [|d s]; [done|]. cbn [startsWith] in Hs.
  apply andb_true_iff in Hs as [Hc Hs]. apply Ascii.eqb_eq in Hc as ->.
  rewrite app_cons. cbn [String.length drop]. by rewrite <- IH.
Qed.

Lemma startsWith_app p t : startsWith (p +:+ t) p = true.
Proof.
  induction p as [|c p IH]; [by destruct t|].
  rewrite app_cons. cbn [startsWith]. by rewrite Ascii.eqb_refl, IH.
Qed.

Lemma rev_cons_app c cur t :
  String.rev (String c cur) +:+ t = String.rev cur +:+ String c t.
Proof. unfold String.rev. cbn [String.rev_app]. by rewrite !rev_app_app. Qed.

Lemma split_go_skip sep s :
  ∀ n cur, n ≤ String.length s →
    split_go sep s n cur = split_go sep (drop n s) 0 cur.
Proof.
  induction s as [|c s IH]; intros n cur Hn.
  - destruct n; [done|]. simpl in Hn. lia.
  - destruct n as [|n]; [done|]. cbn [split_go drop]. apply IH. simpl in Hn. lia.
Qed.

Lemma split_go_cutAt sep s :
  sep ≠ "" →
  ∀ cur, split_go sep s 0 cur =
    match cutAt sep s with
    | None => [String.rev cur +:+ s]
    | Some (before, after) => (String.rev cur +:+ before) :: split after sep
    end.
Proof.
  intros Hsep. destruct sep as [|x sep']; [done|].
  induction s as [|c s IH]; intros cur.
  - cbn. by rewrite app_empty_r.
  - cbn [split_go cutAt].
    destruct (startsWith (String c s) (String x sep')) eqn:Hst.
    + rewrite app_empty_r. f_equal. unfold split.
      replace (String.length (String x sep') - 1) with (String.length sep')
        by (simpl; lia).
      change (drop (String.length (String x sep')) (String c s))
        with (drop (String.length sep') s).
      apply split_go_skip. apply startsWith_length in Hst. simpl in Hst. lia.
    + rewrite IH. destruct (cutAt (String x sep') s) as [[before after]|].
      * by rewrite rev_cons_app.
      * by rewrite rev_cons_app.
Qed.

(** [split] cuts at the first occurrence of the separator and goes on
    with what follows it. *)
Lemma split_cutAt s sep :
  sep ≠ "" →
  split s sep =
    match cutAt sep s with
    | None => [s]
    | Some (before, after) => before :: split after sep
    end.
Proof.
  intros Hsep. unfold split at 1. rewrite split_go_cutAt by done.
  by destruct (cutAt sep s) as [[before after]|].
Qed.

Lemma split_secondPiece s sep :
  sep ≠ "" → split s sep !! 1 = secondPiece sep s.
Proof.
  intros Hsep. unfold secondPiece. rewrite split_cutAt by done.
  destruct (cutAt sep s) as [[before after]|]; [|done].
  cbn [lookup list_lookup]. rewrite split_cutAt by done.
  by destruct (cutAt sep after) as [[piece rest]|].
Qed.

Lemma includes_cutAt s sep : includes s sep = true ↔ is_Some (cutAt sep s).
Proof.
  induction s as [|c s IH]; cbn [includes cutAt].
  - rewrite orb_false_r.
    destruct (startsWith "" sep); split;
      first [done|by eexists|by intros [? ?]].
  - destruct (startsWith (String c s) sep); [split; [by eexists|done]|].
    rewrite orb_false_l, IH.
    destruct (cutAt sep s) as [[before after]|]; split;
      first [done|by eexists|by intros [? ?]].
Qed.

(** [cutAt] finds the first occurrence. *)
Lemma cutAt_app sep s before after :
  cutAt sep s = Some (before, after) → s = before +:+ sep +:+ after.
Proof.
  revert before. induction s as [|c s IH]; intros before; cbn [cutAt].
  - destruct (startsWith "" sep) eqn:Hst; [|done].
    intros [= <- <-]. by apply startsWith_drop.
  - destruct (startsWith (String c s) sep) eqn:Hst.
    + intros [= <- <-]. by apply startsWith_drop.
    + destruct (cutAt sep s) as [[b a]|]; [|done].
      intros [= <- <-]. rewrite app_cons. f_equal. by apply IH.
Qed.

Lemma cutAt_first sep before' after' :
  ∃ before after,
    cutAt sep (before' +:+ sep +:+ after') = Some (before, after) ∧
    String.length before ≤ String.length before'.
Proof.
  induction before' as [|c p (b & a & Hcut & Hlen)].
  - rewrite app_empty_l.
    assert (cutAt sep (sep +:+ after')
            = Some ("", drop (String.length sep) (sep +:+ after'))) as ->.
    { destruct (sep +:+ after') eqn:E; cbn [cutAt]; rewrite <- E;
        by rewrite startsWith_app. }
    eexists _, _. split; [done|]. simpl. lia.
  - rewrite app_cons. cbn [cutAt].
    destruct (startsWith _ sep).
    + eexists _, _. split; [done|]. simpl. lia.
    + rewrite Hcut. eexists _, _. split; [done|]. simpl. lia.
Qed.

End StringFacts.

(** * Facts about tables and traces *)

Section JsObjectFacts.
Context {A : Type}.
Implicit Types (o : JsObject.t A) (k : string) (v : A).

Lemma JsObject_lookup_elem o k v : o !! k = Some v → (k, v) ∈ o.
Proof.
  unfold lookup, JsObject_lookup.
  induction o as [|[k' v'] o IH]; cbn [JsObject.get]; [done|].
  case_decide as Hk.
  - intros [= <-]. subst k'. apply list_elem_of_here.
  - intros ?. by apply list_elem_of_further, IH.
Qed.

Lemma JsObject_lookup_keys o k : is_Some (o !! k) ↔ k ∈ JsObject.keys o.
Proof.
  unfold lookup, JsObject_lookup, JsObject.keys.
  induction o as [|[k' v'] o IH]; cbn [JsObject.get].
  - split; [by intros [? ?]|by intros ?%not_elem_of_nil].
  - rewrite fmap_cons, elem_of_cons. cbn [fst]. case_decide as Hk.
    + split; [by left|by eexists].
    + rewrite IH. split; [by right|]. intros [?|?]; [congruence|done].
Qed.

Lemma JsObject_lookup_None o k : o !! k = None ↔ k ∉ JsObject.keys o.
Proof.
  rewrite <- JsObject_lookup_keys. destruct (o !! k) as [x|]; split.
  - done.
  - intros H. destruct H. by eexists.
  - intros _ [? ?]. done.
  - done.
Qed.

Lemma JsObject_elem_lookup o k v :
  NoDup (JsObject.keys o) → (k, v) ∈ o → o !! k = Some v.
Proof.
  unfold lookup, JsObject_lookup, JsObject.keys.
  induction o as [|[k' v'] o IH]; intros Hnd Hin.
  { by apply not_elem_of_nil in Hin. }
  rewrite fmap_cons in Hnd. apply NoDup_cons in Hnd as [Hk Hnd]. cbn [fst] in Hk.
  cbn [JsObject.get]. apply elem_of_cons in Hin as [Heq|Hin].
  - injection Heq as <- <-. by rewrite decide_True.
  - rewrite decide_False; [by apply IH|]. intros ->. apply Hk.
    apply list_elem_of_fmap. by exists (k, v).
Qed.

(** With no duplicate key, an object holds one value for a key. *)
Lemma NoDup_keys_functional o k v1 v2 :
  NoDup (JsObject.keys o) → (k, v1) ∈ o → (k, v2) ∈ o → v1 = v2.
Proof.
  intros Hnd H1 H2.
  pose proof (JsObject_elem_lookup o k v1 Hnd H1) as E1.
  pose proof (JsObject_elem_lookup o k v2 Hnd H2) as E2. congruence.
Qed.

Lemma JsObject_keys_overwrite k v o :
  JsObject.keys (JsObject.overwrite k v o) = JsObject.keys o.
Proof.
  unfold JsObject.keys. induction o as [|[k' v'] o IH]; [done|].
  cbn [JsObject.overwrite]. case_decide; [by subst|].
  by rewrite !fmap_cons, IH.
Qed.

Lemma JsObject_lookup_overwrite k v o k' :
  JsObject.overwrite k v o !! k' =
  if decide (k' = k) then match o !! k with Some _ => Some v | None => None end
  else o !! k'.
Proof.
  unfold lookup, JsObject_lookup.
  induction o as [|[k0 v0] o IH]; cbn [JsObject.overwrite JsObject.get].
  - by case_decide.
  - destruct (decide (k0 = k)) as [->|Hne]; cbn [JsObject.get].
    + destruct (decide (k' = k)) as [->|Hne'].
      * by rewrite !decide_True.
      * rewrite !decide_False by done. done.
    + rewrite IH. destruct (decide (k' = k)) as [->|Hne'].
      * by rewrite !decide_False.
      * done.
Qed.

Lemma JsObject_keys_insertIndex n k v o :
  JsObject.keys (JsObject.insertIndex n k v o) ≡ₚ k :: JsObject.keys o.
Proof.
  unfold JsObject.keys. induction o as [|[k' v'] o IH]; [done|].
  cbn [JsObject.insertIndex]. destruct (JsObject.arrayIndex k') as [m|]; [|done].
  destruct (m <? n)%N; [|done].
  rewrite !fmap_cons, IH. cbn [fst]. apply Permutation_swap.
Qed.

Lemma JsObject_lookup_insertIndex n k v o k' :
  o !! k = None →
  JsObject.insertIndex n k v o !! k' = if decide (k' = k) then Some v else o !! k'.
Proof.
  unfold lookup, JsObject_lookup.
  induction o as [|[k0 v0] o IH]; intros Hk; cbn [JsObject.insertIndex JsObject.get].
  - repeat case_decide; congruence.
  - cbn [JsObject.get] in Hk. destruct (decide (k0 = k)) as [|Hne]; [done|].
    assert (JsObject.get k' ((k, v) :: (k0, v0) :: o)
            = if decide (k' = k) then Some v else JsObject.get k' ((k0, v0) :: o)) as Hhere.
    { cbn [JsObject.get]. repeat case_decide; congruence. }
    destruct (JsObject.arrayIndex k0) as [m|]; [|exact Hhere].
    destruct (m <? n)%N; [|exact Hhere].
    cbn [JsObject.get]. rewrite IH by done.
    repeat case_decide; congruence.
Qed.

Lemma JsObject_lookup_snoc k v o k' :
  (o ++ [(k, v)] : JsObject.t A) !! k' =
  match o !! k' with
  | Some x => Some x
  | None => if decide (k' = k) then Some v else None
  end.
Proof.
  unfold lookup, JsObject_lookup.
  induction o as [|[k0 v0] o IH]; cbn [app JsObject.get].
  - repeat case_decide; congruence.
  - destruct (decide (k0 = k')); [done|apply IH].
Qed.

(** Reading after an assignment. *)
Lemma JsObject_lookup_set k v o k' :
  JsObject.set k v o !! k' =
  if decide (k = "__proto__") then o !! k'
  else if decide (k' = k) then Some v else o !! k'.
Proof.
  unfold JsObject.set. case_decide; [done|].
  change (JsObject.get k o) with (o !! k).
  destruct (o !! k) as [x|] eqn:Hk.
  - rewrite JsObject_lookup_overwrite, Hk. by case_decide.
  - destruct (JsObject.arrayIndex k).
    + by apply JsObject_lookup_insertIndex.
    + rewrite JsObject_lookup_snoc. case_decide; [by subst; rewrite Hk|].
      by destruct (o !! k').
Qed.

Lemma JsObject_lookup_set_eq k v o :
  k ≠ "__proto__" → JsObject.set k v o !! k = Some v.
Proof. intros. rewrite JsObject_lookup_set. by rewrite decide_False, decide_True. Qed.

Lemma JsObject_lookup_set_ne k v o k' :
  k' ≠ k → JsObject.set k v o !! k' = o !! k'.
Proof.
  intros. rewrite JsObject_lookup_set. case_decide; [done|by rewrite decide_False].
Qed.

(** An assignment to [__proto__] or to a key that is there leaves the
    keys as they are; any other adds its key. *)
Lemma JsObject_keys_set_old k v o :
  k = "__proto__" ∨ k ∈ JsObject.keys o →
  JsObject.keys (JsObject.set k v o) = JsObject.keys o.
Proof.
  intros Hk. unfold JsObject.set. case_decide; [done|].
  destruct Hk as [?|Hk]; [done|].
  apply JsObject_lookup_keys in Hk as [x Hx].
  change (JsObject.get k o) with (o !! k). rewrite Hx.
  apply JsObject_keys_overwrite.
Qed.

Lemma JsObject_keys_set_new k v o :
  k ≠ "__proto__" → k ∉ JsObject.keys o →
  JsObject.keys (JsObject.set k v o) ≡ₚ k :: JsObject.keys o.
Proof.
  intros Hproto Hk. unfold JsObject.set. rewrite decide_False by done.
  apply JsObject_lookup_None in Hk.
  change (JsObject.get k o) with (o !! k). rewrite Hk.
  destruct (JsObject.arrayIndex k).
  - apply JsObject_keys_insertIndex.
  - unfold JsObject.keys. rewrite fmap_app. cbn.
    symmetry. apply Permutation_cons_append.
Qed.

Lemma JsObject_elem_of_keys_set k v o k' :
  k' ∈ JsObject.keys (JsObject.set k v o) ↔
  k' ∈ JsObject.keys o ∨ (k' = k ∧ k ≠ "__proto__").
Proof.
  rewrite <- !JsObject_lookup_keys, JsObject_lookup_set.
  destruct (decide (k = "__proto__")) as [->|Hproto].
  { split; [by left|]. intros [?|[_ ?]]; done. }
  destruct (decide (k' = k)) as [->|Hne].
  - split; [by right|by eexists].
  - split; [by left|]. intros [?|[? _]]; done.
Qed.

Lemma JsObject_set_NoDup k v o :
  NoDup (JsObject.keys o) → NoDup (JsObject.keys (JsObject.set k v o)).
Proof.
  intros Hnd.
  destruct (decide (k = "__proto__")) as [Hproto|Hproto].
  { by rewrite JsObject_keys_set_old by auto. }
  destruct (decide (k ∈ JsObject.keys o)) as [Hk|Hk].
  { by rewrite JsObject_keys_set_old by auto. }
  rewrite JsObject_keys_set_new by done. by constructor.
Qed.

Lemma JsObject_set_length k v o :
  length (JsObject.set k v o) =
  if decide (k = "__proto__" ∨ k ∈ JsObject.keys o)
  then length o else S (length o).
Proof.
  assert (∀ o' : JsObject.t A, length o' = length (JsObject.keys o')) as Hlen
    by (intros; unfold JsObject.keys; by rewrite length_fmap).
  rewrite !Hlen. case_decide as Hk.
  - by rewrite JsObject_keys_set_old.
  - rewrite JsObject_keys_set_new; [done|tauto..].
Qed.

(** A new key that is neither [__proto__] nor an array index goes to
    the end. *)
Lemma JsObject_set_ordinary k v o :
  k ≠ "__proto__" → JsObject.arrayIndex k = None → k ∉ JsObject.keys o →
  JsObject.set k v o = o ++ [(k, v)].
Proof.
  intros Hproto Hidx Hk. unfold JsObject.set. rewrite decide_False by done.
  apply JsObject_lookup_None in Hk.
  change (JsObject.get k o) with (o !! k). by rewrite Hk, Hidx.
Qed.

End JsObjectFacts.

(** ** Replaying the assignments of a trace *)

Lemma replayOn_cons o k v entries :
  replayOn o ((k, v) :: entries) = replayOn (JsObject.set k v o) entries.
Proof. reflexivity. Qed.

Lemma replayOn_app o entries1 entries2 :
  replayOn o (entries1 ++ entries2) = replayOn (replayOn o entries1) entries2.
Proof. unfold replayOn. apply foldl_app. Qed.

Lemma replayOn_NoDup entries : ∀ o,
  NoDup (JsObject.keys o) → NoDup (JsObject.keys (replayOn o entries)).
Proof.
  induction entries as [|[k v] entries IH]; intros o Hnd; [done|].
  rewrite replayOn_cons. by apply IH, JsObject_set_NoDup.
Qed.

Lemma replayOn_elem_of_keys entries : ∀ (o : JsObject.t string) k,
  k ∈ JsObject.keys (replayOn o entries) ↔
  k ∈ JsObject.keys o ∨ (k ∈ entries.*1 ∧ k ≠ "__proto__").
Proof.
  induction entries as [|[k' v'] entries IH]; intros o k.
  - split; [by left|]. intros [?|[?%not_elem_of_nil _]]; done.
  - rewrite replayOn_cons, IH, JsObject_elem_of_keys_set, fmap_cons, elem_of_cons.
    cbn [fst]. split.
    + intros [[?|[-> ?]]|[? ?]]; auto.
    + intros [?|[[->|?] ?]]; auto.
Qed.

(** A key that is not assigned keeps its value, and [__proto__] is
    never an entry. *)
Lemma replayOn_lookup_other entries : ∀ o k,
  k = "__proto__" ∨ k ∉ entries.*1 → replayOn o entries !! k = o !! k.
Proof.
  induction entries as [|[k' v'] entries IH]; intros o k Hk; [done|].
  rewrite replayOn_cons, IH.
  - rewrite JsObject_lookup_set. case_decide; [done|].
    case_decide; [|done]. subst k'. destruct Hk as [?|Hk]; [done|].
    destruct Hk. rewrite fmap_cons. apply list_elem_of_here.
  - destruct Hk as [?|Hk]; [by left|right].
    rewrite fmap_cons in Hk. by apply not_elem_of_cons in Hk as [_ ?].
Qed.

(** The last assignment to a key gives its value. *)
Lemma replayOn_lookup_last entries1 entries2 o k v :
  k ≠ "__proto__" → k ∉ entries2.*1 →
  replayOn o (entries1 ++ (k, v) :: entries2) !! k = Some v.
Proof.
  intros Hproto Hk. rewrite replayOn_app, replayOn_cons.
  rewrite replayOn_lookup_other by auto. by apply JsObject_lookup_set_eq.
Qed.

(** Every entry comes from the object or from an assignment. *)
Lemma replayOn_lookup_elem entries : ∀ o k v,
  replayOn o entries !! k = Some v → o !! k = Some v ∨ (k, v) ∈ entries.
Proof.
  induction entries as [|[k' v'] entries IH]; intros o k v Hk; [by left|].
  rewrite replayOn_cons in Hk. destruct (IH _ _ _ Hk) as [Hset|?].
  - rewrite JsObject_lookup_set in Hset. case_decide; [by left|].
    case_decide; [|by left]. injection Hset as ->. subst k'.
    right. apply list_elem_of_here.
  - right. by apply list_elem_of_further.
Qed.

Lemma replayOn_length entries : ∀ o : JsObject.t string,
  length (replayOn o entries) ≤ length o + length entries.
Proof.
  induction entries as [|[k v] entries IH]; intros o; [cbn; lia|].
  rewrite replayOn_cons. pose proof (IH (JsObject.set k v o)) as Hle.
  rewrite JsObject_set_length in Hle. cbn [length]. case_decide; lia.
Qed.

(** Assignments to distinct keys that are neither [__proto__] nor array
    indices are listed as they were made. *)
Lemma replayOn_ordinary (entries : list (string * string)) : ∀ o,
  NoDup ((o ++ entries).*1) →
  (∀ k, k ∈ entries.*1 → k ≠ "__proto__" ∧ JsObject.arrayIndex k = None) →
  replayOn o entries = o ++ entries.
Proof.
  induction entries as [|[k c] entries IH]; intros o Hnd Hord.
  - by rewrite app_nil_r.
  - rewrite replayOn_cons.
    replace (o ++ (k, c) :: entries) with ((o ++ [(k, c)]) ++ entries) in *
      by (by rewrite <- app_assoc).
    destruct (Hord k) as [Hproto Hidx]; [rewrite fmap_cons; apply list_elem_of_here|].
    rewrite JsObject_set_ordinary; [| done | done |].
    + apply IH; [done|]. intros k' Hk'. apply Hord. rewrite fmap_cons.
      by apply list_elem_of_further.
    + rewrite !fmap_app in Hnd. apply NoDup_app in Hnd as [Hnd _].
      apply NoDup_app in Hnd as (_ & Hnd & _).
      intros Hin. apply (Hnd k Hin). simpl. apply list_elem_of_here.
Qed.

Lemma replay_ordinary tr :
  NoDup (recordEntries tr).*1 →
  (∀ k, k ∈ (recordEntries tr).*1 → k ≠ "__proto__" ∧ JsObject.arrayIndex k = None) →
  replay tr = recordEntries tr.
Proof. intros. unfold replay. by rewrite replayOn_ordinary. Qed.

Lemma countEv_app f tr1 tr2 : countEv f (tr1 ++ tr2) = countEv f tr1 + countEv f tr2.
Proof. unfold countEv. by rewrite filter_app, length_app. Qed.

Lemma countEv_single f e : countEv f [e] = if f e then 1 else 0.
Proof.
  unfold countEv. rewrite filter_cons, filter_nil.
  destruct (f e); reflexivity.
Qed.

Lemma countEv_cons f e tr :
  countEv f (e :: tr) = (if f e then 1 else 0) + countEv f tr.
Proof. change (e :: tr) with ([e] ++ tr). by rewrite countEv_app, countEv_single. Qed.

Lemma countEv_snoc f tr e :
  countEv f (tr ++ [e]) = countEv f tr + (if f e then 1 else 0).
Proof. by rewrite countEv_app, countEv_single. Qed.

Lemma recordEntries_snoc tr e :
  recordEntries (tr ++ [e]) = recordEntries tr ++ option_list (recordEntry e).
Proof.
  unfold recordEntries. rewrite omap_app. f_equal.
Qed.

Lemma recordEntries_app tr1 tr2 :
  recordEntries (tr1 ++ tr2) = recordEntries tr1 ++ recordEntries tr2.
Proof. unfold recordEntries. apply omap_app. Qed.

Lemma recordEntries_elem tr k v :
  (k, v) ∈ recordEntries tr ↔ ∃ q, EvRecord q k v ∈ tr.
Proof.
  unfold recordEntries. rewrite list_elem_of_omap. split.
  - intros ([] & Hin & Heq); simplify_eq/=. eauto.
  - intros [q Hq]. by exists (EvRecord q k v).
Qed.

Lemma replay_snoc tr e :
  replay (tr ++ [e]) =
  match recordEntry e with
  | Some kc => JsObject.set kc.1 kc.2 (replay tr)
  | None => replay tr
  end.
Proof.
  unfold replay, replayOn. rewrite recordEntries_snoc, foldl_app.
  by destruct (recordEntry e).
Qed.

(** * Facts about the resolver *)

Section ResolverFacts.

Variable cfg : Config.
Variable fs : FileSystem.

Local Abbreviation findImp := (findImports cfg fs).
Local Abbreviation fullPath := (findImports_fullPath cfg).
Local Abbreviation childPath := (importFilePath cfg).
Local Abbreviation childKey := (importSourceKey cfg).
Local Abbreviation procFile := (processFile cfg fs).
Local Abbreviation procImports := (processImports cfg fs).
Local Abbreviation scanImports := ImportScan.scanImports.
Local Abbreviation Exec := (Exec cfg fs).
Local Abbreviation ExecLoop := (ExecLoop cfg fs).
Local Abbreviation Exec_ExecLoop_ind := (Exec_ExecLoop_ind cfg fs).
Local Abbreviation consistent := (consistent fs).
Local Abbreviation importHandled := (importHandled cfg fs).
Local Abbreviation importsHandled := (importsHandled cfg fs).
Local Abbreviation closedExcept := (closedExcept cfg fs).
Local Abbreviation Reachable := (Reachable cfg fs).
Local Abbreviation candidates := (candidates cfg fs).
Local Abbreviation pending := (pending cfg).
Local Abbreviation importReads := (importReads cfg).
Local Abbreviation expectedReads := (expectedReads cfg).
Local Abbreviation derivedIn := (derivedIn cfg fs).
Local Abbreviation justified := (justified cfg fs).
Local Abbreviation justifiedTrace := (justifiedTrace cfg fs).
Local Abbreviation answered := (answered fs).

(** ** The runs of [processFile], as a relation *)

Lemma processImports_ExecLoop rec filePath imports :
  (∀ st source p k st', rec st source p k = Some st' → Exec st source p k st') →
  ∀ st st', procImports rec filePath imports st = Some st' →
    ExecLoop filePath imports st st'.
Proof.
  intros Hrec. induction imports as [|imp rest IH]; simpl; intros st st' H.
  - inversion H; subst. constructor.
  - destruct (findImp imp (Some filePath)) as [contents|e] eqn:Hf.
    + destruct (rec _ _ _ _) as [st2|] eqn:Hr; [|done].
      eapply ExecLoop_import; eauto.
    + eapply ExecLoop_missing; eauto.
Qed.

Lemma processFile_Exec fuel :
  ∀ st source p k st',
    procFile fuel st source p k = Some st' → Exec st source p k st'.
Proof.
  induction fuel as [|fuel IH]; simpl; intros st source p k st' H; [done|].
  destruct (decide (p ∈ processedPaths st)).
  - inversion H; subst. by apply Exec_seen.
  - apply Exec_new; [done|]. by eapply processImports_ExecLoop.
Qed.

(** A run has one outcome. *)
Lemma Exec_ExecLoop_deterministic :
  (∀ st source p k st1, Exec st source p k st1 →
     ∀ st2, Exec st source p k st2 → st1 = st2) ∧
  (∀ p imports st st1, ExecLoop p imports st st1 →
     ∀ st2, ExecLoop p imports st st2 → st1 = st2).
Proof.
  apply Exec_ExecLoop_ind.
  - intros st source p k Hin st2 H2. inversion H2; subst; [done|contradiction].
  - intros st source p k st' Hnin Hloop IH st2 H2.
    inversion H2; subst; [contradiction|]. by apply IH.
  - intros p st st2 H2. by inversion H2.
  - intros p imp rest st contents st2 st3 Hf Hex IHex Hloop IHloop st4 H4.
    inversion H4 as [|? ? ? ? c' s2' ? Hf' Hex' Hloop'|]; subst; [|congruence].
    assert (c' = contents) as -> by congruence.
    assert (s2' = st2) as -> by (symmetry; by apply IHex).
    by apply IHloop.
  - intros p imp rest st e st3 Hf Hloop IHloop st4 H4.
    inversion H4; subst; [congruence|]. by apply IHloop.
Qed.

Lemma processFile_deterministic fuel1 fuel2 st source p k st1 st2 :
  procFile fuel1 st source p k = Some st1 →
  procFile fuel2 st source p k = Some st2 →
  st1 = st2.
Proof.
  intros H1%processFile_Exec H2%processFile_Exec.
  by eapply (proj1 Exec_ExecLoop_deterministic).
Qed.

(** ** Properties kept by every step *)

Lemma isQuiet_not_record e : isQuiet e = true → isRecord e = false.
Proof. by destruct e. Qed.

Section Preservation.
Variable I : RState → Prop.
Hypothesis I_emit : ∀ st e, isQuiet e = true → I st → I (emit e st).
Hypothesis I_record : ∀ st source p k,
  p ∉ processedPaths st → I st → I (record source p k st).

Lemma Exec_ExecLoop_preserve :
  (∀ st source p k st', Exec st source p k st' → I st → I st') ∧
  (∀ p imports st st', ExecLoop p imports st st' → I st → I st').
Proof.
  apply Exec_ExecLoop_ind; unfold warn; eauto 10.
Qed.

Lemma Exec_preserve st source p k st' :
  Exec st source p k st' → I st → I st'.
Proof. apply Exec_ExecLoop_preserve. Qed.

Lemma ExecLoop_preserve p imports st st' :
  ExecLoop p imports st st' → I st → I st'.
Proof. apply Exec_ExecLoop_preserve. Qed.
End Preservation.

Lemma Exec_visited_mono st source p k st' :
  Exec st source p k st' → processedPaths st ⊆ processedPaths st'.
Proof.
  intros H.
  apply (Exec_preserve (λ s, processedPaths st ⊆ processedPaths s)) in H;
    [done| |..|done]; intros; simpl; set_solver.
Qed.

Lemma ExecLoop_visited_mono p imports st st' :
  ExecLoop p imports st st' → processedPaths st ⊆ processedPaths st'.
Proof.
  intros H.
  apply (ExecLoop_preserve (λ s, processedPaths st ⊆ processedPaths s)) in H;
    [done| |..|done]; intros; simpl; set_solver.
Qed.

(** ** Paths *)

Lemma resolve_nonempty cwd args : Path.resolve cwd args ≠ "".
Proof.
  unfold Path.resolve.
  destruct (Path.resolve_go _ _) as [rp abs].
  destruct abs; [discriminate|].
  case_decide; [discriminate|done].
Qed.

Lemma importFilePath_nonempty p imp : childPath p imp ≠ "".
Proof.
  unfold importFilePath, pathResolve.
  repeat case_match; apply resolve_nonempty.
Qed.

(** Below the root call, [processFile] handles a file under the very
    path [findImp] has read. *)
Lemma importFilePath_fullPath p imp :
  p ≠ "" → childPath p imp = fullPath imp (Some p).
Proof.
  intros Hp. unfold importFilePath, findImports_fullPath.
  destruct p; [done|]. reflexivity.
Qed.

Lemma findImports_Ok imp base contents :
  findImp imp base = Ok contents ↔ fs !! fullPath imp base = Some contents.
Proof.
  unfold findImports.
  destruct (fs !! _); split; intros; simplify_eq; done.
Qed.

(** ** Termination *)

Section Totality.
Variable C : gset string.
Variable ok : string → string → Prop.
Hypothesis closed : ∀ p source imp contents,
  ok p source → imp ∈ scanImports source →
  findImp imp (Some p) = Ok contents →
  childPath p imp ∈ C ∧ ok (childPath p imp) contents.

Lemma processImports_total fuel p source :
  (∀ st source' p' k,
     ok p' source' → p' ∈ C → size (C ∖ processedPaths st) < fuel →
     is_Some (procFile fuel st source' p' k)) →
  ok p source →
  ∀ imports st,
    imports ⊆ scanImports source →
    size (C ∖ processedPaths st) < fuel →
    is_Some (procImports (procFile fuel) p imports st).
Proof.
  intros IH Hok. induction imports as [|imp rest IHl]; intros st Hsub Hsize.
  - by eexists.
  - simpl.
    destruct (findImp imp (Some p)) as [contents|e] eqn:Hf.
    + destruct (closed p source imp contents) as [HC Hok']; [done|set_solver|done|].
      destruct (IH (emit (EvRead (fullPath imp (Some p))) st) contents
                  (childPath p imp) (childKey p imp))
        as [st2 Hst2]; [done..|].
      rewrite Hst2. apply IHl; [set_solver|].
      apply processFile_Exec, Exec_visited_mono in Hst2. simpl in Hst2.
      eapply Nat.le_lt_trans; [|exact Hsize].
      apply subseteq_size. set_solver.
    + apply IHl; [set_solver|done].
Qed.

Lemma processFile_total fuel :
  ∀ st source p k,
    ok p source → p ∈ C → size (C ∖ processedPaths st) < fuel →
    is_Some (procFile fuel st source p k).
Proof.
  induction fuel as [|fuel IH]; intros st source p k Hok HC Hsize; [lia|].
  simpl. destruct (decide (p ∈ processedPaths st)); [by eexists|].
  eapply processImports_total; [done..|].
  simpl.
  assert (C ∖ ({[p]} ∪ processedPaths st) ⊂ C ∖ processedPaths st) as Hlt.
  { split; [set_solver|]. intros Hsub.
    assert (p ∈ C ∖ ({[p]} ∪ processedPaths st)) by set_solver. set_solver. }
  apply subset_size in Hlt. lia.
Qed.
End Totality.

Lemma size_union_le (X Y : gset string) : size (X ∪ Y) ≤ size X + size Y.
Proof.
  rewrite size_union_alt.
  assert (size (Y ∖ X) ≤ size Y) by (apply subseteq_size; set_solver). lia.
Qed.

Lemma size_list_to_set_le (l : list string) :
  size (list_to_set l : gset string) ≤ length l.
Proof.
  induction l as [|x l IH].
  - rewrite list_to_set_nil, size_empty. simpl. lia.
  - rewrite list_to_set_cons. etrans; [apply size_union_le|].
    rewrite size_singleton. simpl. lia.
Qed.

Lemma size_candidates contractSource contractPath :
  size (candidates contractSource contractPath) < fuelBound fs contractSource.
Proof.
  unfold candidates, fuelBound.
  pose proof (size_union_le ({[contractPath]} ∪ dom fs)
    (list_to_set (childPath contractPath <$> scanImports contractSource))).
  pose proof (size_union_le {[contractPath]} (dom fs)).
  pose proof (size_list_to_set_le
    (childPath contractPath <$> scanImports contractSource)).
  rewrite length_fmap in *. rewrite size_singleton in *. lia.
Qed.

Lemma resolveAllImports_fuel_enough contractSource contractPath fuel :
  fuelBound fs contractSource ≤ fuel →
  is_Some (resolveAllImports_fuel cfg fs fuel contractSource contractPath).
Proof.
  intros Hfuel. unfold resolveAllImports_fuel.
  apply (processFile_total (candidates contractSource contractPath)
           (λ p source, p ≠ "" ∨ (p = contractPath ∧ source = contractSource))).
  - intros p source imp contents Hok Himp Hf. split.
    + destruct (decide (p = "")) as [->|Hne].
      * destruct Hok as [?|[<- ->]]; [done|].
        unfold candidates. apply elem_of_union_r, elem_of_list_to_set.
        by apply list_elem_of_fmap_2.
      * rewrite importFilePath_fullPath by done.
        apply findImports_Ok in Hf.
        unfold candidates. apply elem_of_union_l, elem_of_union_r.
        apply elem_of_dom. by eexists.
    + left. apply importFilePath_nonempty.
  - by right.
  - unfold candidates. set_solver.
  - pose proof (size_candidates contractSource contractPath).
    assert (size (candidates contractSource contractPath ∖
                  processedPaths initialState)
            ≤ size (candidates contractSource contractPath))
      by (apply subseteq_size; set_solver).
    lia.
Qed.

(** The total function agrees with every run that has enough fuel. *)
Lemma resolveAllImports_fuel_spec contractSource contractPath fuel :
  fuelBound fs contractSource ≤ fuel →
  resolveAllImports_fuel cfg fs fuel contractSource contractPath
  = Some (resolveAllImports cfg fs contractSource contractPath).
Proof.
  intros Hfuel.
  destruct (resolveAllImports_fuel_enough contractSource contractPath fuel Hfuel)
    as [r Hr].
  destruct (resolveAllImports_fuel_enough contractSource contractPath
              (fuelBound fs contractSource)) as [r0 Hr0]; [done|].
  unfold resolveAllImports. rewrite Hr, Hr0. simpl. f_equal.
  unfold resolveAllImports_fuel in *.
  by eapply processFile_deterministic.
Qed.

Lemma resolveAllImports_Exec contractSource contractPath :
  Exec initialState contractSource contractPath
    (Path.basename contractPath ".sol")
    (resolveAllImports cfg fs contractSource contractPath).
Proof.
  eapply processFile_Exec.
  apply (resolveAllImports_fuel_spec contractSource contractPath
           (fuelBound fs contractSource)). done.
Qed.

(** ** What the table and the trace always satisfy *)

Lemma Inv_initial : Inv initialState.
Proof.
  split; simpl.
  - done.
  - apply NoDup_nil_2.
  - intros q. split; [set_solver|]. intros (k & c & H). by apply elem_of_nil in H.
  - intros q k c k' c' H. by apply elem_of_nil in H.
  - intros q. rewrite decide_False by set_solver. done.
Qed.

Lemma Inv_emit st e : isRecord e = false → Inv st → Inv (emit e st).
Proof.
  intros He [Hs Hk Hv Hu Hc]. split; simpl.
  - rewrite replay_snoc, Hs. by destruct e.
  - done.
  - intros q. rewrite Hv. split; intros (k & c & H); exists k, c.
    + apply elem_of_app. by left.
    + apply elem_of_app in H as [H|H]; [done|].
      apply list_elem_of_singleton in H. by subst e.
  - intros q k c k' c' H1 H2.
    apply elem_of_app in H1 as [H1|H1];
      [|apply list_elem_of_singleton in H1; by subst e].
    apply elem_of_app in H2 as [H2|H2];
      [|apply list_elem_of_singleton in H2; by subst e].
    eauto.
  - intros q. unfold recordCount. rewrite countEv_snoc.
    fold (recordCount q (rtrace st)). rewrite Hc.
    destruct e; simpl in *; try discriminate; lia.
Qed.

Lemma Inv_record st source p k :
  p ∉ processedPaths st → Inv st → Inv (record source p k st).
Proof.
  intros Hp [Hs Hk Hv Hu Hc]. split; simpl.
  - rewrite replay_snoc, Hs. done.
  - by apply JsObject_set_NoDup.
  - intros q. rewrite elem_of_union, elem_of_singleton, Hv.
    split.
    + intros [->|(k' & c & H)].
      * exists k, source. apply elem_of_app. right. apply list_elem_of_here.
      * exists k', c. apply elem_of_app. by left.
    + intros (k' & c & H). apply elem_of_app in H as [H|H].
      * right. eauto.
      * apply list_elem_of_singleton in H. left. congruence.
  - intros q k1 c1 k2 c2 H1 H2.
    apply elem_of_app in H1 as [H1|H1]; apply elem_of_app in H2 as [H2|H2].
    + eauto.
    + apply list_elem_of_singleton in H2. simplify_eq.
      destruct Hp. apply Hv. eauto.
    + apply list_elem_of_singleton in H1. simplify_eq.
      destruct Hp. apply Hv. eauto.
    + apply list_elem_of_singleton in H1. apply list_elem_of_singleton in H2.
      by simplify_eq.
  - intros q. unfold recordCount. rewrite countEv_snoc.
    fold (recordCount q (rtrace st)). rewrite Hc. simpl.
    destruct (decide (q = p)) as [->|Hne].
    + rewrite bool_decide_eq_true_2 by done.
      rewrite decide_False by done. rewrite decide_True by set_solver. done.
    + rewrite bool_decide_eq_false_2 by done.
      destruct (decide (q ∈ processedPaths st)).
      * rewrite decide_True by set_solver. lia.
      * rewrite decide_False by set_solver. lia.
Qed.

Lemma Exec_Inv st source p k st' : Exec st source p k st' → Inv st → Inv st'.
Proof.
  apply Exec_preserve; auto using Inv_emit, Inv_record, isQuiet_not_record.
Qed.

Lemma resolveAllImports_Inv contractSource contractPath :
  Inv (resolveAllImports cfg fs contractSource contractPath).
Proof.
  eapply Exec_Inv; [apply resolveAllImports_Exec|apply Inv_initial].
Qed.

Lemma Exec_trace_mono st source p k st' e :
  Exec st source p k st' → e ∈ rtrace st → e ∈ rtrace st'.
Proof.
  intros H He. revert He.
  eapply (Exec_preserve (λ s, e ∈ rtrace st → e ∈ rtrace s)); eauto;
    intros; simpl; apply elem_of_app; auto.
Qed.

Lemma ExecLoop_trace_mono p imports st st' e :
  ExecLoop p imports st st' → e ∈ rtrace st → e ∈ rtrace st'.
Proof.
  intros H He. revert He.
  eapply (ExecLoop_preserve (λ s, e ∈ rtrace st → e ∈ rtrace s)); eauto;
    intros; simpl; apply elem_of_app; auto.
Qed.

Lemma ExecLoop_Inv p imports st st' : ExecLoop p imports st st' → Inv st → Inv st'.
Proof.
  apply ExecLoop_preserve; auto using Inv_emit, Inv_record, isQuiet_not_record.
Qed.

(** The resolver does not call the compiler. *)
Lemma resolveAllImports_no_compile contractSource contractPath :
  compileCount (rtrace (resolveAllImports cfg fs contractSource contractPath)) = 0.
Proof.
  eapply (Exec_preserve (λ s, compileCount (rtrace s) = 0));
    [| |apply resolveAllImports_Exec|done].
  - intros st e He H. simpl. unfold compileCount in *.
    rewrite countEv_snoc, H. by destruct e.
  - intros st source p k _ H. simpl. unfold compileCount in *.
    by rewrite countEv_snoc, H.
Qed.

(** ** Every file is handled under its own path and content *)

Lemma consistent_emit st e :
  isRecord e = false → consistent st → consistent (emit e st).
Proof.
  intros He H q k c [Hin|Hin]%elem_of_app; [eauto|].
  apply list_elem_of_singleton in Hin. by subst e.
Qed.

Lemma Exec_ExecLoop_consistent :
  (∀ st source p k st', Exec st source p k st' →
     fs !! p = Some source → p ≠ "" → consistent st → consistent st') ∧
  (∀ p imports st st', ExecLoop p imports st st' →
     p ≠ "" → consistent st → consistent st').
Proof.
  apply Exec_ExecLoop_ind.
  - done.
  - intros st source p k st' Hnin Hloop IH Hfs Hp Hc. apply IH; [done|].
    intros q k' c [Hin|Hin]%elem_of_app; [eauto|].
    apply list_elem_of_singleton in Hin. by simplify_eq.
  - done.
  - intros p imp rest st contents st2 st3 Hf Hex IHex Hloop IHloop Hp Hc.
    apply IHloop; [done|]. apply IHex.
    + rewrite importFilePath_fullPath by done. by apply findImports_Ok.
    + apply importFilePath_nonempty.
    + by apply consistent_emit.
  - intros p imp rest st e st3 Hf Hloop IHloop Hp Hc.
    apply IHloop; [done|]. unfold warn. repeat (apply consistent_emit; [reflexivity|]). done.
Qed.

(** ** The traversal deals with every import of every file it handles *)

Lemma importHandled_mono q imp st st' :
  processedPaths st ⊆ processedPaths st' →
  (∀ e, e ∈ rtrace st → e ∈ rtrace st') →
  importHandled q imp st → importHandled q imp st'.
Proof. unfold importHandled. destruct (findImp imp (Some q)); set_solver. Qed.

Lemma importHandled_Exec q imp st source p k st' :
  Exec st source p k st' → importHandled q imp st → importHandled q imp st'.
Proof.
  intros H. apply importHandled_mono.
  - by eapply Exec_visited_mono.
  - intros e. by eapply Exec_trace_mono.
Qed.

Lemma importHandled_ExecLoop q imp p imports st st' :
  ExecLoop p imports st st' → importHandled q imp st → importHandled q imp st'.
Proof.
  intros H. apply importHandled_mono.
  - by eapply ExecLoop_visited_mono.
  - intros e. by eapply ExecLoop_trace_mono.
Qed.

Lemma importHandled_emit q imp st e :
  importHandled q imp st → importHandled q imp (emit e st).
Proof.
  apply importHandled_mono; [done|]. intros e' ?. simpl.
  apply elem_of_app. by left.
Qed.

Lemma closedExcept_emit G st e :
  isRecord e = false → closedExcept G st → closedExcept G (emit e st).
Proof.
  intros He H q k c [Hin|Hin]%elem_of_app.
  - destruct (H q k c Hin) as [?|Hh]; [by left|right].
    intros imp Himp. by apply importHandled_emit, Hh.
  - apply list_elem_of_singleton in Hin. by subst e.
Qed.

Lemma Exec_ExecLoop_closed :
  (∀ st source p k st', Exec st source p k st' →
     ∀ G, Inv st → closedExcept G st →
       closedExcept G st' ∧ p ∈ processedPaths st') ∧
  (∀ p imports st st', ExecLoop p imports st st' →
     ∀ G, Inv st → closedExcept G st →
       closedExcept G st' ∧
       ∀ imp, imp ∈ imports → importHandled p imp st').
Proof.
  apply Exec_ExecLoop_ind.
  - done.
  - intros st source p k st' Hnin Hloop IH G HI Hcl.
    pose proof (Inv_record st source p k Hnin HI) as HI1.
    pose proof (ExecLoop_Inv _ _ _ _ Hloop HI1) as HI'.
    destruct (IH (G ∪ {[p]}) HI1) as [Hcl' Hkids].
    { intros q k' c [Hin|Hin]%elem_of_app.
      - destruct (Hcl q k' c Hin) as [?|Hv]; [left; set_solver|right].
        intros imp Himp. eapply importHandled_mono; [| |by apply Hv].
        + simpl. set_solver.
        + intros e ?. simpl. apply elem_of_app. by left.
      - apply list_elem_of_singleton in Hin. simplify_eq. left. set_solver. }
    assert (EvRecord p k source ∈ rtrace st') as Hrec.
    { eapply ExecLoop_trace_mono; [done|]. simpl.
      apply elem_of_app. right. apply list_elem_of_here. }
    split.
    + intros q k' c Hin. destruct (Hcl' q k' c Hin) as [HG|Hv]; [|by right].
      apply elem_of_union in HG as [?| ->%elem_of_singleton]; [by left|].
      right. destruct (inv_unique _ HI' _ _ _ _ _ Hin Hrec) as [-> ->].
      intros imp ?. eauto.
    + apply (ExecLoop_visited_mono _ _ _ _ Hloop). simpl. set_solver.
  - intros p st G HI Hcl. split; [done|]. intros imp Hin.
    by apply elem_of_nil in Hin.
  - intros p imp rest st contents st2 st3 Hf Hex IHex Hloop IHloop G HI Hcl.
    pose proof (Inv_emit st (EvRead (fullPath imp (Some p))) eq_refl HI) as HI1.
    destruct (IHex G HI1) as [Hcl2 Hchild]; [by apply closedExcept_emit|].
    pose proof (Exec_Inv _ _ _ _ _ Hex HI1) as HI2.
    destruct (IHloop G HI2 Hcl2) as [Hcl3 Hrest].
    split; [done|].
    intros imp' [->|Hin]%elem_of_cons; [|eauto].
    eapply importHandled_ExecLoop; [done|].
    unfold importHandled. by rewrite Hf.
  - intros p imp rest st e st3 Hf Hloop IHloop G HI Hcl.
    destruct (IHloop G) as [Hcl3 Hrest].
    { unfold warn. repeat (apply Inv_emit; [reflexivity|]). done. }
    { unfold warn. repeat (apply closedExcept_emit; [reflexivity|]). done. }
    split; [done|].
    intros imp' [->|Hin]%elem_of_cons; [|eauto].
    eapply importHandled_ExecLoop; [done|].
    unfold importHandled. rewrite Hf. simpl.
    apply elem_of_app. right. apply list_elem_of_here.
Qed.

Lemma Exec_ExecLoop_sound root :
  (∀ st source p k st', Exec st source p k st' →
     Reachable root p → fs !! p = Some source → p ≠ "" →
     (∀ q, q ∈ processedPaths st → Reachable root q) →
     ∀ q, q ∈ processedPaths st' → Reachable root q) ∧
  (∀ p imports st st', ExecLoop p imports st st' →
     ∀ source, Reachable root p → fs !! p = Some source → p ≠ "" →
     imports ⊆ scanImports source →
     (∀ q, q ∈ processedPaths st → Reachable root q) →
     ∀ q, q ∈ processedPaths st' → Reachable root q).
Proof.
  apply Exec_ExecLoop_ind.
  - done.
  - intros st source p k st' Hnin Hloop IH Hr Hfs Hp Hv.
    apply (IH source); [done..|].
    intros q [->%elem_of_singleton|?]%elem_of_union; eauto.
  - done.
  - intros p imp rest st contents st2 st3 Hf Hex IHex Hloop IHloop
      source Hr Hfs Hp Hsub Hv.
    apply (IHloop source); [done..|set_solver|].
    assert (fs !! fullPath imp (Some p) = Some contents) as Hc
      by (by apply findImports_Ok).
    apply IHex; [| | |done].
    + rewrite importFilePath_fullPath by done.
      eapply Reachable_import; [done..|set_solver|by eexists].
    + by rewrite importFilePath_fullPath.
    + apply importFilePath_nonempty.
  - intros p imp rest st e st3 Hf Hloop IHloop source Hr Hfs Hp Hsub Hv.
    apply (IHloop source); [done..|set_solver|done].
Qed.

Lemma Reachable_step root parent source imp q :
  Reachable root parent → fs !! parent = Some source →
  imp ∈ scanImports source → fullPath imp (Some parent) = q →
  is_Some (fs !! q) → Reachable root q.
Proof. intros ? ? ? <- ?. by eapply Reachable_import. Qed.

Section Coverage.
Variables (contractSource contractPath : string).
Hypothesis root_file : fs !! contractPath = Some contractSource.
Hypothesis root_nonempty : contractPath ≠ "".

Local Abbreviation final := (resolveAllImports cfg fs contractSource contractPath).

Lemma resolveAllImports_consistent : consistent final.
Proof.
  eapply (proj1 Exec_ExecLoop_consistent); [apply resolveAllImports_Exec|done..|].
  intros q k c H. by apply elem_of_nil in H.
Qed.

Lemma resolveAllImports_closed :
  closedExcept ∅ final ∧ contractPath ∈ processedPaths final.
Proof.
  eapply (proj1 Exec_ExecLoop_closed);
    [apply resolveAllImports_Exec|apply Inv_initial|].
  intros q k c H. by apply elem_of_nil in H.
Qed.

(** The files handled are exactly the transitively imported ones. *)
Lemma resolveAllImports_visited q :
  q ∈ processedPaths final ↔ Reachable contractPath q.
Proof.
  split.
  - eapply (proj1 (Exec_ExecLoop_sound contractPath));
      [apply resolveAllImports_Exec|constructor|done..|set_solver].
  - destruct resolveAllImports_closed as [Hcl Hroot].
    pose proof resolveAllImports_consistent as Hcons.
    pose proof (resolveAllImports_Inv contractSource contractPath) as HI.
    induction 1 as [|parent source imp Hr IH Hfs Himp [contents Hc]]; [done|].
    apply (inv_visited _ HI) in IH as (k & c & Hrec).
    destruct (Hcons _ _ _ Hrec) as [Hfs' Hne].
    assert (c = source) as -> by congruence.
    destruct (Hcl _ _ _ Hrec) as [?|Hv]; [set_solver|].
    rewrite <- importFilePath_fullPath by done.
    specialize (Hv imp Himp). unfold importHandled in Hv.
    apply findImports_Ok in Hc. by rewrite Hc in Hv.
Qed.

(** Each of them is recorded once, with its content. *)
Lemma resolveAllImports_recorded q content :
  Reachable contractPath q → fs !! q = Some content →
  recordCount q (rtrace final) = 1 ∧
  ∃ k, EvRecord q k content ∈ rtrace final.
Proof.
  intros Hr Hfs. apply resolveAllImports_visited in Hr.
  pose proof (resolveAllImports_Inv contractSource contractPath) as HI.
  split.
  - rewrite (inv_count _ HI). by rewrite decide_True.
  - apply (inv_visited _ HI) in Hr as (k & c & Hrec).
    destruct (resolveAllImports_consistent _ _ _ Hrec) as [Hfs' _].
    exists k. congruence.
Qed.

(** An import of one of them that cannot be read is reported. *)
Lemma resolveAllImports_warned q source imp :
  Reachable contractPath q → fs !! q = Some source →
  imp ∈ scanImports source →
  fs !! fullPath imp (Some q) = None →
  EvWarn imp q (importNotFoundMessage imp (Some q)) ∈ rtrace final.
Proof.
  intros Hr Hfs Himp Hnone. apply resolveAllImports_visited in Hr.
  pose proof (resolveAllImports_Inv contractSource contractPath) as HI.
  apply (inv_visited _ HI) in Hr as (k & c & Hrec).
  destruct (resolveAllImports_consistent _ _ _ Hrec) as [Hfs' _].
  assert (c = source) as -> by congruence.
  destruct (proj1 resolveAllImports_closed _ _ _ Hrec) as [?|Hh]; [set_solver|].
  specialize (Hh imp Himp). unfold importHandled, findImports in Hh.
  by rewrite Hnone in Hh.
Qed.
End Coverage.

(** ** How often a file is read *)

Lemma expectedReads_snoc d tr e :
  expectedReads d (tr ++ [e]) = expectedReads d tr + importReads d e.
Proof.
  unfold expectedReads. rewrite sum_list_with_app. simpl. lia.
Qed.

Lemma readCount_snoc d tr e :
  readCount d (tr ++ [e]) = readCount d tr + (if isReadOf d e then 1 else 0).
Proof. apply countEv_snoc. Qed.

Lemma pending_cons d p imp rest :
  pending d p (imp :: rest) =
  (if decide (fullPath imp (Some p) = d) then 1 else 0) + pending d p rest.
Proof. unfold pending. rewrite filter_cons. by case_decide. Qed.

Lemma Exec_ExecLoop_reads d :
  (∀ st source p k st', Exec st source p k st' →
     ∀ n, readCount d (rtrace st) + n = expectedReads d (rtrace st) →
          readCount d (rtrace st') + n = expectedReads d (rtrace st')) ∧
  (∀ p imports st st', ExecLoop p imports st st' →
     ∀ n, readCount d (rtrace st) + n + pending d p imports
            = expectedReads d (rtrace st) →
          readCount d (rtrace st') + n = expectedReads d (rtrace st')).
Proof.
  apply Exec_ExecLoop_ind.
  - done.
  - intros st source p k st' Hnin Hloop IH n Hn. apply IH. simpl.
    rewrite readCount_snoc, expectedReads_snoc. simpl. lia.
  - intros p st n Hn. unfold pending in Hn. simpl in Hn. lia.
  - intros p imp rest st contents st2 st3 Hf Hex IHex Hloop IHloop n Hn.
    apply IHloop.
    specialize (IHex (n + pending d p rest)).
    rewrite <- Nat.add_assoc. apply IHex. simpl.
    rewrite readCount_snoc, expectedReads_snoc. simpl.
    rewrite pending_cons in Hn.
    destruct (decide (fullPath imp (Some p) = d)).
    + rewrite bool_decide_eq_true_2 by done. lia.
    + rewrite bool_decide_eq_false_2 by done. lia.
  - intros p imp rest st e st3 Hf Hloop IHloop n Hn.
    apply IHloop. simpl.
    rewrite !readCount_snoc, !expectedReads_snoc. simpl.
    rewrite pending_cons in Hn.
    destruct (decide (fullPath imp (Some p) = d)).
    + rewrite bool_decide_eq_true_2 by done. lia.
    + rewrite bool_decide_eq_false_2 by done. lia.
Qed.

(** A file is read once for every import statement that names it. *)
Lemma resolveAllImports_reads contractSource contractPath d :
  readCount d (rtrace (resolveAllImports cfg fs contractSource contractPath))
  = expectedReads d (rtrace (resolveAllImports cfg fs contractSource contractPath)).
Proof.
  pose proof (proj1 (Exec_ExecLoop_reads d) _ _ _ _ _
                (resolveAllImports_Exec contractSource contractPath) 0) as H.
  simpl in H. specialize (H eq_refl). lia.
Qed.

Lemma expectedReads_two d tr e1 e2 :
  e1 ∈ tr → e2 ∈ tr → e1 ≠ e2 →
  importReads d e1 + importReads d e2 ≤ expectedReads d tr.
Proof.
  unfold expectedReads.
  pose proof (λ e l, sum_list_with_in e (importReads d) l) as Hone.
  induction tr as [|e tr IH]; intros H1 H2 Hne; [by apply elem_of_nil in H1|].
  simpl.
  apply elem_of_cons in H1 as [->|H1]; apply elem_of_cons in H2 as [->|H2].
  - done.
  - specialize (Hone _ _ H2). lia.
  - specialize (Hone _ _ H1). lia.
  - specialize (IH H1 H2 Hne). lia.
Qed.

Lemma pending_pos d p imp imports :
  imp ∈ imports → fullPath imp (Some p) = d → 1 ≤ pending d p imports.
Proof.
  intros Hin Hd. unfold pending.
  assert (imp ∈ filter (λ imp, fullPath imp (Some p) = d) imports) as H
    by (by apply list_elem_of_filter).
  destruct (filter _ imports); [by apply elem_of_nil in H|simpl; lia].
Qed.

(** ** Where the keys come from *)

Lemma derivedIn_mono tr tr' e :
  (∀ x, x ∈ tr → x ∈ tr') → derivedIn tr e → derivedIn tr' e.
Proof.
  intros Hsub (parent & kp & cp & imp & contents & ? & ? & ? & ?).
  exists parent, kp, cp, imp, contents. eauto.
Qed.

Lemma Exec_ExecLoop_keys :
  (∀ st source p k st', Exec st source p k st' →
     ∀ e, e ∈ rtrace st' → isRecord e = true →
       e ∈ rtrace st ∨ e = EvRecord p k source ∨ derivedIn (rtrace st') e) ∧
  (∀ p imports st st', ExecLoop p imports st st' →
     ∀ k source, EvRecord p k source ∈ rtrace st →
       imports ⊆ scanImports source →
       ∀ e, e ∈ rtrace st' → isRecord e = true →
         e ∈ rtrace st ∨ derivedIn (rtrace st') e).
Proof.
  apply Exec_ExecLoop_ind.
  - auto.
  - intros st source p k st' Hnin Hloop IH e He Hrec.
    destruct (IH k source) with (e := e) as [Hin|Hd]; [| |done..| |by auto].
    + simpl. apply elem_of_app. right. apply list_elem_of_here.
    + done.
    + simpl in Hin. apply elem_of_app in Hin as [?|Hin]; [by left|].
      apply list_elem_of_singleton in Hin. auto.
  - auto.
  - intros p imp rest st contents st2 st3 Hf Hex IHex Hloop IHloop
      k source Hp Hsub e He Hrec.
    assert (EvRecord p k source ∈ rtrace st2) as Hp2.
    { eapply Exec_trace_mono; [done|]. simpl. apply elem_of_app. by left. }
    destruct (IHloop k source Hp2) with (e := e) as [Hin|Hd];
      [set_solver|done..| |by auto].
    destruct (IHex e Hin Hrec) as [Hin'|[->|Hd]].
    + simpl in Hin'. apply elem_of_app in Hin' as [?|Hin']; [by left|].
      apply list_elem_of_singleton in Hin'. by subst e.
    + right. exists p, k, source, imp, contents.
      split_and!; [|set_solver|done..].
      by eapply ExecLoop_trace_mono.
    + right. eapply derivedIn_mono; [|done].
      intros x. by eapply ExecLoop_trace_mono.
  - intros p imp rest st err st3 Hf Hloop IHloop k source Hp Hsub e He Hrec.
    destruct (IHloop k source) with (e := e) as [Hin|Hd];
      [|set_solver|done..| |by auto].
    + simpl. rewrite !elem_of_app. auto.
    + simpl in Hin. rewrite !elem_of_app in Hin.
      destruct Hin as [[?|Hin]|Hin]; [by left|..];
        apply list_elem_of_singleton in Hin; by subst e.
Qed.

(** Every record of a resolution is the root's or was made for an
    import. *)
Lemma resolveAllImports_keys contractSource contractPath e :
  e ∈ rtrace (resolveAllImports cfg fs contractSource contractPath) →
  isRecord e = true →
  e = EvRecord contractPath (Path.basename contractPath ".sol") contractSource ∨
  derivedIn (rtrace (resolveAllImports cfg fs contractSource contractPath)) e.
Proof.
  intros He Hrec.
  destruct (proj1 Exec_ExecLoop_keys _ _ _ _ _
              (resolveAllImports_Exec contractSource contractPath) e He Hrec)
    as [Hin|[?|?]]; auto.
  by apply elem_of_nil in Hin.
Qed.

(** ** Two files that import each other *)

Lemma fullPath_nonempty imp base : fullPath imp base ≠ "".
Proof.
  unfold findImports_fullPath, pathResolve.
  repeat case_match; apply resolve_nonempty.
Qed.

Lemma resolveAllImports_two_cycle a b sa sb ia ib :
  fs !! a = Some sa → fs !! b = Some sb → a ≠ b → a ≠ "" →
  scanImports sa = [ia] → fullPath ia (Some a) = b →
  scanImports sb = [ib] → fullPath ib (Some b) = a →
  resolveAllImports cfg fs sa a =
    {| sources :=
         JsObject.set (childKey a ia) sb
           (JsObject.set (Path.basename a ".sol") sa []);
       processedPaths := {[b]} ∪ ({[a]} ∪ ∅);
       rtrace := [EvRecord a (Path.basename a ".sol") sa; EvRead b;
                  EvRecord b (childKey a ia) sb; EvRead a] |}.
Proof.
  intros Hfa Hfb Hab Ha Hsa Hia Hsb Hib.
  assert (b ≠ "") as Hb by (rewrite <- Hia; apply fullPath_nonempty).
  eapply (proj1 Exec_ExecLoop_deterministic); [apply resolveAllImports_Exec|].
  apply Exec_new; [set_solver|]. rewrite Hsa.
  eapply ExecLoop_import.
  { apply findImports_Ok. by rewrite Hia. }
  2:{ apply ExecLoop_done. }
  rewrite importFilePath_fullPath, Hia by done.
  apply Exec_new; [simpl; set_solver|]. rewrite Hsb.
  eapply ExecLoop_import.
  { apply findImports_Ok. by rewrite Hib. }
  2:{ apply ExecLoop_done. }
  rewrite importFilePath_fullPath, Hib by done.
  apply Exec_seen. simpl. set_solver.
Qed.

(** ** The order of the trace *)

Lemma Exec_trace_extends st source p k st' :
  Exec st source p k st' → ∃ tail, rtrace st' = rtrace st ++ tail.
Proof.
  intros H.
  apply (Exec_preserve (λ s, ∃ tail, rtrace s = rtrace st ++ tail)) in H.
  - done.
  - intros s e _ [tail Htail]. exists (tail ++ [e]). simpl.
    by rewrite Htail, <- app_assoc.
  - intros s src q key _ [tail Htail]. exists (tail ++ [EvRecord q key src]). simpl.
    by rewrite Htail, <- app_assoc.
  - exists []. by rewrite app_nil_r.
Qed.

Lemma ExecLoop_trace_extends p imports st st' :
  ExecLoop p imports st st' → ∃ tail, rtrace st' = rtrace st ++ tail.
Proof.
  intros H.
  apply (ExecLoop_preserve (λ s, ∃ tail, rtrace s = rtrace st ++ tail)) in H.
  - done.
  - intros s e _ [tail Htail]. exists (tail ++ [e]). simpl.
    by rewrite Htail, <- app_assoc.
  - intros s src q key _ [tail Htail]. exists (tail ++ [EvRecord q key src]). simpl.
    by rewrite Htail, <- app_assoc.
  - exists []. by rewrite app_nil_r.
Qed.

(** The trace of a resolution starts with the record of the root. *)
Lemma resolveAllImports_trace_head contractSource contractPath :
  ∃ tail,
    rtrace (resolveAllImports cfg fs contractSource contractPath)
    = EvRecord contractPath (Path.basename contractPath ".sol") contractSource :: tail.
Proof.
  pose proof (resolveAllImports_Exec contractSource contractPath) as Hex.
  inversion Hex as [? ? ? ? Hin|? ? ? ? ? Hnin Hloop]; subst.
  - by apply not_elem_of_empty in Hin.
  - apply ExecLoop_trace_extends in Hloop as [tail ->]. by exists tail.
Qed.

(** As many records as visited files. *)
Lemma resolveAllImports_record_count contractSource contractPath :
  length (recordEntries (rtrace (resolveAllImports cfg fs contractSource contractPath)))
  = size (processedPaths (resolveAllImports cfg fs contractSource contractPath)).
Proof.
  pose proof (resolveAllImports_Exec contractSource contractPath) as Hex.
  apply (Exec_preserve
           (λ s, length (recordEntries (rtrace s)) = size (processedPaths s))) in Hex.
  - done.
  - intros s e He Hs. simpl. rewrite recordEntries_snoc, length_app, Hs.
    destruct e; try done; simpl; lia.
  - intros s src q key Hq Hs. simpl.
    rewrite recordEntries_snoc, length_app, Hs. simpl.
    rewrite size_union by set_solver. rewrite size_singleton. lia.
  - symmetry. apply size_empty.
Qed.

Lemma justifiedTrace_nil : justifiedTrace [].
Proof. intros before e after H. by destruct before. Qed.

Lemma justifiedTrace_snoc tr e :
  justifiedTrace tr → justified tr e → justifiedTrace (tr ++ [e]).
Proof.
  intros Htr He before e' after Heq.
  destruct after as [|x after _] using rev_ind.
  - apply app_inj_tail in Heq as [-> ->]. done.
  - rewrite app_comm_cons, app_assoc in Heq.
    apply app_inj_tail in Heq as [-> _]. by eapply Htr.
Qed.

Lemma Exec_ExecLoop_justified :
  (∀ st source p k st', Exec st source p k st' →
     Inv st → justifiedTrace (rtrace st) →
     (rtrace st = [] ∨
      ∃ earlier parent kp cp imp,
        rtrace st = earlier ++ [EvRead (fullPath imp (Some parent))] ∧
        EvRecord parent kp cp ∈ earlier ∧ imp ∈ scanImports cp ∧
        fs !! fullPath imp (Some parent) = Some source ∧
        p = childPath parent imp ∧ k = childKey parent imp) →
     justifiedTrace (rtrace st')) ∧
  (∀ p imports st st', ExecLoop p imports st st' →
     Inv st → justifiedTrace (rtrace st) →
     (∃ kp cp, EvRecord p kp cp ∈ rtrace st ∧ imports ⊆ scanImports cp) →
     justifiedTrace (rtrace st')).
Proof.
  apply Exec_ExecLoop_ind.
  - done.
  - intros st source p k st' Hnin Hloop IH HI Hj Hcall.
    apply IH.
    + by apply Inv_record.
    + apply justifiedTrace_snoc; [done|]. split; [|done].
      intros k' c' Hin. apply Hnin, (inv_visited _ HI). eauto.
    + exists k, source. split; [|done].
      simpl. apply elem_of_app. right. apply list_elem_of_here.
  - done.
  - intros p imp rest st contents st2 st3 Hf Hex IHex Hloop IHloop
      HI Hj (kp & cp & Hp & Hsub).
    assert (Inv (emit (EvRead (fullPath imp (Some p))) st)) as HI1
      by (by apply Inv_emit).
    apply IHloop.
    + by eapply Exec_Inv.
    + apply IHex; [done| |].
      * apply justifiedTrace_snoc; [done|].
        exists p, kp, cp, imp. split_and!; [done|set_solver|done].
      * right. exists (rtrace st), p, kp, cp, imp.
        split_and!; [done|done|set_solver|by apply findImports_Ok|done|done].
    + exists kp, cp. split; [|set_solver].
      eapply Exec_trace_mono; [done|]. simpl. apply elem_of_app. by left.
  - intros p imp rest st e st3 Hf Hloop IHloop HI Hj (kp & cp & Hp & Hsub).
    apply IHloop.
    + unfold warn. by repeat apply Inv_emit.
    + unfold warn. cbn [emit rtrace].
      apply justifiedTrace_snoc; [apply justifiedTrace_snoc; [done|]|].
      * exists p, kp, cp, imp. split_and!; [done|set_solver|done].
      * exists (rtrace st), kp, cp. split_and!; [done|done|set_solver| |done].
        unfold findImports in Hf.
        by destruct (fs !! fullPath imp (Some p)).
    + exists kp, cp. split; [|set_solver].
      unfold warn. simpl. rewrite !elem_of_app. auto.
Qed.

Lemma resolveAllImports_justified contractSource contractPath :
  justifiedTrace (rtrace (resolveAllImports cfg fs contractSource contractPath)).
Proof.
  apply (proj1 Exec_ExecLoop_justified _ _ _ _ _
           (resolveAllImports_Exec contractSource contractPath)).
  - apply Inv_initial.
  - apply justifiedTrace_nil.
  - by left.
Qed.

(** ** Every read of a file that exists is followed by its record *)

Lemma snoc_split {A} (tr : list A) e before x after :
  tr ++ [e] = before ++ x :: after →
  (after = [] ∧ before = tr ∧ e = x) ∨
  ∃ after', after = after' ++ [e] ∧ tr = before ++ x :: after'.
Proof.
  intros Heq. destruct after as [|y after _] using rev_ind.
  - left. apply app_inj_tail in Heq as [-> ->]. done.
  - right. rewrite app_comm_cons, app_assoc in Heq.
    apply app_inj_tail in Heq as [-> ->]. by exists after.
Qed.

Lemma elem_of_take_one_snoc {A} (x e : A) before after :
  x ∈ before ++ take 1 after → x ∈ before ++ take 1 (after ++ [e]).
Proof. destruct after; [|done]. rewrite app_nil_r. set_solver. Qed.

Lemma answered_snoc tr e :
  answered tr → isRead e = false → answered (tr ++ [e]).
Proof.
  intros Htr He before p after Heq Hp.
  apply snoc_split in Heq as [(_ & _ & ->)|(after' & -> & ->)]; [done|].
  destruct (Htr before p after' eq_refl Hp) as (k & c & Hin).
  exists k, c. by apply elem_of_take_one_snoc.
Qed.

Lemma Exec_ExecLoop_answered :
  (∀ st source p k st', Exec st source p k st' →
     Inv st → p ≠ "" →
     (∀ q kq cq, EvRecord q kq cq ∈ rtrace st → q ≠ "") →
     (∀ before r after,
        rtrace st = before ++ EvRead r :: after → is_Some (fs !! r) →
        (after = [] ∧ r = p) ∨ ∃ kr cr, EvRecord r kr cr ∈ before ++ take 1 after) →
     answered (rtrace st') ∧
     ∀ q kq cq, EvRecord q kq cq ∈ rtrace st' → q ≠ "") ∧
  (∀ p imports st st', ExecLoop p imports st st' →
     Inv st → p ≠ "" →
     (∀ q kq cq, EvRecord q kq cq ∈ rtrace st → q ≠ "") →
     answered (rtrace st) →
     answered (rtrace st') ∧
     ∀ q kq cq, EvRecord q kq cq ∈ rtrace st' → q ≠ "").
Proof.
  apply Exec_ExecLoop_ind.
  - intros st source p k Hin HI Hp Hne Hpre. split; [|done].
    intros before r after Htr Hr.
    destruct (Hpre before r after Htr Hr) as [[-> ->]|?]; [|done].
    apply (inv_visited _ HI) in Hin as (kr & cr & Hin). exists kr, cr.
    rewrite Htr in Hin. rewrite app_nil_r.
    apply elem_of_app in Hin as [?|Hin]; [done|].
    by apply list_elem_of_singleton in Hin.
  - intros st source p k st' Hnin Hloop IH HI Hp Hne Hpre.
    apply IH; [by apply Inv_record|done| |].
    + intros q kq cq. cbn [record rtrace]. rewrite elem_of_app, list_elem_of_singleton.
      intros [?|[= -> _ _]]; [by eapply Hne|done].
    + cbn [record rtrace]. intros before r after Heq Hr.
      apply snoc_split in Heq as [(_ & _ & ?)|(after' & -> & Htr)]; [done|].
      destruct (Hpre before r after' Htr Hr) as [[-> ->]|(kr & cr & Hin)].
      * exists k, source. apply elem_of_app. right. apply list_elem_of_here.
      * exists kr, cr. by apply elem_of_take_one_snoc.
  - done.
  - intros p imp rest st contents st2 st3 Hf Hex IHex Hloop IHloop HI Hp Hne Hans.
    assert (Inv (emit (EvRead (fullPath imp (Some p))) st)) as HI1
      by (by apply Inv_emit).
    destruct IHex as [Hans2 Hne2]; [done|apply importFilePath_nonempty| |..].
    + intros q kq cq. cbn [emit rtrace]. rewrite elem_of_app, list_elem_of_singleton.
      intros [?|?]; [by eapply Hne|done].
    + cbn [emit rtrace]. intros before r after Heq Hr.
      apply snoc_split in Heq as [(-> & _ & [= <-])|(after' & -> & Htr)].
      * left. by rewrite importFilePath_fullPath.
      * right. destruct (Hans before r after' Htr Hr) as (kr & cr & Hin).
        exists kr, cr. by apply elem_of_take_one_snoc.
    + apply IHloop; [by eapply Exec_Inv|done..].
  - intros p imp rest st e st3 Hf Hloop IHloop HI Hp Hne Hans.
    assert (fs !! fullPath imp (Some p) = None) as Hnone.
    { unfold findImports in Hf. by destruct (fs !! fullPath imp (Some p)). }
    apply IHloop; [unfold warn; by repeat apply Inv_emit|done| |].
    + intros q kq cq. unfold warn. cbn [emit rtrace].
      rewrite !elem_of_app, !list_elem_of_singleton.
      intros [[?|?]|?]; [by eapply Hne|done..].
    + unfold warn. cbn [emit rtrace]. apply answered_snoc; [|done].
      intros before r after Heq Hr.
      apply snoc_split in Heq as [(_ & _ & [= <-])|(after' & -> & Htr)].
      * rewrite Hnone in Hr. by destruct Hr.
      * destruct (Hans before r after' Htr Hr) as (kr & cr & Hin).
        exists kr, cr. by apply elem_of_take_one_snoc.
Qed.

Lemma resolveAllImports_answered contractSource contractPath :
  contractPath ≠ "" →
  answered (rtrace (resolveAllImports cfg fs contractSource contractPath)).
Proof.
  intros Hne.
  apply (proj1 Exec_ExecLoop_answered _ _ _ _ _
           (resolveAllImports_Exec contractSource contractPath)).
  - apply Inv_initial.
  - done.
  - intros q kq cq Hin. by apply not_elem_of_nil in Hin.
  - intros before r after Heq. by destruct before.
Qed.

Lemma resolveAllImports_recorded_nonempty contractSource contractPath q k c :
  contractPath ≠ "" →
  EvRecord q k c ∈ rtrace (resolveAllImports cfg fs contractSource contractPath) →
  q ≠ "".
Proof.
  intros Hne.
  apply (proj1 Exec_ExecLoop_answered _ _ _ _ _
           (resolveAllImports_Exec contractSource contractPath)).
  - apply Inv_initial.
  - done.
  - intros q' kq cq Hin. by apply not_elem_of_nil in Hin.
  - intros before r after Heq. by destruct before.
Qed.

(** A file is recorded at the first read of it: no read of the same
    path stands before the read that its record follows. *)
Lemma resolveAllImports_first_read contractSource contractPath earlier q k c after :
  contractPath ≠ "" →
  rtrace (resolveAllImports cfg fs contractSource contractPath)
  = (earlier ++ [EvRead q]) ++ EvRecord q k c :: after →
  is_Some (fs !! q) →
  EvRead q ∉ earlier.
Proof.
  intros Hne Htr Hq Hin.
  pose proof (resolveAllImports_justified contractSource contractPath
                _ _ _ Htr) as [Hfirst _].
  apply list_elem_of_split in Hin as (a & b & ->).
  rewrite <- !app_assoc in Htr. cbn [app] in Htr.
  destruct (resolveAllImports_answered contractSource contractPath Hne
              a q _ Htr Hq) as (kr & cr & Hrec).
  apply (Hfirst kr cr).
  rewrite <- !app_assoc. cbn [app].
  apply elem_of_app in Hrec as [?|Hrec]; [set_solver|].
  apply elem_of_app. right. apply list_elem_of_further.
  destruct b as [|x b]; cbn [app take] in Hrec.
  - apply list_elem_of_singleton in Hrec. done.
  - apply list_elem_of_singleton in Hrec as <-. set_solver.
Qed.

(** ** The table, read off the trace *)

Lemma resolveAllImports_lookup_last contractSource contractPath before q k v after :
  rtrace (resolveAllImports cfg fs contractSource contractPath)
  = before ++ EvRecord q k v :: after →
  k ≠ "__proto__" →
  (∀ q' v', EvRecord q' k v' ∉ after) →
  sources (resolveAllImports cfg fs contractSource contractPath) !! k = Some v.
Proof.
  intros Htr Hproto Hlast.
  rewrite (inv_sources _ (resolveAllImports_Inv contractSource contractPath)), Htr.
  unfold replay. rewrite recordEntries_app. cbn [recordEntries omap recordEntry].
  fold (recordEntries after).
  apply replayOn_lookup_last; [done|].
  intros ([k' v'] & Hk & Hin)%list_elem_of_fmap. simpl in Hk. subst k'.
  apply recordEntries_elem in Hin as [q' Hq']. by apply (Hlast q' v').
Qed.

Lemma resolveAllImports_lookup_proto contractSource contractPath :
  sources (resolveAllImports cfg fs contractSource contractPath) !! "__proto__" = None.
Proof.
  rewrite (inv_sources _ (resolveAllImports_Inv contractSource contractPath)).
  unfold replay. by rewrite replayOn_lookup_other by auto.
Qed.

Lemma resolveAllImports_lookup_recorded contractSource contractPath k v :
  sources (resolveAllImports cfg fs contractSource contractPath) !! k = Some v →
  ∃ q, EvRecord q k v ∈ rtrace (resolveAllImports cfg fs contractSource contractPath).
Proof.
  rewrite (inv_sources _ (resolveAllImports_Inv contractSource contractPath)) at 1.
  unfold replay. intros [?|Hin]%replayOn_lookup_elem; [done|].
  by apply recordEntries_elem.
Qed.

(** The table entry of a file whose key no other record uses. *)
Lemma resolveAllImports_lookup_own contractSource contractPath q k v :
  EvRecord q k v ∈ rtrace (resolveAllImports cfg fs contractSource contractPath) →
  k ≠ "__proto__" →
  (∀ q' v', EvRecord q' k v'
              ∈ rtrace (resolveAllImports cfg fs contractSource contractPath) →
            q' = q) →
  sources (resolveAllImports cfg fs contractSource contractPath) !! k = Some v.
Proof.
  intros Hin Hproto Hown.
  apply list_elem_of_split in Hin as (before & after & Htr).
  apply (resolveAllImports_lookup_last _ _ before q k v after Htr Hproto).
  intros q' v' Hin'.
  assert (q' = q) as ->.
  { apply (Hown q' v'). rewrite Htr. apply elem_of_app. right.
    by apply list_elem_of_further. }
  pose proof (resolveAllImports_justified contractSource contractPath) as Hj.
  apply list_elem_of_split in Hin' as (mid & rest & ->).
  specialize (Hj (before ++ EvRecord q k v :: mid) (EvRecord q k v') rest).
  rewrite Htr, <- app_assoc in Hj. destruct (Hj eq_refl) as [Hfirst _].
  apply (Hfirst k v). apply elem_of_app. right. apply list_elem_of_here.
Qed.

(** ** The key of an import, in terms of the first marker *)

Lemma importSourceKey_cutAt p imp :
  childKey p imp =
  if JsString.startsWith imp ozPrefix then imp
  else if isRelativeSpec imp then
    let resolvedPath := Path.resolve (cwdTail cfg) [Path.dirname p; imp] in
    match cutAt ozMarker resolvedPath with
    | Some (_, rest) =>
        ozPrefix +:+
        JsString.backslashesToSlashes
          (match cutAt ozMarker rest with
           | Some (piece, _) => piece
           | None => rest
           end)
    | None =>
        JsString.backslashesToSlashes
          (Path.relative (cwdTail cfg) (contractsDir cfg) resolvedPath)
    end
  else imp.
Proof.
  unfold importSourceKey, pathResolve.
  destruct (JsString.startsWith imp ozPrefix); [done|].
  destruct (isRelativeSpec imp); [|done]. cbv zeta.
  set (resolvedPath := Path.resolve (cwdTail cfg) [Path.dirname p; imp]).
  rewrite split_secondPiece by done. unfold secondPiece.
  pose proof (includes_cutAt resolvedPath ozMarker) as Hinc.
  destruct (cutAt ozMarker resolvedPath) as [[before rest]|].
  - rewrite (proj2 Hinc) by (by eexists). done.
  - destruct (JsString.includes resolvedPath ozMarker); [|done].
    destruct (proj1 Hinc eq_refl) as [? ?]. done.
Qed.

Lemma relative_not_absolute imp :
  isRelativeSpec imp = true → JsString.startsWith imp "/" = false.
Proof.
  unfold isRelativeSpec. destruct imp as [|c imp]; [done|].
  cbn [JsString.startsWith]. intros H.
  destruct (Ascii.eqb c "/") eqn:Hc; [|done].
  apply Ascii.eqb_eq in Hc as ->. done.
Qed.

(** The path of an import, as a join. *)
Lemma findImports_fullPath_joined imp basePath :
  JsString.startsWith (contractsDir cfg) "/" = true →
  JsString.startsWith (ozContractsDir cfg) "/" = true →
  (∀ base, basePath = Some base → base = "" ∨ JsString.startsWith base "/" = true) →
  fullPath imp basePath =
  if JsString.startsWith imp ozPrefix then
    let remainder := JsString.drop (String.length ozPrefix) imp in
    if JsString.startsWith remainder "/" then joined "" remainder
    else joined (ozContractsDir cfg) remainder
  else if isRelativeSpec imp then
    joined (match basePath with
            | Some base => if JsString.truthy base then Path.dirname base
                           else contractsDir cfg
            | None => contractsDir cfg
            end) imp
  else if JsString.startsWith imp "/" then joined "" imp
  else joined (contractsDir cfg) imp.
Proof.
  intros Hc Ho Hbase. unfold findImports_fullPath, pathResolve.
  destruct (JsString.startsWith imp ozPrefix) eqn:Hoz.
  { rewrite replace_prefix by done. cbv zeta. by apply resolve_joined. }
  destruct (isRelativeSpec imp) eqn:Hrel.
  - pose proof (relative_not_absolute _ Hrel) as Hnot.
    destruct basePath as [base|].
    + destruct (JsString.truthy base) eqn:Ht.
      * rewrite resolve_joined, Hnot; [done|]. apply dirname_absolute.
        destruct (Hbase base eq_refl) as [->|?]; done.
      * by rewrite resolve_joined, Hnot.
    + by rewrite resolve_joined, Hnot.
  - by apply resolve_joined.
Qed.

(** ** A failed import does not stop the loop *)

Lemma processImports_missing rec filePath importPath rest st e :
  findImp importPath (Some filePath) = Err e →
  procImports rec filePath (importPath :: rest) st =
  procImports rec filePath rest
    (warn importPath filePath
       (emit (EvRead (fullPath importPath (Some filePath))) st)).
Proof. intros H. simpl. by rewrite H. Qed.

End ResolverFacts.

(** * Facts about the cache *)

Section CompilerFacts.

Variable cfg : Config.
Variable fs : FileSystem.
Variable solc : JsObject.t string → SolcOutput.

Local Abbreviation getContract' := (getContract cfg fs solc).
Local Abbreviation reachable' := (reachable cfg fs solc).
Local Abbreviation cacheKey' := (cacheKey cfg).
Local Abbreviation compiledState := (compiledState cfg fs).
Local Abbreviation compilerOutput := (compilerOutput cfg fs solc).

(** The cache key is the last segment of the requested name. *)
Lemma cacheKey_spec name :
  cacheKey' name =
  if decide (lastSegment name = "") then ".sol" else lastSegment name.
Proof.
  unfold cacheKey, entryPath.
  destruct (resolve_entry (cwdTail cfg) (contractsDir cfg) name) as [pre ->].
  apply basename_sol, lastSegment_noSlash.
Qed.

Lemma cacheKey_noSlash name : noSlash (cacheKey' name) = true.
Proof.
  rewrite cacheKey_spec. case_decide; [done|apply lastSegment_noSlash].
Qed.

Lemma cacheKey_nonempty name : cacheKey' name ≠ "".
Proof. rewrite cacheKey_spec. by case_decide. Qed.

Lemma cacheKey_idempotent name : cacheKey' (cacheKey' name) = cacheKey' name.
Proof.
  rewrite (cacheKey_spec (cacheKey' name)).
  rewrite lastSegment_id by apply cacheKey_noSlash.
  rewrite decide_False by apply cacheKey_nonempty. done.
Qed.

Lemma elem_of_getCacheKeys w k : k ∈ getCacheKeys w ↔ is_Some (cache w !! k).
Proof. unfold getCacheKeys. symmetry. apply JsObject_lookup_keys. Qed.

Lemma inherited_proto k : JsObject.inherited k = false → k ≠ "__proto__".
Proof. by intros H ->. Qed.

(** ** The outcomes of [getContract] *)

Lemma getContract_hit name w compiled :
  cache w !! cacheKey' name = Some compiled →
  getContract' name w = (Ok (Artifact compiled), w).
Proof.
  intros H. unfold getContract, compileContract.
  fold (cacheKey cfg name). by rewrite H.
Qed.

Lemma getContract_inherited name w :
  cache w !! cacheKey' name = None →
  JsObject.inherited (cacheKey' name) = true →
  getContract' name w = (Ok (PrototypeMember (cacheKey' name)), w).
Proof.
  intros Hc Hi. unfold getContract, compileContract.
  fold (cacheKey cfg name). by rewrite Hc, Hi.
Qed.

Lemma getContract_unreadable name w :
  cache w !! cacheKey' name = None →
  JsObject.inherited (cacheKey' name) = false →
  fs !! entryPath cfg name = None →
  getContract' name w =
    (Err (ReadFailed (entryPath cfg name)),
     logged [EvRead (entryPath cfg name)] w).
Proof.
  intros Hc Hi Hf. unfold getContract, compileContract.
  fold (cacheKey cfg name). by rewrite Hc, Hi, Hf.
Qed.

Lemma getContract_miss name source w :
  cache w !! cacheKey' name = None →
  JsObject.inherited (cacheKey' name) = false →
  fs !! entryPath cfg name = Some source →
  getContract' name w =
    let out := compilerOutput name source in
    let w1 := compiledState name source w in
    if bool_decide (0 < length (errorDiagnostics out))
    then (Err (CompilationErrors (errorDiagnostics out)), w1)
    else
      match assoc (cacheKey' name) (contracts out) with
      | Some ((_, contract) :: _) =>
          (Ok (Artifact (artifactOf contract)),
           {| cache := JsObject.set (cacheKey' name) (artifactOf contract) (cache w1);
              trace := trace w1 |})
      | _ => (Err TypeError, w1)
      end.
Proof.
  intros Hc Hi Hf. unfold getContract, compileContract.
  fold (cacheKey cfg name). rewrite Hc, Hi, Hf. reflexivity.
Qed.

(** A call changes the cache at most at its own key, and only by
    adding the artifact it returns. *)
Lemma getContract_cache name w :
  cache (getContract' name w).2 = cache w ∨
  ∃ compiled,
    cache w !! cacheKey' name = None ∧
    JsObject.inherited (cacheKey' name) = false ∧
    (getContract' name w).1 = Ok (Artifact compiled) ∧
    cache (getContract' name w).2
    = JsObject.set (cacheKey' name) compiled (cache w).
Proof.
  destruct (cache w !! cacheKey' name) as [c|] eqn:Hc.
  { rewrite (getContract_hit _ _ _ Hc). by left. }
  destruct (JsObject.inherited (cacheKey' name)) eqn:Hi.
  { rewrite (getContract_inherited _ _ Hc Hi). by left. }
  destruct (fs !! entryPath cfg name) as [source|] eqn:Hf.
  2:{ rewrite (getContract_unreadable _ _ Hc Hi Hf). by left. }
  rewrite (getContract_miss _ _ _ Hc Hi Hf). cbv zeta.
  case_bool_decide; [by left|].
  destruct (assoc _ _) as [[|[? contract] ?]|]; [by left| |by left].
  right. by exists (artifactOf contract).
Qed.

(** What a call that had to compile and succeeded has done. *)
Lemma getContract_success_inv name w compiled w1 :
  cache w !! cacheKey' name = None →
  getContract' name w = (Ok (Artifact compiled), w1) →
  ∃ source ckey contract more,
    JsObject.inherited (cacheKey' name) = false ∧
    fs !! entryPath cfg name = Some source ∧
    errorDiagnostics (compilerOutput name source) = [] ∧
    assoc (cacheKey' name) (contracts (compilerOutput name source))
    = Some ((ckey, contract) :: more) ∧
    compiled = artifactOf contract ∧
    w1 = {| cache := JsObject.set (cacheKey' name) compiled (cache w);
            trace := trace (compiledState name source w) |}.
Proof.
  intros Hmiss Hcall.
  destruct (JsObject.inherited (cacheKey' name)) eqn:Hi.
  { rewrite (getContract_inherited _ _ Hmiss Hi) in Hcall. done. }
  destruct (fs !! entryPath cfg name) as [source|] eqn:Hf.
  2:{ rewrite (getContract_unreadable _ _ Hmiss Hi Hf) in Hcall. done. }
  rewrite (getContract_miss _ _ _ Hmiss Hi Hf) in Hcall. cbv zeta in Hcall.
  case_bool_decide as Herr; [done|].
  destruct (assoc _ _) as [[|[ckey contract] more]|] eqn:Hout; [done| |done].
  injection Hcall as <- <-.
  exists source, ckey, contract, more. split_and!; [done..| |done|done|done].
  destruct (errorDiagnostics _); [done|]. simpl in Herr. lia.
Qed.

(** Every key of the cache is the key of some request, and no name
    inherited from [Object.prototype]. *)
Lemma reachable_keys w :
  reachable' w → ∀ k, is_Some (cache w !! k) →
  JsObject.inherited k = false ∧ ∃ name, k = cacheKey' name.
Proof.
  induction 1 as [|name w Hw IH|w Hw IH]; intros k Hk.
  - by destruct Hk.
  - destruct (getContract_cache name w) as [E|(c & _ & Hi & _ & E)];
      fold getContract' in *; rewrite E in Hk; [eauto|].
    destruct (decide (k = cacheKey' name)) as [->|Hne]; [eauto|].
    rewrite JsObject_lookup_set_ne in Hk by done. eauto.
  - by destruct Hk.
Qed.

Lemma reachable_key_fixed w k :
  reachable' w → is_Some (cache w !! k) → cacheKey' k = k.
Proof.
  intros Hw Hk. destruct (reachable_keys w Hw k Hk) as [_ [name ->]].
  apply cacheKey_idempotent.
Qed.

Lemma compileCount_compiledState name source w :
  compileCount (trace (compiledState name source w)) = compileCount (trace w) + 1.
Proof.
  unfold compiledState, compileCount. simpl.
  rewrite countEv_app, countEv_cons, countEv_app, countEv_single.
  pose proof (resolveAllImports_no_compile cfg fs source (entryPath cfg name)) as H.
  unfold compileCount in H. rewrite H. simpl. lia.
Qed.

(** The compiler calls of one request. *)
Lemma getContract_compileCount name w :
  compileCount (trace (getContract' name w).2) =
  compileCount (trace w) +
  match cache w !! cacheKey' name, JsObject.inherited (cacheKey' name),
        fs !! entryPath cfg name with
  | None, false, Some _ => 1
  | _, _, _ => 0
  end.
Proof.
  destruct (cache w !! cacheKey' name) as [c|] eqn:Hc.
  { rewrite (getContract_hit _ _ _ Hc). simpl. lia. }
  destruct (JsObject.inherited (cacheKey' name)) eqn:Hi.
  { rewrite (getContract_inherited _ _ Hc Hi). simpl. lia. }
  destruct (fs !! entryPath cfg name) as [source|] eqn:Hf.
  2:{ rewrite (getContract_unreadable _ _ Hc Hi Hf). simpl.
      unfold compileCount. rewrite countEv_snoc. simpl. lia. }
  rewrite (getContract_miss _ _ _ Hc Hi Hf). cbv zeta.
  pose proof (compileCount_compiledState name source w) as Hcount.
  case_bool_decide; [done|].
  by destruct (assoc _ _) as [[|[? contract] ?]|].
Qed.

(** The artifact a call returns is in the cache afterwards. *)
Lemma getContract_Ok_cached name w compiled w1 :
  getContract' name w = (Ok (Artifact compiled), w1) →
  cache w1 !! cacheKey' name = Some compiled.
Proof.
  destruct (cache w !! cacheKey' name) as [c|] eqn:Hc.
  { rewrite (getContract_hit _ _ _ Hc). intros [= <- <-]. done. }
  intros Hcall.
  destruct (getContract_success_inv _ _ _ _ Hc Hcall)
    as (source & ckey & contract & more & Hi & _ & _ & _ & _ & ->).
  simpl. by apply JsObject_lookup_set_eq, inherited_proto.
Qed.

Lemma errorDiagnostics_some out d :
  d ∈ default [] (errors out) → severity d = "error" →
  0 < length (errorDiagnostics out).
Proof.
  intros Hd Hsev. unfold errorDiagnostics.
  assert (d ∈ filter (λ d, isError d) (default [] (errors out))) as H.
  { apply list_elem_of_filter. split; [|done].
    unfold isError. by rewrite bool_decide_eq_true_2. }
  destruct (filter _ _); [by apply elem_of_nil in H|simpl; lia].
Qed.

Lemma errorDiagnostics_none out :
  (∀ d, d ∈ default [] (errors out) → severity d = "warning") →
  errorDiagnostics out = [].
Proof.
  intros Hall. unfold errorDiagnostics.
  induction (default [] (errors out)) as [|d l IH]; [done|].
  rewrite filter_cons_False.
  - apply IH. intros d' Hd'. apply Hall. by apply list_elem_of_further.
  - unfold isError. rewrite (Hall d) by apply list_elem_of_here.
    by intros [].
Qed.

End CompilerFacts.

(** * The claims *)
(** C1 (as amended).  Whatever the shape of the import graph,
    [resolveAllImports] ends, and its table has no duplicate keys.
    Applied to the source of a root file and to its path, it records
    every transitively imported file exactly once, under one key and
    with its content.  When no two recorded files have the same key,
    the table holds exactly the records whose key is not [__proto__]
    (an assignment under that key makes no entry), in the order of
    recording when no key is an array index; so every transitively
    imported file whose key is not [__proto__] has its entry.  When A
    imports B and B imports A, with two different keys other than
    [__proto__], the table holds the entries of A and B and nothing
    else, as in the sample tree. *)
Theorem resolveAllImports_terminates_unique_complete
    cfg (fs : FileSystem) contractSource contractPath :
  let r := resolveAllImports cfg fs contractSource contractPath in
  (∀ n, resolveAllImports_fuel cfg fs (fuelBound fs contractSource + n)
          contractSource contractPath = Some r) ∧
  NoDup (JsObject.keys (sources r)) ∧
  (fs !! contractPath = Some contractSource → contractPath ≠ "" →
   (∀ q, q ∈ processedPaths r ↔ Reachable cfg fs contractPath q) ∧
   ∀ q content, Reachable cfg fs contractPath q → fs !! q = Some content →
     recordCount q (rtrace r) = 1 ∧ ∃ k, EvRecord q k content ∈ rtrace r) ∧
  (NoDup (recordEntries (rtrace r)).*1 →
   (∀ k content,
      (k, content) ∈ sources r ↔
      (k, content) ∈ recordEntries (rtrace r) ∧ k ≠ "__proto__") ∧
   ((∀ k, k ∈ (recordEntries (rtrace r)).*1 →
          k ≠ "__proto__" ∧ JsObject.arrayIndex k = None) →
    sources r = recordEntries (rtrace r)) ∧
   (fs !! contractPath = Some contractSource → contractPath ≠ "" →
    ∀ q content, Reachable cfg fs contractPath q → fs !! q = Some content →
      ∃ k, EvRecord q k content ∈ rtrace r ∧
           (k ≠ "__proto__" → (k, content) ∈ sources r))) ∧
  (∀ pathB sourceB importB importA,
     fs !! contractPath = Some contractSource → contractPath ≠ "" →
     fs !! pathB = Some sourceB → contractPath ≠ pathB →
     ImportScan.scanImports contractSource = [importB] →
     findImports_fullPath cfg importB (Some contractPath) = pathB →
     ImportScan.scanImports sourceB = [importA] →
     findImports_fullPath cfg importA (Some pathB) = contractPath →
     Path.basename contractPath ".sol" ≠ importSourceKey cfg contractPath importB →
     Path.basename contractPath ".sol" ≠ "__proto__" →
     importSourceKey cfg contractPath importB ≠ "__proto__" →
     length (sources r) = 2 ∧
     ∀ k content,
       (k, content) ∈ sources r ↔
       (k, content) = (Path.basename contractPath ".sol", contractSource) ∨
       (k, content) = (importSourceKey cfg contractPath importB, sourceB)) ∧
  sources (resolveAllImports Fixtures.cfg Fixtures.cycleFs Fixtures.srcA Fixtures.pathA)
  = [("A", Fixtures.srcA); ("B.sol", Fixtures.srcB)].
Proof.
  intros r. subst r.
  pose proof (resolveAllImports_Inv cfg fs contractSource contractPath) as HI.
  split_and!.
  - intros n. apply resolveAllImports_fuel_spec. lia.
  - apply (inv_keys _ HI).
  - intros Hroot Hne. split.
    + intros q. by apply resolveAllImports_visited.
    + intros q content Hq Hfs. by apply resolveAllImports_recorded.
  - intros Hnd.
    assert (∀ k content,
              (k, content) ∈ sources (resolveAllImports cfg fs contractSource contractPath) ↔
              (k, content) ∈ recordEntries
                 (rtrace (resolveAllImports cfg fs contractSource contractPath))
              ∧ k ≠ "__proto__") as Hiff.
    { intros k content. split.
      - intros Hin. apply (JsObject_elem_lookup _ _ _ (inv_keys _ HI)) in Hin.
        split.
        + apply recordEntries_elem. by apply resolveAllImports_lookup_recorded.
        + intros ->. by rewrite resolveAllImports_lookup_proto in Hin.
      - intros [Hin Hproto]. apply JsObject_lookup_elem.
        rewrite (inv_sources _ HI). unfold replay.
        apply list_elem_of_split in Hin as (e1 & e2 & Hsplit).
        rewrite Hsplit. apply replayOn_lookup_last; [done|].
        rewrite Hsplit, fmap_app, fmap_cons in Hnd.
        apply NoDup_app in Hnd as (_ & _ & Hnd).
        by apply NoDup_cons in Hnd as [? _]. }
    split_and!.
    + exact Hiff.
    + intros Hord. rewrite (inv_sources _ HI). by apply replay_ordinary.
    + intros Hroot Hne q content Hq Hfs.
      destruct (resolveAllImports_recorded cfg fs contractSource contractPath
                  Hroot Hne q content Hq Hfs) as [_ [k Hk]].
      exists k. split; [done|]. intros Hproto. apply Hiff. split; [|done].
      apply recordEntries_elem. by exists q.
  - intros pathB sourceB importB importA Hfa Ha Hfb Hab Hsa Hia Hsb Hib Hkeys HpA HpB.
    rewrite (resolveAllImports_two_cycle cfg fs contractPath pathB contractSource
               sourceB importB importA) by done.
    cbn [sources].
    set (kA := Path.basename contractPath ".sol") in *.
    set (kB := importSourceKey cfg contractPath importB) in *.
    assert (NoDup (JsObject.keys (JsObject.set kB sourceB
                                    (JsObject.set kA contractSource []))))
      as Hnd by (do 2 apply JsObject_set_NoDup; constructor).
    split.
    + rewrite !JsObject_set_length. cbn [length JsObject.keys fmap list_fmap].
      rewrite (decide_False (P := kA = "__proto__" ∨ kA ∈ []))
        by (intros [?|?%not_elem_of_nil]; done).
      rewrite decide_False; [done|]. intros [?|Hin]; [done|].
      apply JsObject_elem_of_keys_set in Hin as [?%not_elem_of_nil|[? _]]; done.
    + intros k content. split.
      * intros Hin. apply (JsObject_elem_lookup _ _ _ Hnd) in Hin.
        rewrite !JsObject_lookup_set in Hin.
        rewrite (decide_False (P := kB = "__proto__")) in Hin by done.
        rewrite (decide_False (P := kA = "__proto__")) in Hin by done.
        destruct (decide (k = kB)) as [->|?]; [right; congruence|].
        destruct (decide (k = kA)) as [->|?]; [left; congruence|done].
      * intros Hin. apply JsObject_lookup_elem. rewrite !JsObject_lookup_set.
        rewrite (decide_False (P := kB = "__proto__")) by done.
        rewrite (decide_False (P := kA = "__proto__")) by done.
        destruct Hin as [[= -> ->]|[= -> ->]].
        -- rewrite decide_False by done. by rewrite decide_True.
        -- by rewrite decide_True.
  - vm_compute. reflexivity.
Qed.

(** The sample tree in which A and B import each other. *)
Lemma resolveAllImports_terminates_unique_complete_witness :
  let r := resolveAllImports Fixtures.cfg Fixtures.cycleFs Fixtures.srcA Fixtures.pathA in
  recordCount Fixtures.pathB (rtrace r) = 1
  ∧ sources r = recordEntries (rtrace r)
  ∧ length (sources r) = 2
  ∧ (importSourceKey Fixtures.cfg Fixtures.pathA "./B.sol", Fixtures.srcB) ∈ sources r.
Proof.
  destruct (resolveAllImports_terminates_unique_complete
              Fixtures.cfg Fixtures.cycleFs Fixtures.srcA Fixtures.pathA)
    as (_ & _ & Hrec & Hone & Hcycle & _).
  assert (NoDup (recordEntries
                   (rtrace (resolveAllImports Fixtures.cfg Fixtures.cycleFs
                              Fixtures.srcA Fixtures.pathA))).*1) as Hnd
    by (apply (bool_decide_unpack _); vm_compute; exact I).
  destruct (Hcycle Fixtures.pathB Fixtures.srcB "./B.sol" "./A.sol")
    as [Hlen Hentries];
    [reflexivity|discriminate|reflexivity|discriminate
    |vm_compute; reflexivity|vm_compute; reflexivity
    |vm_compute; reflexivity|vm_compute; reflexivity
    |vm_compute; discriminate|vm_compute; discriminate
    |vm_compute; discriminate|].
  split_and!.
  - apply (proj2 (Hrec eq_refl ltac:(discriminate))) with (content := Fixtures.srcB).
    + eapply Reachable_step with (parent := Fixtures.pathA) (imp := "./B.sol").
      * constructor.
      * reflexivity.
      * apply list_elem_of_In. vm_compute. auto.
      * vm_compute. reflexivity.
      * eexists. reflexivity.
    + reflexivity.
  - apply (proj1 (proj2 (Hone Hnd))).
    intros k Hk. vm_compute in Hk.
    repeat (apply elem_of_cons in Hk as [->|Hk];
            [split; [discriminate|vm_compute; reflexivity]|]).
    exact (False_ind _ (not_elem_of_nil _ Hk)).
  - exact Hlen.
  - apply Hentries. right. reflexivity.
Defined.

(** C1, as stated, fails when two files get the same key: a template
    that imports a library file and a copy of it kept under the
    templates directory ends with a table that lacks the library file. *)
Lemma resolveAllImports_key_collision :
  let r := resolveAllImports Fixtures.cfg Fixtures.vendorFs
             Fixtures.srcVendor Fixtures.pathVendor in
  Reachable Fixtures.cfg Fixtures.vendorFs Fixtures.pathVendor Fixtures.pathLibX ∧
  Fixtures.vendorFs !! Fixtures.pathLibX = Some Fixtures.srcLibX ∧
  Reachable Fixtures.cfg Fixtures.vendorFs Fixtures.pathVendor Fixtures.pathCopyX ∧
  Fixtures.pathLibX ≠ Fixtures.pathCopyX ∧
  sources r = [("Vendor", Fixtures.srcVendor);
               ("@openzeppelin/contracts/X.sol", Fixtures.srcCopyX)] ∧
  ∀ k, (k, Fixtures.srcLibX) ∉ sources r.
Proof.
  assert (sources (resolveAllImports Fixtures.cfg Fixtures.vendorFs
                     Fixtures.srcVendor Fixtures.pathVendor)
          = [("Vendor", Fixtures.srcVendor);
             ("@openzeppelin/contracts/X.sol", Fixtures.srcCopyX)]) as Hsrc
    by (vm_compute; reflexivity).
  cbv zeta. split_and!.
  - eapply Reachable_step with (parent := Fixtures.pathVendor)
      (imp := "@openzeppelin/contracts/X.sol").
    + constructor.
    + reflexivity.
    + apply list_elem_of_In. vm_compute. auto.
    + vm_compute. reflexivity.
    + eexists. reflexivity.
  - reflexivity.
  - eapply Reachable_step with (parent := Fixtures.pathVendor)
      (imp := "./node_modules/@openzeppelin/contracts/X.sol").
    + constructor.
    + reflexivity.
    + apply list_elem_of_In. vm_compute. auto.
    + vm_compute. reflexivity.
    + eexists. reflexivity.
  - discriminate.
  - exact Hsrc.
  - intros k Hin. rewrite Hsrc in Hin.
    repeat (apply elem_of_cons in Hin as [Hin|Hin]; [discriminate Hin|]).
    by apply elem_of_nil in Hin.
Qed.

(** C2 (as amended).  When the compiler is invoked for a name (the
    cache object has nothing under the key of the name, neither an
    entry of its own nor a member inherited from [Object.prototype],
    and the entry file is read) and its answer holds a diagnostic of
    severity error, [getContract] fails with the error-severity
    diagnostics of the answer (warnings are left out of the failure),
    and the cache is unchanged: the name is not among the cache keys,
    and the next call for the name invokes the compiler again. *)
Theorem compilation_error_not_cached
    cfg (fs : FileSystem) solc name source w d :
  reachable cfg fs solc w →
  cache w !! cacheKey cfg name = None →
  JsObject.inherited (cacheKey cfg name) = false →
  fs !! entryPath cfg name = Some source →
  d ∈ default [] (errors (compilerOutput cfg fs solc name source)) →
  severity d = "error" →
  let failed :=
    Err (CompilationErrors
           (filter (λ d, isError d)
              (default [] (errors (compilerOutput cfg fs solc name source))))) in
  let w1 := (getContract cfg fs solc name w).2 in
  let w2 := (getContract cfg fs solc name w1).2 in
  (getContract cfg fs solc name w).1 = failed ∧
  cache w1 = cache w ∧
  (name ∉ getCacheKeys w1) ∧
  (getContract cfg fs solc name w1).1 = failed ∧
  compileCount (trace w2) = compileCount (trace w1) + 1 ∧
  cache w2 = cache w.
Proof.
  intros Hw Hmiss Hown Hf Hd Hsev failed w1 w2.
  pose proof (errorDiagnostics_some _ d Hd Hsev) as Herr.
  assert (getContract cfg fs solc name w
          = (failed, compiledState cfg fs name source w)) as Hcall1.
  { rewrite (getContract_miss cfg fs solc _ _ _ Hmiss Hown Hf). cbv zeta.
    by rewrite bool_decide_eq_true_2. }
  assert (getContract cfg fs solc name (compiledState cfg fs name source w)
          = (failed, compiledState cfg fs name source
                       (compiledState cfg fs name source w))) as Hcall2.
  { rewrite (getContract_miss cfg fs solc _ source _); [|done..]. cbv zeta.
    by rewrite bool_decide_eq_true_2. }
  subst w2 w1. rewrite Hcall1. cbn [fst snd]. rewrite Hcall2. cbn [fst snd].
  split_and!; [done..| |done| |done].
  - intros Hin. apply elem_of_getCacheKeys in Hin. simpl in Hin.
    rewrite <- (reachable_key_fixed cfg fs solc w name Hw Hin) in Hin.
    rewrite Hmiss in Hin. by destruct Hin.
  - apply (compileCount_compiledState cfg fs).
Qed.

(** The ERC20 template with a compiler that reports an error. *)
Lemma compilation_error_not_cached_witness :
  (getContract Fixtures.cfg Fixtures.erc20Fs Fixtures.solcFails "ERC20" emptyState).1
  = Err (CompilationErrors [Fixtures.failure])
  ∧ "ERC20" ∉ getCacheKeys
      (getContract Fixtures.cfg Fixtures.erc20Fs Fixtures.solcFails "ERC20" emptyState).2.
Proof.
  destruct (compilation_error_not_cached Fixtures.cfg Fixtures.erc20Fs
              Fixtures.solcFails "ERC20" Fixtures.srcERC20 emptyState Fixtures.failure)
    as (Hres & _ & Hkeys & _).
  - apply reachable_init.
  - reflexivity.
  - vm_compute. reflexivity.
  - reflexivity.
  - apply list_elem_of_In. vm_compute. auto.
  - reflexivity.
  - split; [exact Hres|exact Hkeys].
Defined.

(** C2, as stated, fails on what the failure carries: when the answer
    holds a warning and an error, the failure holds the error only, not
    the diagnostic list of the answer. *)
Lemma compilation_error_drops_warnings :
  let out := compilerOutput Fixtures.cfg Fixtures.erc20Fs Fixtures.solcFails
               "ERC20" Fixtures.srcERC20 in
  errors out = Some [Fixtures.warning; Fixtures.failure] ∧
  (getContract Fixtures.cfg Fixtures.erc20Fs Fixtures.solcFails "ERC20" emptyState).1
  = Err (CompilationErrors [Fixtures.failure]) ∧
  (getContract Fixtures.cfg Fixtures.erc20Fs Fixtures.solcFails "ERC20" emptyState).1
  ≠ Err (CompilationErrors [Fixtures.warning; Fixtures.failure]).
Proof.
  cbv zeta. split_and!; [reflexivity|vm_compute; reflexivity|].
  assert ((getContract Fixtures.cfg Fixtures.erc20Fs Fixtures.solcFails
             "ERC20" emptyState).1
          = Err (CompilationErrors [Fixtures.failure])) as ->
    by (vm_compute; reflexivity).
  discriminate.
Qed.

(** C3 (as amended).  A name that is in the cache is answered from the
    cache: the cached artifact is returned and nothing is read or
    compiled (the state, with its trace of effects, is unchanged).  Of
    two calls in a row for one name, starting from an empty cache, the
    second returns what the first returned when that is an artifact,
    and the compiler is then invoked once.  It is invoked once only in
    that case: not at all when the key of the name is a member of
    [Object.prototype] (both calls return the inherited member and
    leave the state as it is) or when the entry file cannot be read,
    and twice when the first call fails after compiling. *)
Theorem getContract_cache_hit cfg (fs : FileSystem) solc :
  (∀ w name compiled,
     reachable cfg fs solc w → cache w !! name = Some compiled →
     getContract cfg fs solc name w = (Ok (Artifact compiled), w)) ∧
  (∀ name w compiled w1,
     cache w = [] →
     getContract cfg fs solc name w = (Ok (Artifact compiled), w1) →
     getContract cfg fs solc name w1 = (Ok (Artifact compiled), w1) ∧
     compileCount (trace (getContract cfg fs solc name w1).2)
     = compileCount (trace w) + 1) ∧
  (∀ name w,
     cache w = [] → JsObject.inherited (cacheKey cfg name) = true →
     getContract cfg fs solc name w = (Ok (PrototypeMember (cacheKey cfg name)), w)) ∧
  (∀ name w,
     cache w = [] →
     let w1 := (getContract cfg fs solc name w).2 in
     let w2 := (getContract cfg fs solc name w1).2 in
     compileCount (trace w2) =
     compileCount (trace w) +
     match (getContract cfg fs solc name w).1 with
     | Ok (Artifact _) => 1
     | Ok (PrototypeMember _) => 0
     | Err (ReadFailed _) => 0
     | Err _ => 2
     end).
Proof.
  split_and!.
  - intros w name compiled Hw Hc. apply getContract_hit.
    rewrite (reachable_key_fixed cfg fs solc w name Hw); [done|by eexists].
  - intros name w compiled w1 Hempty Hcall.
    pose proof (getContract_Ok_cached cfg fs solc _ _ _ _ Hcall) as Hcached.
    rewrite (getContract_hit cfg fs solc _ _ _ Hcached). split; [done|]. simpl.
    assert (cache w !! cacheKey cfg name = None) as Hmiss by (by rewrite Hempty).
    destruct (getContract_success_inv cfg fs solc _ _ _ _ Hmiss Hcall)
      as (source & ckey & contract & more & _ & _ & _ & _ & _ & ->).
    simpl. apply (compileCount_compiledState cfg fs).
  - intros name w Hempty Hi. apply getContract_inherited; [|done].
    by rewrite Hempty.
  - intros name w Hempty w1 w2. subst w1 w2.
    assert (cache w !! cacheKey cfg name = None) as Hmiss by (by rewrite Hempty).
    destruct (JsObject.inherited (cacheKey cfg name)) eqn:Hi.
    { rewrite !(getContract_inherited cfg fs solc _ _ Hmiss Hi). simpl.
      rewrite (getContract_inherited cfg fs solc _ _ Hmiss Hi). simpl. lia. }
    destruct (fs !! entryPath cfg name) as [source|] eqn:Hf.
    2:{ rewrite !(getContract_unreadable cfg fs solc _ _ Hmiss Hi Hf). simpl.
        rewrite getContract_compileCount. simpl. rewrite Hmiss, Hi, Hf.
        unfold compileCount. rewrite countEv_snoc. simpl. lia. }
    destruct (getContract cfg fs solc name w) as [res w1] eqn:Hcall. simpl.
    pose proof (getContract_compileCount cfg fs solc name w) as Hfirst.
    rewrite Hcall, Hmiss, Hi, Hf in Hfirst. simpl in Hfirst.
    rewrite getContract_compileCount, Hfirst, Hi, Hf.
    destruct (getContract_cache cfg fs solc name w) as [Hsame|(c & _ & _ & Hok & Hset)];
      rewrite Hcall in *; simpl in *.
    + rewrite Hsame, Hmiss.
      rewrite (getContract_miss cfg fs solc _ _ _ Hmiss Hi Hf) in Hcall.
      cbv zeta in Hcall. case_bool_decide.
      * injection Hcall as <- _. lia.
      * destruct (assoc _ _) as [[|[? contract] ?]|].
        -- injection Hcall as <- _. lia.
        -- injection Hcall as _ <-. simpl in Hsame.
           assert (cache w !! cacheKey cfg name
                   = JsObject.set (cacheKey cfg name) (artifactOf contract)
                       (cache w) !! cacheKey cfg name) as Habs by (by rewrite Hsame).
           rewrite JsObject_lookup_set_eq in Habs by (by apply inherited_proto).
           congruence.
        -- injection Hcall as <- _. lia.
    + subst res. rewrite Hset.
      rewrite JsObject_lookup_set_eq by (by apply inherited_proto). lia.
Qed.

(** The ERC20 template requested twice. *)
Lemma getContract_cache_hit_witness :
  let w1 := (getContract Fixtures.cfg Fixtures.erc20Fs Fixtures.solcWarns
               "ERC20" emptyState).2 in
  getContract Fixtures.cfg Fixtures.erc20Fs Fixtures.solcWarns "ERC20" w1
  = (Ok (Artifact {| bytecode := "6080"; abi := ["constructor"]; metadata := "{}" |}),
     w1)
  ∧ compileCount
      (trace (getContract Fixtures.cfg Fixtures.erc20Fs Fixtures.solcWarns "ERC20" w1).2)
    = compileCount (trace emptyState) + 1.
Proof.
  destruct (getContract_cache_hit Fixtures.cfg Fixtures.erc20Fs Fixtures.solcWarns)
    as (_ & Htwice & _).
  apply (Htwice "ERC20" emptyState).
  - reflexivity.
  - vm_compute. reflexivity.
Defined.

(** C3, as stated, fails when the first of the two calls does not
    return an artifact.  With a compiler that reports an error, two
    calls for [ERC20] from an empty cache invoke the compiler twice and
    both fail.  For a name that the cache object inherits, with a
    template [constructor.sol] in place, two calls for [constructor]
    read nothing, invoke the compiler not once, and return the inherited
    member, not an artifact. *)
Lemma two_calls_need_not_compile_once :
  (let call := getContract Fixtures.cfg Fixtures.erc20Fs Fixtures.solcFails "ERC20" in
   (call emptyState).1 = Err (CompilationErrors [Fixtures.failure]) ∧
   (call (call emptyState).2).1 = Err (CompilationErrors [Fixtures.failure]) ∧
   compileCount (trace (call (call emptyState).2).2) = 2) ∧
  (let call := getContract Fixtures.cfg Fixtures.protoFs Fixtures.solcAny "constructor" in
   Fixtures.protoFs !! entryPath Fixtures.cfg "constructor" = Some "contract C {}" ∧
   call emptyState = (Ok (PrototypeMember "constructor"), emptyState) ∧
   call (call emptyState).2 = (Ok (PrototypeMember "constructor"), emptyState) ∧
   compileCount (trace (call (call emptyState).2).2) = 0 ∧
   getCacheKeys (call (call emptyState).2).2 = []).
Proof. cbv zeta. split_and!; vm_compute; reflexivity. Qed.

(** C4 (as amended).  The root unit is recorded first, under the base
    name of its path without the [.sol] extension.  Every other unit is
    recorded right after the read of an import statement of a file
    recorded earlier, the first import that reaches it (the file has not
    been recorded before and, the root path not being empty, has not
    been read before), with the content read and under a key fixed by
    the specifier: a specifier with the library prefix, or one that
    is neither prefixed nor relative, is its own key; a relative
    specifier is resolved against the importing file, and its key is,
    when the resolved path holds [node_modules/@openzeppelin/contracts/],
    the library prefix followed by the text between the first
    occurrence of that marker and the next one (all that follows the
    first when there is no other), else the path relative to the
    templates root, in both cases with forward slashes.  A file is
    recorded at most once in a resolution, so it has one key there. *)
Theorem source_key_derivation
    cfg (fs : FileSystem) contractSource contractPath before e after :
  let r := resolveAllImports cfg fs contractSource contractPath in
  rtrace r = before ++ e :: after → isRecord e = true →
  ((before = [] ∧
    e = EvRecord contractPath (Path.basename contractPath ".sol") contractSource) ∨
   ∃ earlier parent kp cp importPath contents,
     before = earlier ++ [EvRead (findImports_fullPath cfg importPath (Some parent))] ∧
     EvRecord parent kp cp ∈ earlier ∧
     importPath ∈ ImportScan.scanImports cp ∧
     fs !! findImports_fullPath cfg importPath (Some parent) = Some contents ∧
     (∀ k' c', EvRecord (importFilePath cfg parent importPath) k' c' ∉ before) ∧
     e = EvRecord (importFilePath cfg parent importPath)
           (importSourceKey cfg parent importPath) contents ∧
     (let resolvedPath :=
        Path.resolve (cwdTail cfg) [Path.dirname parent; importPath] in
      importSourceKey cfg parent importPath =
        if JsString.startsWith importPath "@openzeppelin/contracts/" then importPath
        else if JsString.startsWith importPath "./" || JsString.startsWith importPath "../"
        then
          match cutAt "node_modules/@openzeppelin/contracts/" resolvedPath with
          | Some (_, rest) =>
              "@openzeppelin/contracts/" +:+
              JsString.backslashesToSlashes
                (match cutAt "node_modules/@openzeppelin/contracts/" rest with
                 | Some (piece, _) => piece
                 | None => rest
                 end)
          | None =>
              JsString.backslashesToSlashes
                (Path.relative (cwdTail cfg) (contractsDir cfg) resolvedPath)
          end
        else importPath) ∧
     (contractPath ≠ "" →
      importFilePath cfg parent importPath
      = findImports_fullPath cfg importPath (Some parent) ∧
      EvRead (findImports_fullPath cfg importPath (Some parent)) ∉ earlier))
  ∧ ∀ q, recordCount q (rtrace r) ≤ 1.
Proof.
  intros r Htr Hrec. subst r. split.
  - pose proof (resolveAllImports_justified cfg fs contractSource contractPath
                  before e after Htr) as Hj.
    destruct e as [|q k c| |]; try discriminate.
    destruct Hj as [Hfirst [->|Himp]].
    + left. split; [done|].
      destruct (resolveAllImports_trace_head cfg fs contractSource contractPath)
        as [tail Hhead].
      rewrite Hhead in Htr. cbn [app] in Htr. congruence.
    + right.
      destruct Himp as (earlier & parent & kp & cp & imp & -> & Hp & Hi & Hf & -> & ->).
      exists earlier, parent, kp, cp, imp, c.
      split_and!; [done..|apply importSourceKey_cutAt|].
      intros Hne.
      assert (parent ≠ "") as Hparent.
      { apply (resolveAllImports_recorded_nonempty cfg fs contractSource contractPath
                 parent kp cp Hne).
        rewrite Htr, <- app_assoc. apply elem_of_app. by left. }
      pose proof (importFilePath_fullPath cfg parent imp Hparent) as Hpath.
      split; [done|]. rewrite Hpath in Htr.
      apply (resolveAllImports_first_read cfg fs contractSource contractPath
               earlier _ _ _ after Hne Htr).
      by eexists.
  - intros q. rewrite (inv_count _ (resolveAllImports_Inv cfg fs contractSource contractPath)).
    case_decide; lia.
Qed.

(** The record of B in the tree in which A and B import each other. *)
Lemma source_key_derivation_witness :
  ([EvRecord Fixtures.pathA "A" Fixtures.srcA; EvRead Fixtures.pathB] = [] ∧
   EvRecord Fixtures.pathB "B.sol" Fixtures.srcB
   = EvRecord Fixtures.pathA (Path.basename Fixtures.pathA ".sol") Fixtures.srcA)
  ∨ ∃ earlier parent kp cp importPath contents,
      [EvRecord Fixtures.pathA "A" Fixtures.srcA; EvRead Fixtures.pathB]
      = earlier ++ [EvRead (findImports_fullPath Fixtures.cfg importPath (Some parent))] ∧
      EvRecord parent kp cp ∈ earlier ∧
      importPath ∈ ImportScan.scanImports cp ∧
      Fixtures.cycleFs !! findImports_fullPath Fixtures.cfg importPath (Some parent)
      = Some contents ∧
      EvRecord Fixtures.pathB "B.sol" Fixtures.srcB
      = EvRecord (importFilePath Fixtures.cfg parent importPath)
          (importSourceKey Fixtures.cfg parent importPath) contents.
Proof.
  destruct (source_key_derivation Fixtures.cfg Fixtures.cycleFs
              Fixtures.srcA Fixtures.pathA
              [EvRecord Fixtures.pathA "A" Fixtures.srcA; EvRead Fixtures.pathB]
              (EvRecord Fixtures.pathB "B.sol" Fixtures.srcB)
              [EvRead Fixtures.pathA]) as [[Hroot|Himp] _].
  - vm_compute. reflexivity.
  - reflexivity.
  - left. exact Hroot.
  - right.
    destruct Himp as (earlier & parent & kp & cp & importPath & contents
                      & Hbefore & Hp & Hi & Hf & _ & He & _).
    exists earlier, parent, kp, cp, importPath, contents.
    exact (conj Hbefore (conj Hp (conj Hi (conj Hf He)))).
Defined.

(** C4, as stated, fails for the root unit, whose key has no extension
    and is not its path relative to the templates root; and two
    spellings of an import of one file give two keys. *)
Lemma root_key_is_not_relative_path :
  let r := resolveAllImports Fixtures.cfg Fixtures.erc20Fs
             Fixtures.srcERC20 Fixtures.pathERC20 in
  EvRecord Fixtures.pathERC20 "ERC20" Fixtures.srcERC20 ∈ rtrace r ∧
  JsString.startsWith Fixtures.pathERC20 (ozContractsDir Fixtures.cfg) = false ∧
  Path.relative (cwdTail Fixtures.cfg) (contractsDir Fixtures.cfg) Fixtures.pathERC20
  = "ERC20.sol" ∧
  importFilePath Fixtures.cfg Fixtures.pathERC20 "./D.sol"
  = importFilePath Fixtures.cfg Fixtures.pathERC20 "sub/../D.sol" ∧
  importSourceKey Fixtures.cfg Fixtures.pathERC20 "./D.sol" = "D.sol" ∧
  importSourceKey Fixtures.cfg Fixtures.pathERC20 "sub/../D.sol" = "sub/../D.sol".
Proof.
  cbv zeta. split_and!; try (vm_compute; reflexivity).
  apply list_elem_of_In. vm_compute. auto.
Qed.

(** C5 (as amended).  With the two roots of the instance absolute, and
    the importing file, when known, named by an absolute path,
    [findImports] classifies a specifier by the first rule that
    applies.  With the library prefix, the prefix is dropped and the
    rest is joined with the library root, unless the rest starts with a
    slash: then the rest alone is the path.  Starting with [./] or
    [../], the specifier is joined with the directory of the importing
    file when that file is known (and its name not empty), else with
    the templates root.  Any other specifier is joined with the
    templates root, unless it starts with a slash: then it is the path
    itself.  The file read is the one at that path.  From
    [templates/Root.sol] the three kinds of specifier lead under the
    library root, into the templates directory and into the templates
    directory. *)
Theorem findImports_classification cfg (fs : FileSystem) importPath basePath :
  JsString.startsWith (contractsDir cfg) "/" = true →
  JsString.startsWith (ozContractsDir cfg) "/" = true →
  (∀ base, basePath = Some base → base = "" ∨ JsString.startsWith base "/" = true) →
  let remainder :=
    JsString.drop (String.length "@openzeppelin/contracts/") importPath in
  let importerDir :=
    match basePath with
    | Some base => if JsString.truthy base then Path.dirname base
                   else contractsDir cfg
    | None => contractsDir cfg
    end in
  let fullPath :=
    if JsString.startsWith importPath "@openzeppelin/contracts/" then
      if JsString.startsWith remainder "/" then joined "" remainder
      else joined (ozContractsDir cfg) remainder
    else if JsString.startsWith importPath "./" || JsString.startsWith importPath "../"
    then joined importerDir importPath
    else if JsString.startsWith importPath "/" then joined "" importPath
    else joined (contractsDir cfg) importPath in
  findImports_fullPath cfg importPath basePath = fullPath
  ∧ findImports cfg fs importPath basePath =
      match fs !! fullPath with
      | Some contents => Ok contents
      | None => Err (ImportNotFound importPath basePath)
      end
  ∧ findImports_fullPath Fixtures.cfg "@openzeppelin/contracts/x/Y.sol"
      (Some (Fixtures.inTemplates "Root.sol")) = Fixtures.inLibrary "x/Y.sol"
  ∧ findImports_fullPath Fixtures.cfg "./Z.sol"
      (Some (Fixtures.inTemplates "Root.sol")) = Fixtures.inTemplates "Z.sol"
  ∧ findImports_fullPath Fixtures.cfg "W.sol"
      (Some (Fixtures.inTemplates "Root.sol")) = Fixtures.inTemplates "W.sol".
Proof.
  intros Hc Ho Hbase remainder importerDir fullPath.
  assert (findImports_fullPath cfg importPath basePath = fullPath) as Hpath
    by (by apply findImports_fullPath_joined).
  split_and!; [done| |by vm_compute..].
  unfold findImports. by rewrite Hpath.
Qed.

(** A relative import of the sample tree. *)
Lemma findImports_classification_witness :
  findImports_fullPath Fixtures.cfg "./Z.sol" (Some (Fixtures.inTemplates "Root.sol"))
  = joined (Path.dirname (Fixtures.inTemplates "Root.sol")) "./Z.sol".
Proof.
  apply (findImports_classification Fixtures.cfg Fixtures.cycleFs "./Z.sol"
           (Some (Fixtures.inTemplates "Root.sol"))).
  - vm_compute. reflexivity.
  - vm_compute. reflexivity.
  - intros base [= <-]. right. reflexivity.
Defined.

(** C5, as stated, fails for a remainder or a specifier that starts
    with a slash: it is not joined with the root, it replaces it, and
    the file read lies outside both roots. *)
Lemma absolute_specifier_leaves_the_roots :
  let base := Some (Fixtures.inTemplates "Root.sol") in
  findImports_fullPath Fixtures.cfg "@openzeppelin/contracts//etc/passwd" base
  = "/etc/passwd" ∧
  joined (ozContractsDir Fixtures.cfg) "/etc/passwd"
  = "/app/node_modules/@openzeppelin/contracts/etc/passwd" ∧
  findImports_fullPath Fixtures.cfg "/etc/passwd" base = "/etc/passwd" ∧
  joined (contractsDir Fixtures.cfg) "/etc/passwd"
  = "/app/apps/contracts/src/contracts/etc/passwd" ∧
  findImports Fixtures.cfg {[ "/etc/passwd" := "root" ]} "/etc/passwd" base
  = Ok "root".
Proof. cbv zeta. split_and!; vm_compute; reflexivity. Qed.

(** C6.  When the compiler is invoked for a name (the cache object has
    nothing under its key, neither an entry of its own nor a member
    inherited from [Object.prototype], and the entry file is read) and
    it answers with warnings only and with a contract for the entry
    unit, [getContract] succeeds: it returns the artifact taken from
    the first contract of the entry unit and stores it in the cache
    under the key of the name, so that the next call is answered from
    the cache. *)
Theorem warnings_do_not_fail
    cfg (fs : FileSystem) solc name source w ckey contract more :
  cache w !! cacheKey cfg name = None →
  JsObject.inherited (cacheKey cfg name) = false →
  fs !! entryPath cfg name = Some source →
  (∀ d, d ∈ default [] (errors (compilerOutput cfg fs solc name source)) →
        severity d = "warning") →
  assoc (cacheKey cfg name) (contracts (compilerOutput cfg fs solc name source))
  = Some ((ckey, contract) :: more) →
  let compiled :=
    {| bytecode := co_bytecode_object contract; abi := co_abi contract;
       metadata := co_metadata contract |} in
  let w1 := (getContract cfg fs solc name w).2 in
  (getContract cfg fs solc name w).1 = Ok (Artifact compiled) ∧
  compileCount (trace w1) = compileCount (trace w) + 1 ∧
  cache w1 = JsObject.set (cacheKey cfg name) compiled (cache w) ∧
  cache w1 !! cacheKey cfg name = Some compiled ∧
  cacheKey cfg name ∈ getCacheKeys w1 ∧
  getContract cfg fs solc name w1 = (Ok (Artifact compiled), w1).
Proof.
  intros Hmiss Hown Hf Hwarn Hout compiled w1. subst w1.
  pose proof (inherited_proto _ Hown) as Hproto.
  pose proof (getContract_compileCount cfg fs solc name w) as Hcount.
  rewrite Hmiss, Hown, Hf in Hcount.
  rewrite (getContract_miss cfg fs solc _ _ _ Hmiss Hown Hf) in *. cbv zeta in *.
  rewrite (errorDiagnostics_none _ Hwarn) in *. simpl in *. rewrite Hout in *.
  simpl in *.
  split_and!; [done..| | |].
  - by apply JsObject_lookup_set_eq.
  - apply elem_of_getCacheKeys. simpl. rewrite JsObject_lookup_set_eq by done.
    by eexists.
  - apply getContract_hit. simpl. by apply JsObject_lookup_set_eq.
Qed.

(** The ERC20 template with a compiler that reports a warning. *)
Lemma warnings_do_not_fail_witness :
  (getContract Fixtures.cfg Fixtures.erc20Fs Fixtures.solcWarns "ERC20" emptyState).1
  = Ok (Artifact {| bytecode := "6080"; abi := ["constructor"]; metadata := "{}" |})
  ∧ "ERC20" ∈ getCacheKeys
      (getContract Fixtures.cfg Fixtures.erc20Fs Fixtures.solcWarns "ERC20" emptyState).2.
Proof.
  destruct (warnings_do_not_fail Fixtures.cfg Fixtures.erc20Fs Fixtures.solcWarns
              "ERC20" Fixtures.srcERC20 emptyState
              "StabilityERC20" Fixtures.outERC20 [])
    as (Hres & _ & _ & _ & Hkeys & _).
  - reflexivity.
  - vm_compute. reflexivity.
  - reflexivity.
  - intros d Hd. apply list_elem_of_singleton in Hd. by subst d.
  - vm_compute. reflexivity.
  - split; [exact Hres|]. vm_compute in Hkeys. vm_compute. exact Hkeys.
Defined.

(** C7.  An import whose file cannot be read does not stop the
    resolution: the loop reports it, leaves the table and the visited
    set as they are, and goes on with the remaining imports.  In a whole
    resolution the warning names the specifier and the importing file,
    the resolution ends, and every file that can be reached is still
    recorded. *)
Theorem unreadable_import_is_skipped cfg (fs : FileSystem) :
  (∀ rec filePath importPath rest st,
     fs !! findImports_fullPath cfg importPath (Some filePath) = None →
     let st' := warn importPath filePath
                  (emit (EvRead (findImports_fullPath cfg importPath (Some filePath))) st) in
     processImports cfg fs rec filePath (importPath :: rest) st
     = processImports cfg fs rec filePath rest st'
     ∧ sources st' = sources st ∧ processedPaths st' = processedPaths st) ∧
  (∀ contractSource contractPath q source importPath,
     fs !! contractPath = Some contractSource → contractPath ≠ "" →
     Reachable cfg fs contractPath q → fs !! q = Some source →
     importPath ∈ ImportScan.scanImports source →
     fs !! findImports_fullPath cfg importPath (Some q) = None →
     let r := resolveAllImports cfg fs contractSource contractPath in
     EvWarn importPath q
       ("Import not found: " +:+ importPath +:+ " (base: " +:+ q +:+ ")") ∈ rtrace r ∧
     (∀ n, resolveAllImports_fuel cfg fs (fuelBound fs contractSource + n)
             contractSource contractPath = Some r) ∧
     (∀ q' content, Reachable cfg fs contractPath q' → fs !! q' = Some content →
        recordCount q' (rtrace r) = 1 ∧ ∃ k, EvRecord q' k content ∈ rtrace r)).
Proof.
  split.
  - intros rec filePath importPath rest st Hnone. cbv zeta. split; [|done].
    apply processImports_missing with (e := ImportNotFound importPath (Some filePath)).
    unfold findImports. by rewrite Hnone.
  - intros contractSource contractPath q source importPath Hroot Hne Hq Hfs Himp Hnone.
    cbv zeta. split_and!.
    + by eapply resolveAllImports_warned.
    + intros n. apply resolveAllImports_fuel_spec. lia.
    + intros q' content Hq' Hfs'. by apply resolveAllImports_recorded.
Qed.

(** A template whose first import is missing and whose second is not. *)
Lemma unreadable_import_is_skipped_witness :
  let r := resolveAllImports Fixtures.cfg Fixtures.brokenFs
             Fixtures.srcBroken Fixtures.pathBroken in
  EvWarn "./Missing.sol" Fixtures.pathBroken
    ("Import not found: ./Missing.sol (base: " +:+ Fixtures.pathBroken +:+ ")")
    ∈ rtrace r
  ∧ recordCount Fixtures.pathD (rtrace r) = 1.
Proof.
  destruct (unreadable_import_is_skipped Fixtures.cfg Fixtures.brokenFs) as [_ H].
  destruct (H Fixtures.srcBroken Fixtures.pathBroken Fixtures.pathBroken
              Fixtures.srcBroken "./Missing.sol") as (Hwarn & _ & Hrec).
  - reflexivity.
  - discriminate.
  - constructor.
  - reflexivity.
  - apply list_elem_of_In. vm_compute. auto.
  - vm_compute. reflexivity.
  - split; [exact Hwarn|].
    apply (Hrec Fixtures.pathD Fixtures.srcD); [|reflexivity].
    eapply Reachable_step with (parent := Fixtures.pathBroken) (imp := "./D.sol").
    + constructor.
    + reflexivity.
    + apply list_elem_of_In. vm_compute. auto.
    + vm_compute. reflexivity.
    + eexists. reflexivity.
Defined.

(** C8 (as amended).  When two distinct files of a tree both import a
    common third file, that file is recorded exactly once, under one
    key, whoever reaches it: the visited set is keyed by resolved
    absolute path.  The table has at most one entry under that key; it
    is the entry of the shared file, with its content, unless the key
    is [__proto__] or is given to another file as well.  The file is
    read once for every import statement that names it, hence at least
    twice. *)
Theorem shared_import_recorded_once
    cfg (fs : FileSystem) contractSource contractPath
    sibling1 sibling2 source1 source2 import1 import2 shared content :
  fs !! contractPath = Some contractSource → contractPath ≠ "" →
  Reachable cfg fs contractPath sibling1 →
  Reachable cfg fs contractPath sibling2 →
  sibling1 ≠ sibling2 →
  fs !! sibling1 = Some source1 → fs !! sibling2 = Some source2 →
  import1 ∈ ImportScan.scanImports source1 →
  import2 ∈ ImportScan.scanImports source2 →
  findImports_fullPath cfg import1 (Some sibling1) = shared →
  findImports_fullPath cfg import2 (Some sibling2) = shared →
  fs !! shared = Some content →
  let r := resolveAllImports cfg fs contractSource contractPath in
  recordCount shared (rtrace r) = 1 ∧
  (∃ k,
     EvRecord shared k content ∈ rtrace r ∧
     (∀ k' c', EvRecord shared k' c' ∈ rtrace r → k' = k ∧ c' = content) ∧
     (∀ c1 c2, (k, c1) ∈ sources r → (k, c2) ∈ sources r → c1 = c2) ∧
     (k ≠ "__proto__" →
      (∀ q' c', EvRecord q' k c' ∈ rtrace r → q' = shared) →
      (k, content) ∈ sources r)) ∧
  readCount shared (rtrace r) = expectedReads cfg shared (rtrace r) ∧
  2 ≤ readCount shared (rtrace r).
Proof.
  intros Hroot Hne Hr1 Hr2 Hdiff Hf1 Hf2 Hi1 Hi2 Hp1 Hp2 Hshared r.
  subst r.
  pose proof (resolveAllImports_Inv cfg fs contractSource contractPath) as HI.
  assert (Reachable cfg fs contractPath shared) as Hreach
    by (eapply Reachable_step with (parent := sibling1); eauto).
  destruct (resolveAllImports_recorded cfg fs contractSource contractPath Hroot Hne
              shared content Hreach Hshared) as [Hcount [k Hrec]].
  split_and!.
  - exact Hcount.
  - exists k. split_and!.
    + exact Hrec.
    + intros k' c' Hrec'. by apply (inv_unique _ HI shared).
    + intros c1 c2. apply NoDup_keys_functional, (inv_keys _ HI).
    + intros Hproto Hown. apply JsObject_lookup_elem.
      by apply (resolveAllImports_lookup_own cfg fs _ _ shared).
  - apply resolveAllImports_reads.
  - rewrite resolveAllImports_reads.
    destruct (resolveAllImports_recorded cfg fs contractSource contractPath Hroot Hne
                sibling1 source1 Hr1 Hf1) as [_ [k1 Hrec1]].
    destruct (resolveAllImports_recorded cfg fs contractSource contractPath Hroot Hne
                sibling2 source2 Hr2 Hf2) as [_ [k2 Hrec2]].
    pose proof (expectedReads_two cfg shared _ _ _ Hrec1 Hrec2) as Htwo.
    simpl in Htwo.
    pose proof (pending_pos cfg shared sibling1 import1 _ Hi1 Hp1).
    pose proof (pending_pos cfg shared sibling2 import2 _ Hi2 Hp2).
    assert (EvRecord sibling1 k1 source1 ≠ EvRecord sibling2 k2 source2)
      by congruence.
    specialize (Htwo ltac:(done)). lia.
Qed.

(** The diamond Root -> L, R -> D. *)
Lemma shared_import_recorded_once_witness :
  let r := resolveAllImports Fixtures.cfg Fixtures.diamondFs
             Fixtures.srcRoot Fixtures.pathRoot in
  recordCount Fixtures.pathD (rtrace r) = 1 ∧
  (∃ k,
     EvRecord Fixtures.pathD k Fixtures.srcD ∈ rtrace r ∧
     (∀ k' c', EvRecord Fixtures.pathD k' c' ∈ rtrace r → k' = k ∧ c' = Fixtures.srcD) ∧
     (∀ c1 c2, (k, c1) ∈ sources r → (k, c2) ∈ sources r → c1 = c2) ∧
     (k ≠ "__proto__" →
      (∀ q' c', EvRecord q' k c' ∈ rtrace r → q' = Fixtures.pathD) →
      (k, Fixtures.srcD) ∈ sources r)) ∧
  readCount Fixtures.pathD (rtrace r)
  = expectedReads Fixtures.cfg Fixtures.pathD (rtrace r) ∧
  2 ≤ readCount Fixtures.pathD (rtrace r).
Proof.
  apply (shared_import_recorded_once Fixtures.cfg Fixtures.diamondFs
           Fixtures.srcRoot Fixtures.pathRoot
           Fixtures.pathL Fixtures.pathR Fixtures.srcL Fixtures.srcR
           "./D.sol" "./D.sol" Fixtures.pathD Fixtures.srcD).
  - reflexivity.
  - discriminate.
  - eapply Reachable_step with (parent := Fixtures.pathRoot) (imp := "./L.sol").
    + constructor.
    + reflexivity.
    + apply list_elem_of_In. vm_compute. auto.
    + vm_compute. reflexivity.
    + eexists. reflexivity.
  - eapply Reachable_step with (parent := Fixtures.pathRoot) (imp := "./R.sol").
    + constructor.
    + reflexivity.
    + apply list_elem_of_In. vm_compute. auto.
    + vm_compute. reflexivity.
    + eexists. reflexivity.
  - discriminate.
  - reflexivity.
  - reflexivity.
  - apply list_elem_of_In. vm_compute. auto.
  - apply list_elem_of_In. vm_compute. auto.
  - vm_compute. reflexivity.
  - vm_compute. reflexivity.
  - reflexivity.
Defined.

(** C8, as stated, fails on the reads: in the diamond Root -> L, R -> D
    the file D is recorded once and has one entry in the table, but it
    is read twice, once for each importer.  It fails on the entry when
    the key of the shared file is given to another file later: P and Q
    both import the copy of a library file, Q imports the library file
    too, and the table ends with the content of the library file under
    the key of the copy, and with no entry for the copy. *)
Lemma shared_import_read_twice :
  (let r := resolveAllImports Fixtures.cfg Fixtures.diamondFs
              Fixtures.srcRoot Fixtures.pathRoot in
   recordCount Fixtures.pathD (rtrace r) = 1 ∧
   readCount Fixtures.pathD (rtrace r) = 2 ∧
   rtrace r =
     [EvRecord Fixtures.pathRoot "Root" Fixtures.srcRoot;
      EvRead Fixtures.pathL; EvRecord Fixtures.pathL "L.sol" Fixtures.srcL;
      EvRead Fixtures.pathD; EvRecord Fixtures.pathD "D.sol" Fixtures.srcD;
      EvRead Fixtures.pathR; EvRecord Fixtures.pathR "R.sol" Fixtures.srcR;
      EvRead Fixtures.pathD] ∧
   sources r =
     [("Root", Fixtures.srcRoot); ("L.sol", Fixtures.srcL);
      ("D.sol", Fixtures.srcD); ("R.sol", Fixtures.srcR)]) ∧
  (let r := resolveAllImports Fixtures.cfg Fixtures.sharedCopyFs
              Fixtures.srcTop Fixtures.pathTop in
   findImports_fullPath Fixtures.cfg "./node_modules/@openzeppelin/contracts/X.sol"
     (Some Fixtures.pathP) = Fixtures.pathCopyX ∧
   findImports_fullPath Fixtures.cfg "./node_modules/@openzeppelin/contracts/X.sol"
     (Some Fixtures.pathQ) = Fixtures.pathCopyX ∧
   recordCount Fixtures.pathCopyX (rtrace r) = 1 ∧
   readCount Fixtures.pathCopyX (rtrace r) = 2 ∧
   sources r =
     [("Top", Fixtures.srcTop); ("P.sol", Fixtures.srcP);
      ("@openzeppelin/contracts/X.sol", Fixtures.srcLibX);
      ("Q.sol", Fixtures.srcQ)]).
Proof. cbv zeta. split_and!; vm_compute; reflexivity. Qed.

(** C9.  Resolution is deterministic: two runs on the same tree from the
    same root, whatever recursion depth each is allowed, end with the
    same key-to-content table (same keys, same contents, same order),
    and a run allowed at least [fuelBound] ends. *)
Theorem resolveAllImports_deterministic cfg (fs : FileSystem) contractSource contractPath :
  (∀ fuel1 fuel2 r1 r2,
     resolveAllImports_fuel cfg fs fuel1 contractSource contractPath = Some r1 →
     resolveAllImports_fuel cfg fs fuel2 contractSource contractPath = Some r2 →
     sources r1 = sources r2) ∧
  (∀ n m,
     resolveAllImports_fuel cfg fs (fuelBound fs contractSource + n)
       contractSource contractPath
     = resolveAllImports_fuel cfg fs (fuelBound fs contractSource + m)
         contractSource contractPath
     ∧ is_Some (resolveAllImports_fuel cfg fs (fuelBound fs contractSource + n)
                  contractSource contractPath)).
Proof.
  split.
  - intros fuel1 fuel2 r1 r2 H1 H2. f_equal.
    unfold resolveAllImports_fuel in *. by eapply processFile_deterministic.
  - intros n m.
    rewrite !resolveAllImports_fuel_spec by lia. split; [done|by eexists].
Qed.

(** Two runs, of depth 7 and 3, on the tree in which A and B import
    each other. *)
Lemma resolveAllImports_deterministic_witness :
  sources (resolveAllImports Fixtures.cfg Fixtures.cycleFs Fixtures.srcA Fixtures.pathA)
  = [("A", Fixtures.srcA); ("B.sol", Fixtures.srcB)].
Proof.
  destruct (resolveAllImports_deterministic Fixtures.cfg Fixtures.cycleFs
              Fixtures.srcA Fixtures.pathA) as [Hsame _].
  apply (Hsame 7 3
           (resolveAllImports Fixtures.cfg Fixtures.cycleFs Fixtures.srcA Fixtures.pathA)
           {| sources := [("A", Fixtures.srcA); ("B.sol", Fixtures.srcB)];
              processedPaths := {[Fixtures.pathA; Fixtures.pathB]};
              rtrace := [EvRecord Fixtures.pathA "A" Fixtures.srcA;
                         EvRead Fixtures.pathB;
                         EvRecord Fixtures.pathB "B.sol" Fixtures.srcB;
                         EvRead Fixtures.pathA] |}).
  - vm_compute. reflexivity.
  - vm_compute. reflexivity.
Defined.

(** C10.  The cache key of [getContract name] is the base name of the
    entry path without its extension, that is, the last segment of the
    name ([.sol] when that is empty), not the name itself.  It is under
    this key that [getContract] looks up (an entry under the key is
    returned, whatever the rest of the name) and stores (a call that
    compiles assigns its artifact to the key and touches no other
    key).  No key of the cache contains a path separator, and after a
    call for one name that returned an artifact, a call for another
    name with the same last segment is a cache hit that returns this
    artifact: so for [a/Foo] and [b/Foo]. *)
Theorem cache_key_is_base_name cfg (fs : FileSystem) solc :
  let key := λ name,
    if decide (lastSegment name = "") then ".sol" else lastSegment name in
  (∀ name,
     cacheKey cfg name = Path.basename (entryPath cfg name) ".sol" ∧
     cacheKey cfg name = key name) ∧
  (∀ name w compiled,
     cache w !! key name = Some compiled →
     getContract cfg fs solc name w = (Ok (Artifact compiled), w)) ∧
  (∀ name w compiled w1,
     cache w !! key name = None →
     getContract cfg fs solc name w = (Ok (Artifact compiled), w1) →
     cache w1 = JsObject.set (key name) compiled (cache w) ∧
     cache w1 !! key name = Some compiled ∧
     (∀ k, k ≠ key name → cache w1 !! k = cache w !! k) ∧
     (∀ k, k ∈ getCacheKeys w1 ↔ k = key name ∨ k ∈ getCacheKeys w)) ∧
  (∀ w k, reachable cfg fs solc w → k ∈ getCacheKeys w → noSlash k = true) ∧
  (∀ name1 name2 w compiled w1,
     lastSegment name1 = lastSegment name2 →
     getContract cfg fs solc name1 w = (Ok (Artifact compiled), w1) →
     getContract cfg fs solc name2 w1 = (Ok (Artifact compiled), w1)) ∧
  cacheKey cfg "a/Foo" = "Foo" ∧ cacheKey cfg "b/Foo" = "Foo" ∧
  (let w1 := (getContract Fixtures.cfg Fixtures.fooFs Fixtures.solcAny
                "a/Foo" emptyState).2 in
   getCacheKeys w1 = ["Foo"] ∧
   getContract Fixtures.cfg Fixtures.fooFs Fixtures.solcAny "b/Foo" w1
   = (Ok (Artifact {| bytecode := "contract FooA {}"; abi := []; metadata := "" |}),
      w1)).
Proof.
  intros key. subst key. cbv beta. split_and!.
  - intros name. split; [done|apply cacheKey_spec].
  - intros name w compiled Hc. rewrite <- (cacheKey_spec cfg) in Hc.
    by apply getContract_hit.
  - intros name w compiled w1 Hmiss Hcall. rewrite <- !(cacheKey_spec cfg) in *.
    destruct (getContract_success_inv cfg fs solc _ _ _ _ Hmiss Hcall)
      as (source & ckey & contract & more & Hown & _ & _ & _ & _ & ->).
    pose proof (inherited_proto _ Hown) as Hproto. cbn [cache].
    split_and!.
    + done.
    + by apply JsObject_lookup_set_eq.
    + intros k Hk. by apply JsObject_lookup_set_ne.
    + intros k. unfold getCacheKeys. cbn [cache].
      rewrite JsObject_elem_of_keys_set. split.
      * intros [?|[? _]]; auto.
      * intros [->|?]; auto.
  - intros w k Hw Hk. apply elem_of_getCacheKeys in Hk.
    destruct (reachable_keys cfg fs solc w Hw k Hk) as [_ [name ->]].
    apply cacheKey_noSlash.
  - intros name1 name2 w compiled w1 Hkey Hcall.
    apply getContract_hit.
    assert (cacheKey cfg name2 = cacheKey cfg name1) as ->
      by (by rewrite !cacheKey_spec, Hkey).
    by eapply getContract_Ok_cached.
  - by rewrite cacheKey_spec.
  - by rewrite cacheKey_spec.
  - cbv zeta. split; vm_compute; reflexivity.
Qed.

(** The names [a/Foo] and [b/Foo]. *)
Lemma cache_key_is_base_name_witness :
  noSlash "Foo" = true ∧
  getContract Fixtures.cfg Fixtures.fooFs Fixtures.solcAny "b/Foo"
    (getContract Fixtures.cfg Fixtures.fooFs Fixtures.solcAny "a/Foo" emptyState).2
  = (Ok (Artifact {| bytecode := "contract FooA {}"; abi := []; metadata := "" |}),
     (getContract Fixtures.cfg Fixtures.fooFs Fixtures.solcAny "a/Foo" emptyState).2).
Proof.
  destruct (cache_key_is_base_name Fixtures.cfg Fixtures.fooFs Fixtures.solcAny)
    as (_ & _ & _ & Hkeys & Hshare & _).
  split.
  - apply (Hkeys (getContract Fixtures.cfg Fixtures.fooFs Fixtures.solcAny
                    "a/Foo" emptyState).2).
    + apply reachable_getContract, reachable_init.
    + apply list_elem_of_In. vm_compute. auto.
  - apply (Hshare "a/Foo" "b/Foo" emptyState).
    + vm_compute. reflexivity.
    + vm_compute. reflexivity.
Defined.

(** * Further properties of the cache *)

(** X1.  A call of [getContract] that fails, for whatever reason (the
    entry file cannot be read, the compiler reports an error, its answer
    has no contract for the entry unit), leaves the cache as it was. *)
Theorem getContract_failure_keeps_cache cfg (fs : FileSystem) solc name w e :
  (getContract cfg fs solc name w).1 = Err e →
  cache (getContract cfg fs solc name w).2 = cache w ∧
  getCacheKeys (getContract cfg fs solc name w).2 = getCacheKeys w.
Proof.
  intros Hfail.
  assert (cache (getContract cfg fs solc name w).2 = cache w) as Hcache.
  { destruct (getContract_cache cfg fs solc name w) as [?|(c & _ & _ & Hok & _)]; [done|].
    rewrite Hok in Hfail. done. }
  split; [done|]. unfold getCacheKeys. by rewrite Hcache.
Qed.

(** After the ERC20 template is compiled, a request for a template that
    does not exist. *)
Lemma getContract_failure_keeps_cache_witness :
  let w := (getContract Fixtures.cfg Fixtures.erc20Fs Fixtures.solcWarns
              "ERC20" emptyState).2 in
  (getContract Fixtures.cfg Fixtures.erc20Fs Fixtures.solcWarns "Missing" w).1
  = Err (ReadFailed (Fixtures.inTemplates "Missing.sol"))
  ∧ getCacheKeys
      (getContract Fixtures.cfg Fixtures.erc20Fs Fixtures.solcWarns "Missing" w).2
    = ["ERC20"].
Proof.
  intros w.
  assert ((getContract Fixtures.cfg Fixtures.erc20Fs Fixtures.solcWarns "Missing" w).1
          = Err (ReadFailed (Fixtures.inTemplates "Missing.sol"))) as Hfail
    by (by vm_compute).
  split; [exact Hfail|].
  rewrite (proj2 (getContract_failure_keeps_cache Fixtures.cfg Fixtures.erc20Fs
                    Fixtures.solcWarns "Missing" w _ Hfail)).
  by vm_compute.
Defined.

(** X2.  [getContract] never removes or replaces an entry of the cache:
    what is cached stays cached with the same artifact.  The only key a
    call can add is the cache key of the requested name, and it adds it
    only with the artifact it returns: after any call, first or not,
    the keys are the keys there were, with at most that one more, and
    no key inherited from [Object.prototype] is ever among them. *)
Theorem getContract_keeps_entries cfg (fs : FileSystem) solc name w :
  (∀ k compiled,
     cache w !! k = Some compiled →
     cache (getContract cfg fs solc name w).2 !! k = Some compiled) ∧
  (∀ k, k ∈ getCacheKeys (getContract cfg fs solc name w).2 →
        k ∈ getCacheKeys w ∨
        (k = cacheKey cfg name ∧ JsObject.inherited k = false ∧
         ∃ compiled,
           (getContract cfg fs solc name w).1 = Ok (Artifact compiled) ∧
           cache (getContract cfg fs solc name w).2 !! k = Some compiled)) ∧
  (getCacheKeys w = [] →
   getCacheKeys (getContract cfg fs solc name w).2 = [] ∨
   getCacheKeys (getContract cfg fs solc name w).2 = [cacheKey cfg name]).
Proof.
  destruct (getContract_cache cfg fs solc name w)
    as [Hsame|(c & Hmiss & Hown & Hok & Hset)].
  - split_and!.
    + intros k compiled. by rewrite Hsame.
    + intros k. unfold getCacheKeys. rewrite Hsame. by left.
    + intros Hempty. left. unfold getCacheKeys in *. by rewrite Hsame.
  - pose proof (inherited_proto _ Hown) as Hproto. split_and!.
    + intros k compiled Hk. rewrite Hset, JsObject_lookup_set_ne; [done|].
      intros ->. congruence.
    + intros k. unfold getCacheKeys. rewrite Hset.
      intros [?|[-> _]]%JsObject_elem_of_keys_set; [by left|right].
      split_and!; [done..|]. exists c. split; [done|].
      by apply JsObject_lookup_set_eq.
    + intros Hempty. right. unfold getCacheKeys in *. rewrite Hset.
      unfold JsObject.keys in Hempty. apply fmap_nil_inv in Hempty.
      rewrite Hempty. unfold JsObject.set. rewrite decide_False by done.
      cbn [JsObject.get]. by destruct (JsObject.arrayIndex (cacheKey cfg name)).
Qed.

(** X3.  One call of [getContract] invokes the compiler at most once,
    and exactly when the cache object has nothing under the key of the
    name, neither an entry of its own nor a member inherited from
    [Object.prototype], and the entry file can be read; the entry file
    is read under the first two conditions alone. *)
Theorem getContract_compiles_on_readable_miss cfg (fs : FileSystem) solc name w :
  compileCount (trace (getContract cfg fs solc name w).2) =
  compileCount (trace w) +
  match cache w !! cacheKey cfg name, JsObject.inherited (cacheKey cfg name),
        fs !! entryPath cfg name with
  | None, false, Some _ => 1
  | _, _, _ => 0
  end
  ∧
  readCount (entryPath cfg name) (trace (getContract cfg fs solc name w).2) ≥
  readCount (entryPath cfg name) (trace w) +
  match cache w !! cacheKey cfg name, JsObject.inherited (cacheKey cfg name) with
  | None, false => 1
  | _, _ => 0
  end
  ∧
  (bool_decide (is_Some (cache w !! cacheKey cfg name))
   || JsObject.inherited (cacheKey cfg name) = true →
   getContract cfg fs solc name w
   = (match cache w !! cacheKey cfg name with
      | Some compiled => Ok (Artifact compiled)
      | None => Ok (PrototypeMember (cacheKey cfg name))
      end, w)).
Proof.
  split_and!.
  - apply getContract_compileCount.
  - destruct (cache w !! cacheKey cfg name) as [c|] eqn:Hc.
    { rewrite (getContract_hit cfg fs solc _ _ _ Hc). simpl. lia. }
    destruct (JsObject.inherited (cacheKey cfg name)) eqn:Hi.
    { rewrite (getContract_inherited cfg fs solc _ _ Hc Hi). simpl. lia. }
    assert (∀ tail,
              readCount (entryPath cfg name)
                (trace w ++ EvRead (entryPath cfg name) :: tail)
              ≥ readCount (entryPath cfg name) (trace w) + 1) as Hread.
    { intros tail. unfold readCount. rewrite countEv_app, countEv_cons. simpl.
      rewrite bool_decide_eq_true_2 by done. lia. }
    destruct (fs !! entryPath cfg name) as [source|] eqn:Hf.
    2:{ rewrite (getContract_unreadable cfg fs solc _ _ Hc Hi Hf). apply Hread. }
    rewrite (getContract_miss cfg fs solc _ _ _ Hc Hi Hf). cbv zeta.
    case_bool_decide; [apply Hread|].
    destruct (assoc _ _) as [[|[? contract] ?]|]; apply Hread.
  - destruct (cache w !! cacheKey cfg name) as [c|] eqn:Hc.
    { intros _. by apply getContract_hit. }
    rewrite bool_decide_eq_false_2 by (by intros [? ?]).
    intros Hi. by apply getContract_inherited.
Qed.



(** X5.  In every state the instance can reach, each cache entry is an
    artifact that the compiler produced without error diagnostics: the
    key is the cache key of a name whose entry file can be read, and the
    artifact is the first contract the compiler returned under that
    key. *)
Theorem reachable_cache_entries_are_compiled cfg (fs : FileSystem) solc w k compiled :
  reachable cfg fs solc w → cache w !! k = Some compiled →
  ∃ name source ckey contract more,
    k = cacheKey cfg name ∧
    fs !! entryPath cfg name = Some source ∧
    filter (λ d, isError d)
      (default [] (errors (compilerOutput cfg fs solc name source))) = [] ∧
    assoc k (contracts (compilerOutput cfg fs solc name source))
    = Some ((ckey, contract) :: more) ∧
    compiled = {| bytecode := co_bytecode_object contract; abi := co_abi contract;
                  metadata := co_metadata contract |}.
Proof.
  intros Hw. revert k compiled.
  induction Hw as [|name w Hw IH|w Hw IH]; intros k compiled Hk.
  - done.
  - destruct (getContract_cache cfg fs solc name w)
      as [E|(c & Hmiss & Hown & Hok & E)].
    { rewrite E in Hk. eauto. }
    rewrite E in Hk.
    destruct (decide (k = cacheKey cfg name)) as [->|Hne].
    2:{ rewrite JsObject_lookup_set_ne in Hk by done. eauto. }
    rewrite JsObject_lookup_set_eq in Hk by (by apply inherited_proto).
    injection Hk as ->.
    destruct (getContract cfg fs solc name w) as [res w1] eqn:Hcall.
    simpl in Hok. subst res.
    destruct (getContract_success_inv cfg fs solc _ _ _ _ Hmiss Hcall)
      as (source & ckey & contract & more & _ & Hf & Herr & Hout & -> & _).
    by exists name, source, ckey, contract, more.
  - done.
Qed.

(** The entry left by a request for [a/Foo]. *)
Lemma reachable_cache_entries_are_compiled_witness :
  ∃ name source ckey contract more,
    "Foo" = cacheKey Fixtures.cfg name ∧
    Fixtures.fooFs !! entryPath Fixtures.cfg name = Some source ∧
    filter (λ d, isError d)
      (default [] (errors (compilerOutput Fixtures.cfg Fixtures.fooFs
                             Fixtures.solcAny name source))) = [] ∧
    assoc "Foo" (contracts (compilerOutput Fixtures.cfg Fixtures.fooFs
                              Fixtures.solcAny name source))
    = Some ((ckey, contract) :: more) ∧
    {| bytecode := "contract FooA {}"; abi := []; metadata := "" |}
    = {| bytecode := co_bytecode_object contract; abi := co_abi contract;
         metadata := co_metadata contract |}.
Proof.
  apply (reachable_cache_entries_are_compiled Fixtures.cfg Fixtures.fooFs
           Fixtures.solcAny
           (getContract Fixtures.cfg Fixtures.fooFs Fixtures.solcAny
              "a/Foo" emptyState).2).
  - apply reachable_getContract, reachable_init.
  - by vm_compute.
Defined.

(** X6.  For a name that is not empty and has no slash, the cache key is
    the name itself; two different such names therefore never share a
    cache entry (so [ERC20], [ERC721] and [ERC1155] do not collide). *)
Theorem simple_name_is_its_cache_key cfg name1 name2 :
  name1 ≠ "" → noSlash name1 = true →
  name2 ≠ "" → noSlash name2 = true →
  cacheKey cfg name1 = name1 ∧
  (cacheKey cfg name1 = cacheKey cfg name2 → name1 = name2).
Proof.
  intros Hne1 Hs1 Hne2 Hs2.
  assert (∀ name, name ≠ "" → noSlash name = true → cacheKey cfg name = name) as Hkey.
  { intros name Hne Hs. rewrite cacheKey_spec, lastSegment_id by done.
    by rewrite decide_False. }
  split; [by apply Hkey|]. rewrite !Hkey by done. done.
Qed.

(** The names of two of the standard templates. *)
Lemma simple_name_is_its_cache_key_witness :
  cacheKey Fixtures.cfg "ERC20" = "ERC20" ∧
  (cacheKey Fixtures.cfg "ERC20" = cacheKey Fixtures.cfg "ERC721" → "ERC20" = "ERC721").
Proof.
  apply (simple_name_is_its_cache_key Fixtures.cfg "ERC20" "ERC721"); done.
Defined.

(** * Further properties of the import scan *)

Section ScanMore.
Import ImportScan.

Lemma stripPrefix_startsWith l s :
  JsString.startsWith (string_of_list_ascii s) (string_of_list_ascii l) = false →
  stripPrefix l s = None.
Proof.
  revert s. induction l as [|a l IH]; intros [|c s]; simpl; try done.
  destruct (Ascii.eqb c a); simpl; [apply IH|done].
Qed.

Lemma matchHere_import s :
  JsString.startsWith (string_of_list_ascii s) "import" = false →
  matchHere s = None.
Proof.
  intros Hs. unfold matchHere, importFrom, importBare. cbn [matchItems].
  by rewrite (stripPrefix_startsWith kwImport s Hs).
Qed.

Lemma scan_go_no_import s :
  ∀ skip, JsString.includes (string_of_list_ascii s) "import" = false →
          scan_go s skip = [].
Proof.
  induction s as [|c s IH]; intros skip Hs; [done|].
  cbn [string_of_list_ascii JsString.includes] in Hs.
  apply orb_false_iff in Hs as [Hhere Hrest].
  cbn [scan_go]. destruct skip as [|skip]; [|by apply IH].
  rewrite (matchHere_import (c :: s)) by done. by apply IH.
Qed.

Lemma scanImports_no_import source :
  JsString.includes source "import" = false → scanImports source = [].
Proof.
  intros Hs. unfold scanImports. apply scan_go_no_import.
  by rewrite string_of_list_ascii_of_string.
Qed.

(** What a match of a pattern captures: the text it was given, or, when
    the pattern has a group, a non-empty run of the class of the
    group. *)
Lemma matchItems_capture (f : ascii → bool) (R : list ascii → Prop) :
  (∀ acc, acc ≠ [] → Forall (λ c, f c = true) acc → R acc) →
  ∀ items, (∀ g, GroupPlus g ∈ items → g = f) →
  ∀ s cap r, matchItems items s cap = Some r →
    R cap ∨ (∃ g, GroupPlus g ∈ items) → R r.1.
Proof.
  intros HR. induction items as [|item items IH]; intros Hgroups s cap r Hm Hcap.
  { injection Hm as <-. destruct Hcap as [?|[g Hg]]; [done|].
    by apply not_elem_of_nil in Hg. }
  assert (∀ g, GroupPlus g ∈ items → g = f) as Hgroups'
    by (intros g Hg; apply Hgroups; by apply list_elem_of_further).
  specialize (IH Hgroups').
  assert (∀ s cap' r, matchItems items s cap' = Some r → R cap' → R r.1) as IHcap
    by (intros; eapply IH; eauto).
  destruct item as [l|g|g|g|g]; cbn [matchItems] in Hm.
  - assert (R cap ∨ ∃ g, GroupPlus g ∈ items) as Hcap'.
    { destruct Hcap as [?|[g [?|?]%elem_of_cons]]; [by left|done|by right; exists g]. }
    destruct (stripPrefix l s); [|done]. by eapply IH.
  - assert (R cap ∨ ∃ g', GroupPlus g' ∈ items) as Hcap'.
    { destruct Hcap as [?|[g' [?|?]%elem_of_cons]]; [by left|done|by right; exists g']. }
    destruct s as [|c s]; [done|]. destruct (g c); [|done]. by eapply IH.
  - assert (R cap ∨ ∃ g', GroupPlus g' ∈ items) as Hcap'.
    { destruct Hcap as [?|[g' [?|?]%elem_of_cons]]; [by left|done|by right; exists g']. }
    destruct s as [|c s]; [done|]. destruct (g c); [|done].
    clear c. revert Hm. induction s as [|c s IHs]; intros Hm.
    + by eapply IH.
    + destruct (g c); [|by eapply IH].
      match type of Hm with
      | match ?x with _ => _ end = _ => destruct x as [r'|] eqn:Hstar
      end.
      * injection Hm as <-. by apply IHs.
      * by eapply IH.
  - assert (R cap ∨ ∃ g', GroupPlus g' ∈ items) as Hcap'.
    { destruct Hcap as [?|[g' [?|?]%elem_of_cons]]; [by left|done|by right; exists g']. }
    revert Hm. induction s as [|c s IHs]; intros Hm.
    + destruct (matchItems items [] cap) eqn:Hrest; [|done].
      injection Hm as <-. by eapply IH.
    + destruct (matchItems items (c :: s) cap) eqn:Hrest.
      * injection Hm as <-. by eapply IH.
      * destruct (g c); [|done]. by apply IHs.
  - assert (g = f) as -> by (apply Hgroups, list_elem_of_here).
    destruct s as [|c s]; [done|]. destruct (f c) eqn:Hc; [|done].
    assert ([c] ≠ [] ∧ Forall (λ c, f c = true) [c]) as Hacc
      by (split; [done|by repeat constructor]).
    revert Hm Hacc. generalize [c]. clear c Hc.
    induction s as [|c s IHs]; intros acc Hm [Hne Hall].
    + eapply IHcap; [done|]. apply HR.
      * intros Hrev. apply Hne. by rewrite <- (rev_involutive acc), Hrev.
      * apply Forall_forall. intros x Hx. rewrite Forall_forall in Hall.
        apply Hall. by apply list_elem_of_In, in_rev, list_elem_of_In in Hx.
    + assert (R (rev acc)) as Hrev.
      { apply HR.
        * intros Hrev. apply Hne. by rewrite <- (rev_involutive acc), Hrev.
        * apply Forall_forall. intros x Hx. rewrite Forall_forall in Hall.
          apply Hall. by apply list_elem_of_In, in_rev, list_elem_of_In in Hx. }
      destruct (f c) eqn:Hc; [|by eapply IHcap].
      match type of Hm with
      | match ?x with _ => _ end = _ => destruct x as [r'|] eqn:Hstar
      end.
      * injection Hm as <-. apply (IHs (c :: acc)); [done|].
        split; [done|by constructor].
      * by eapply IHcap.
Qed.

End ScanMore.

(** X7.  Every specifier the import scan returns is a non-empty text
    without a quote character (so that, of the two capture groups of the
    pattern, the one that is taken is always a text, never the empty
    one). *)
Theorem scanImports_specifiers_are_quoted_text source spec :
  spec ∈ ImportScan.scanImports source →
  spec ≠ "" ∧
  ∀ c, c ∈ list_ascii_of_string spec → c ≠ "034"%char ∧ c ≠ "039"%char.
Proof.
  assert (∀ s spec n, ImportScan.matchHere s = Some (spec, n) →
            ∃ cap, spec = string_of_list_ascii cap ∧ cap ≠ [] ∧
                   Forall (λ c, ImportScan.notQuote c = true) cap) as Hhere.
  { intros s spec' n Hm. unfold ImportScan.matchHere in Hm.
    set (R := λ cap : list ascii,
                cap ≠ [] ∧ Forall (λ c, ImportScan.notQuote c = true) cap).
    assert (∀ items r,
              (∀ g, ImportScan.GroupPlus g ∈ items → g = ImportScan.notQuote) →
              ImportScan.GroupPlus ImportScan.notQuote ∈ items →
              ImportScan.matchItems items s [] = Some r → R r.1) as Hcap.
    { intros items r Hgroups Hgroup Hr.
      eapply (matchItems_capture ImportScan.notQuote R); [done|done|done|].
      right. by eexists. }
    assert (∀ items g, items = ImportScan.importFrom ∨ items = ImportScan.importBare →
              ImportScan.GroupPlus g ∈ items → g = ImportScan.notQuote) as Hgroups.
    { intros items g [->| ->] Hg;
        repeat (apply elem_of_cons in Hg as [Hg|Hg];
                [first [discriminate Hg|by injection Hg]|]);
        by apply not_elem_of_nil in Hg. }
    destruct (ImportScan.matchItems ImportScan.importFrom s []) as [[cap rest]|] eqn:H1.
    - injection Hm as <- _. exists cap. split; [done|].
      apply (Hcap ImportScan.importFrom (cap, rest)); [eauto| |done].
      unfold ImportScan.importFrom. repeat first [apply list_elem_of_here|apply list_elem_of_further].
    - destruct (ImportScan.matchItems ImportScan.importBare s []) as [[cap rest]|] eqn:H2;
        [|done].
      injection Hm as <- _. exists cap. split; [done|].
      apply (Hcap ImportScan.importBare (cap, rest)); [eauto| |done].
      unfold ImportScan.importBare. repeat first [apply list_elem_of_here|apply list_elem_of_further]. }
  assert (∀ s skip, spec ∈ ImportScan.scan_go s skip →
            ∃ cap, spec = string_of_list_ascii cap ∧ cap ≠ [] ∧
                   Forall (λ c, ImportScan.notQuote c = true) cap) as Hscan.
  { induction s as [|c s IH]; intros skip Hin; cbn [ImportScan.scan_go] in Hin.
    { by apply not_elem_of_nil in Hin. }
    destruct skip as [|skip]; [|by eapply IH].
    destruct (ImportScan.matchHere (c :: s)) as [[spec' n]|] eqn:Hm; [|by eapply IH].
    apply elem_of_cons in Hin as [->|Hin]; [by eapply Hhere|by eapply IH]. }
  intros Hin. destruct (Hscan _ _ Hin) as (cap & -> & Hne & Hall). split.
  - destruct cap; done.
  - intros c Hc. rewrite list_ascii_of_string_of_list_ascii in Hc.
    rewrite Forall_forall in Hall. specialize (Hall c Hc).
    unfold ImportScan.notQuote, ImportScan.isQuote in Hall.
    split; intros ->; done.
Qed.

(** The specifier of the import of the first file of the sample cycle. *)
Lemma scanImports_specifiers_are_quoted_text_witness :
  "./B.sol" ≠ "" ∧
  ∀ c, c ∈ list_ascii_of_string "./B.sol" → c ≠ "034"%char ∧ c ≠ "039"%char.
Proof.
  apply (scanImports_specifiers_are_quoted_text Fixtures.srcA "./B.sol").
  vm_compute. apply list_elem_of_here.
Defined.

(** X8.  A source that nowhere holds the text [import] has no imports:
    its resolution reads no file and returns the table with the single
    entry of the root, under the base name of its path; the table is
    empty when that base name is [__proto__]. *)
Theorem source_without_import_resolves_alone
    cfg (fs : FileSystem) contractSource contractPath :
  JsString.includes contractSource "import" = false →
  let r := resolveAllImports cfg fs contractSource contractPath in
  sources r =
    (if decide (Path.basename contractPath ".sol" = "__proto__") then []
     else [(Path.basename contractPath ".sol", contractSource)]) ∧
  processedPaths r = {[contractPath]} ∧
  rtrace r = [EvRecord contractPath (Path.basename contractPath ".sol") contractSource].
Proof.
  intros Hs r. subst r.
  pose proof (scanImports_no_import _ Hs) as Hscan.
  unfold resolveAllImports, resolveAllImports_fuel, fuelBound.
  rewrite Hscan. cbn [length Nat.add]. rewrite Nat.add_0_r.
  cbn [processFile]. rewrite decide_False by set_solver.
  rewrite Hscan. cbn [processImports default record sources processedPaths rtrace initialState].
  split_and!; [|set_solver|done].
  unfold id, record, JsObject.set. cbn [sources JsObject.get].
  destruct (decide (Path.basename contractPath ".sol" = "__proto__")); [done|].
  by destruct (JsObject.arrayIndex _).
Qed.

(** A contract of one line. *)
Lemma source_without_import_resolves_alone_witness :
  let r := resolveAllImports Fixtures.cfg Fixtures.fooFs "contract FooA {}"
             (entryPath Fixtures.cfg "a/Foo") in
  sources r =
    (if decide (Path.basename (entryPath Fixtures.cfg "a/Foo") ".sol" = "__proto__")
     then []
     else [(Path.basename (entryPath Fixtures.cfg "a/Foo") ".sol", "contract FooA {}")]) ∧
  processedPaths r = {[entryPath Fixtures.cfg "a/Foo"]} ∧
  rtrace r = [EvRecord (entryPath Fixtures.cfg "a/Foo")
                (Path.basename (entryPath Fixtures.cfg "a/Foo") ".sol")
                "contract FooA {}"].
Proof.
  apply (source_without_import_resolves_alone Fixtures.cfg Fixtures.fooFs).
  reflexivity.
Defined.

(** * Further properties of the resolution *)

(** X9.  The keys of the table of a resolution are the keys of its
    records, [__proto__] left out: so the key of the root, the base
    name of its path, is a key of the table unless it is [__proto__].
    Every entry of the table was recorded for a visited file, and the
    table has at most one entry per visited file.  When the compiler is
    invoked for a name, the key under which [compileContract] then
    looks for the contracts is a key of the sources the compiler was
    given. *)
Theorem root_key_is_in_the_table cfg (fs : FileSystem) contractSource contractPath :
  let r := resolveAllImports cfg fs contractSource contractPath in
  (∀ k, k ∈ JsObject.keys (sources r) ↔
        k ≠ "__proto__" ∧ ∃ q c, EvRecord q k c ∈ rtrace r) ∧
  (Path.basename contractPath ".sol" ≠ "__proto__" →
   Path.basename contractPath ".sol" ∈ JsObject.keys (sources r)) ∧
  (∀ k v, (k, v) ∈ sources r → ∃ q, EvRecord q k v ∈ rtrace r) ∧
  length (sources r) ≤ size (processedPaths r) ∧
  (∀ name source,
     JsObject.inherited (cacheKey cfg name) = false →
     cacheKey cfg name
     ∈ JsObject.keys (sources (resolveAllImports cfg fs source (entryPath cfg name)))).
Proof.
  intros r. subst r.
  assert (∀ src path k,
            k ∈ JsObject.keys (sources (resolveAllImports cfg fs src path)) ↔
            k ≠ "__proto__" ∧
            ∃ q c, EvRecord q k c ∈ rtrace (resolveAllImports cfg fs src path)) as Hkeys.
  { intros src path k.
    rewrite (inv_sources _ (resolveAllImports_Inv cfg fs src path)) at 1.
    unfold replay. rewrite replayOn_elem_of_keys. split.
    - intros [?%not_elem_of_nil|[Hin Hproto]]; [done|]. split; [done|].
      apply list_elem_of_fmap in Hin as ([k' c] & -> & Hin).
      apply recordEntries_elem in Hin as [q Hq]. by exists q, c.
    - intros [Hproto (q & c & Hq)]. right. split; [|done].
      apply list_elem_of_fmap. exists (k, c). split; [done|].
      apply recordEntries_elem. by exists q. }
  assert (∀ src path,
            Path.basename path ".sol" ≠ "__proto__" →
            Path.basename path ".sol"
            ∈ JsObject.keys (sources (resolveAllImports cfg fs src path))) as Hroot.
  { intros src path Hproto. apply Hkeys. split; [done|].
    destruct (resolveAllImports_trace_head cfg fs src path) as [tail Htr].
    exists path, src. rewrite Htr. apply list_elem_of_here. }
  pose proof (resolveAllImports_Inv cfg fs contractSource contractPath) as HI.
  split_and!.
  - apply Hkeys.
  - apply Hroot.
  - intros k v Hin. apply resolveAllImports_lookup_recorded.
    by apply (JsObject_elem_lookup _ _ _ (inv_keys _ HI)).
  - rewrite <- resolveAllImports_record_count. rewrite (inv_sources _ HI) at 1.
    unfold replay. pose proof (replayOn_length
      (recordEntries (rtrace (resolveAllImports cfg fs contractSource contractPath))) []).
    simpl in *. lia.
  - intros name source Hown. apply Hroot. by apply inherited_proto.
Qed.

(** X10.  When several files are recorded under one key, the table
    holds the content of the last of them: an assignment to [sources]
    replaces what was there.  This is so for every key but [__proto__],
    under which the table never has an entry.  In the sample tree with
    a copy of a library file, the entry of the library key holds the
    copy. *)
Theorem last_record_of_a_key_is_its_entry
    cfg (fs : FileSystem) contractSource contractPath before q k v after :
  let r := resolveAllImports cfg fs contractSource contractPath in
  rtrace r = before ++ EvRecord q k v :: after →
  (∀ q' v', EvRecord q' k v' ∉ after) →
  (k ≠ "__proto__" →
   (k, v) ∈ sources r ∧ ∀ v', (k, v') ∈ sources r → v' = v) ∧
  (k = "__proto__" → ∀ v', (k, v') ∉ sources r).
Proof.
  intros r Htr Hlast. subst r.
  pose proof (resolveAllImports_Inv cfg fs contractSource contractPath) as HI.
  split.
  - intros Hproto.
    pose proof (resolveAllImports_lookup_last cfg fs _ _ _ _ _ _ _ Htr Hproto Hlast)
      as Hk.
    split; [by apply JsObject_lookup_elem|]. intros v' Hin'.
    apply (JsObject_elem_lookup _ _ _ (inv_keys _ HI)) in Hin'. congruence.
  - intros -> v' Hin.
    apply (JsObject_elem_lookup _ _ _ (inv_keys _ HI)) in Hin.
    by rewrite resolveAllImports_lookup_proto in Hin.
Qed.

(** The library file and its copy in the sample tree. *)
Lemma last_record_of_a_key_is_its_entry_witness :
  let r := resolveAllImports Fixtures.cfg Fixtures.vendorFs
             Fixtures.srcVendor Fixtures.pathVendor in
  ("@openzeppelin/contracts/X.sol" ≠ "__proto__" →
   ("@openzeppelin/contracts/X.sol", Fixtures.srcCopyX) ∈ sources r ∧
   ∀ v', ("@openzeppelin/contracts/X.sol", v') ∈ sources r → v' = Fixtures.srcCopyX) ∧
  ("@openzeppelin/contracts/X.sol" = "__proto__" →
   ∀ v', ("@openzeppelin/contracts/X.sol", v') ∉ sources r).
Proof.
  apply (last_record_of_a_key_is_its_entry Fixtures.cfg Fixtures.vendorFs
           Fixtures.srcVendor Fixtures.pathVendor
           [EvRecord Fixtures.pathVendor "Vendor" Fixtures.srcVendor;
            EvRead Fixtures.pathLibX;
            EvRecord Fixtures.pathLibX "@openzeppelin/contracts/X.sol" Fixtures.srcLibX;
            EvRead Fixtures.pathCopyX]
           Fixtures.pathCopyX "@openzeppelin/contracts/X.sol" Fixtures.srcCopyX []).
  - by vm_compute.
  - intros q' v'. apply not_elem_of_nil.
Defined.

Section Frame.

Variable cfg : Config.
Variable fs fs' : FileSystem.

(** A run is also a run on any tree that agrees with this one on the
    files the run read. *)
Lemma Exec_ExecLoop_frame :
  (∀ st source p k st', Exec cfg fs st source p k st' →
     (∀ q, EvRead q ∈ rtrace st' → fs' !! q = fs !! q) →
     Exec cfg fs' st source p k st') ∧
  (∀ p imports st st', ExecLoop cfg fs p imports st st' →
     (∀ q, EvRead q ∈ rtrace st' → fs' !! q = fs !! q) →
     ExecLoop cfg fs' p imports st st').
Proof.
  apply Exec_ExecLoop_ind.
  - intros. by apply Exec_seen.
  - intros st source p k st' Hnin Hloop IH Hagree. apply Exec_new; auto.
  - intros. apply ExecLoop_done.
  - intros p imp rest st contents st2 st3 Hf Hex IHex Hloop IHloop Hagree.
    assert (EvRead (findImports_fullPath cfg imp (Some p)) ∈ rtrace st2) as Hread.
    { eapply Exec_trace_mono; [done|]. simpl. apply elem_of_app. right.
      apply list_elem_of_here. }
    apply ExecLoop_import with contents st2.
    + apply findImports_Ok. rewrite Hagree; [by apply findImports_Ok|].
      by eapply ExecLoop_trace_mono.
    + apply IHex. intros q Hq. apply Hagree. by eapply ExecLoop_trace_mono.
    + by apply IHloop.
  - intros p imp rest st e st3 Hf Hloop IHloop Hagree.
    apply ExecLoop_missing with (ImportNotFound imp (Some p)); [|by apply IHloop].
    unfold findImports in *. rewrite Hagree.
    + by destruct (fs !! findImports_fullPath cfg imp (Some p)).
    + eapply ExecLoop_trace_mono; [done|]. unfold warn. simpl.
      rewrite !elem_of_app. left. right. apply list_elem_of_here.
Qed.

End Frame.

(** X11.  A resolution depends on the file system only through the
    files it reads: on any tree that agrees with this one at the paths
    read (whatever else it adds, drops or changes), the resolution of the
    same source from the same path gives the same table, the same
    visited set and the same trace. *)
Theorem resolution_depends_only_on_files_read
    cfg (fs fs' : FileSystem) contractSource contractPath :
  (∀ q, EvRead q ∈ rtrace (resolveAllImports cfg fs contractSource contractPath) →
        fs' !! q = fs !! q) →
  resolveAllImports cfg fs' contractSource contractPath
  = resolveAllImports cfg fs contractSource contractPath.
Proof.
  intros Hagree.
  pose proof (resolveAllImports_Exec cfg fs contractSource contractPath) as Hex.
  apply (proj1 (Exec_ExecLoop_frame cfg fs fs')) in Hex; [|done].
  pose proof (resolveAllImports_Exec cfg fs' contractSource contractPath) as Hex'.
  exact (proj1 (Exec_ExecLoop_deterministic cfg fs') _ _ _ _ _ Hex' _ Hex).
Qed.

(** The sample cycle, in a tree with one more file. *)
Lemma resolution_depends_only_on_files_read_witness :
  resolveAllImports Fixtures.cfg
    (<["/app/apps/contracts/src/contracts/Other.sol" := "contract Other {}"]>
       Fixtures.cycleFs)
    Fixtures.srcA Fixtures.pathA
  = resolveAllImports Fixtures.cfg Fixtures.cycleFs Fixtures.srcA Fixtures.pathA.
Proof.
  apply (resolution_depends_only_on_files_read Fixtures.cfg Fixtures.cycleFs).
  intros q Hq. vm_compute in Hq.
  repeat (apply elem_of_cons in Hq as [Hq|Hq];
          [first [discriminate Hq|injection Hq as ->; by vm_compute]|]).
  by apply not_elem_of_nil in Hq.
Defined.

Section ResolverPaths.

Variable cfg : Config.
Variable fs : FileSystem.

Lemma findImports_fullPath_absolute imp base :
  JsString.startsWith (findImports_fullPath cfg imp base) "/" = true.
Proof.
  unfold findImports_fullPath, pathResolve.
  repeat case_match; apply resolve_absolute.
Qed.

Lemma importFilePath_absolute p imp :
  JsString.startsWith (importFilePath cfg p imp) "/" = true.
Proof.
  unfold importFilePath, pathResolve.
  repeat case_match; apply resolve_absolute.
Qed.

Lemma Exec_ExecLoop_absolute root :
  (∀ st source p k st', Exec cfg fs st source p k st' →
     p = root ∨ JsString.startsWith p "/" = true →
     (∀ q, EvRead q ∈ rtrace st → JsString.startsWith q "/" = true) ∧
     (∀ q, q ∈ processedPaths st → q = root ∨ JsString.startsWith q "/" = true) →
     (∀ q, EvRead q ∈ rtrace st' → JsString.startsWith q "/" = true) ∧
     (∀ q, q ∈ processedPaths st' → q = root ∨ JsString.startsWith q "/" = true)) ∧
  (∀ p imports st st', ExecLoop cfg fs p imports st st' →
     (∀ q, EvRead q ∈ rtrace st → JsString.startsWith q "/" = true) ∧
     (∀ q, q ∈ processedPaths st → q = root ∨ JsString.startsWith q "/" = true) →
     (∀ q, EvRead q ∈ rtrace st' → JsString.startsWith q "/" = true) ∧
     (∀ q, q ∈ processedPaths st' → q = root ∨ JsString.startsWith q "/" = true)).
Proof.
  apply Exec_ExecLoop_ind.
  - intros. done.
  - intros st source p k st' Hnin Hloop IH Hp [Hreads Hvisited]. apply IH. split.
    + intros q. simpl. intros [?|Hq]%elem_of_app; [by apply Hreads|].
      by apply list_elem_of_singleton in Hq.
    + intros q. simpl. intros [->%elem_of_singleton|?]%elem_of_union; auto.
  - intros. done.
  - intros p imp rest st contents st2 st3 Hf Hex IHex Hloop IHloop [Hreads Hvisited].
    apply IHloop, IHex.
    + right. apply importFilePath_absolute.
    + split; [|done]. intros q. simpl. intros [?|Hq]%elem_of_app; [by apply Hreads|].
      apply list_elem_of_singleton in Hq. injection Hq as ->.
      apply findImports_fullPath_absolute.
  - intros p imp rest st e st3 Hf Hloop IHloop [Hreads Hvisited].
    apply IHloop. split; [|done]. intros q. unfold warn. simpl.
    rewrite !elem_of_app. intros [[?|Hq]|Hq]; [by apply Hreads|..];
      apply list_elem_of_singleton in Hq; [|done].
    injection Hq as ->. apply findImports_fullPath_absolute.
Qed.

End ResolverPaths.

(** X12.  The resolver reads files by absolute path only: every path
    it reads starts with a slash, and so does every visited path apart
    from the one the resolution was started with. *)
Theorem resolver_reads_absolute_paths cfg (fs : FileSystem) contractSource contractPath :
  let r := resolveAllImports cfg fs contractSource contractPath in
  (∀ q, EvRead q ∈ rtrace r → JsString.startsWith q "/" = true) ∧
  (∀ q, q ∈ processedPaths r → q = contractPath ∨ JsString.startsWith q "/" = true).
Proof.
  intros r. subst r.
  apply (proj1 (Exec_ExecLoop_absolute cfg fs contractPath) _ _ _ _ _
           (resolveAllImports_Exec cfg fs contractSource contractPath)).
  - by left.
  - split; intros q Hq.
    + by apply not_elem_of_nil in Hq.
    + by apply not_elem_of_empty in Hq.
Qed.

(** X13.  A warning is issued only for an import statement of a file
    recorded earlier, and right after the file the import names has
    been looked for and not been found: in the trace the warning is
    preceded at once by the read of that file, which does not exist;
    its message names the specifier and the importing file. *)
Theorem warnings_are_genuine
    cfg (fs : FileSystem) contractSource contractPath before e after :
  let r := resolveAllImports cfg fs contractSource contractPath in
  rtrace r = before ++ e :: after → isWarn e = true →
  ∃ earlier parent kp cp imp,
    before = earlier ++ [EvRead (findImports_fullPath cfg imp (Some parent))] ∧
    EvRecord parent kp cp ∈ earlier ∧ imp ∈ ImportScan.scanImports cp ∧
    fs !! findImports_fullPath cfg imp (Some parent) = None ∧
    e = EvWarn imp parent
          ("Import not found: " +:+ imp +:+ " (base: " +:+ parent +:+ ")").
Proof.
  intros r Htr Hwarn. subst r.
  pose proof (resolveAllImports_justified cfg fs contractSource contractPath
                before e after Htr) as Hj.
  destruct e as [| |imp parent message|]; try discriminate.
  destruct Hj as (earlier & kp & cp & -> & Hp & Hi & Hf & ->).
  by exists earlier, parent, kp, cp, imp.
Qed.

(** The warning of the sample tree with a missing import. *)
Lemma warnings_are_genuine_witness :
  ∃ earlier parent kp cp imp,
    [EvRecord Fixtures.pathBroken "Broken" Fixtures.srcBroken;
     EvRead (Fixtures.inTemplates "Missing.sol")]
    = earlier ++ [EvRead (findImports_fullPath Fixtures.cfg imp (Some parent))] ∧
    EvRecord parent kp cp ∈ earlier ∧ imp ∈ ImportScan.scanImports cp ∧
    Fixtures.brokenFs !! findImports_fullPath Fixtures.cfg imp (Some parent) = None ∧
    EvWarn "./Missing.sol" Fixtures.pathBroken
      ("Import not found: ./Missing.sol (base: " +:+ Fixtures.pathBroken +:+ ")")
    = EvWarn imp parent
        ("Import not found: " +:+ imp +:+ " (base: " +:+ parent +:+ ")").
Proof.
  apply (warnings_are_genuine Fixtures.cfg Fixtures.brokenFs
           Fixtures.srcBroken Fixtures.pathBroken
           [EvRecord Fixtures.pathBroken "Broken" Fixtures.srcBroken;
            EvRead (Fixtures.inTemplates "Missing.sol")]
           (EvWarn "./Missing.sol" Fixtures.pathBroken
              ("Import not found: ./Missing.sol (base: "
               +:+ Fixtures.pathBroken +:+ ")"))
           [EvRead Fixtures.pathD; EvRecord Fixtures.pathD "D.sol" Fixtures.srcD]).
  - vm_compute. reflexivity.
  - reflexivity.
Defined.

(** X14.  In every state the instance can reach, the cache holds at
    most as many artifacts as the compiler has been called: an entry is
    only ever added by a call that ran the compiler. *)
Theorem cache_entries_cost_a_compilation cfg (fs : FileSystem) solc w :
  reachable cfg fs solc w → size (cache w) ≤ compileCount (trace w).
Proof.
  induction 1 as [|name w Hw IH|w Hw IH].
  - simpl. unfold size, JsObject_size. simpl. lia.
  - rewrite getContract_compileCount.
    destruct (getContract_cache cfg fs solc name w)
      as [->|(c & Hmiss & Hown & Hok & ->)]; [lia|].
    unfold size, JsObject_size in *. rewrite JsObject_set_length.
    rewrite decide_False.
    2:{ intros [?|Hin]; [by apply (inherited_proto _ Hown)|].
        apply JsObject_lookup_keys in Hin as [x Hx]. congruence. }
    rewrite Hmiss, Hown.
    destruct (getContract cfg fs solc name w) as [res w1] eqn:Hcall.
    simpl in Hok. subst res.
    destruct (getContract_success_inv cfg fs solc _ _ _ _ Hmiss Hcall)
      as (source & _ & _ & _ & _ & -> & _). lia.
  - simpl. unfold size, JsObject_size. simpl. lia.
Qed.

(** Two requests that share a key: one compilation, one entry. *)
Lemma cache_entries_cost_a_compilation_witness :
  size (cache (getContract Fixtures.cfg Fixtures.fooFs Fixtures.solcAny "b/Foo"
                 (getContract Fixtures.cfg Fixtures.fooFs Fixtures.solcAny
                    "a/Foo" emptyState).2).2)
  ≤ compileCount
      (trace (getContract Fixtures.cfg Fixtures.fooFs Fixtures.solcAny "b/Foo"
                (getContract Fixtures.cfg Fixtures.fooFs Fixtures.solcAny
                   "a/Foo" emptyState).2).2).
Proof.
  apply (cache_entries_cost_a_compilation Fixtures.cfg Fixtures.fooFs Fixtures.solcAny).
  do 2 apply reachable_getContract. apply reachable_init.
Defined.

(** * The working directory *)

Section WorkingDirectory.

Lemma resolve_go_cwd cwd cwd' args :
  (∃ a, a ∈ args ∧ JsString.startsWith a "/" = true) →
  ∀ acc, Path.resolve_go (args ++ [Path.posixCwd cwd]) acc
         = Path.resolve_go (args ++ [Path.posixCwd cwd']) acc.
Proof.
  induction args as [|a args IH]; intros (b & Hb & Habs) acc.
  { by apply not_elem_of_nil in Hb. }
  cbn [app Path.resolve_go].
  apply elem_of_cons in Hb as [->|Hb].
  - destruct (absolute_inv _ Habs) as [tl ->].
    rewrite decide_False by done. by rewrite Habs.
  - case_decide; [apply IH; eauto|].
    destruct (JsString.startsWith a "/"); [done|apply IH; eauto].
Qed.

(** [path.resolve] uses the working directory only when none of its
    arguments is absolute. *)
Lemma resolve_cwd cwd cwd' args :
  (∃ a, a ∈ args ∧ JsString.startsWith a "/" = true) →
  Path.resolve cwd args = Path.resolve cwd' args.
Proof.
  intros (a & Ha & Habs). unfold Path.resolve.
  rewrite (resolve_go_cwd cwd cwd' (rev args)); [done|].
  exists a. split; [|done]. apply list_elem_of_In. rewrite <- in_rev.
  by apply list_elem_of_In.
Qed.

Variable cfg : Config.
Variable cwd' : string.
Variable fs : FileSystem.

Hypothesis contractsDir_absolute : JsString.startsWith (contractsDir cfg) "/" = true.
Hypothesis ozContractsDir_absolute : JsString.startsWith (ozContractsDir cfg) "/" = true.

(** The same instance in a process with another working directory. *)
Local Abbreviation moved :=
  {| cwdTail := cwd'; contractsDir := contractsDir cfg;
     ozContractsDir := ozContractsDir cfg |}.

Lemma entryPath_cwd name : entryPath moved name = entryPath cfg name.
Proof.
  unfold entryPath. cbn [cwdTail contractsDir]. apply resolve_cwd.
  exists (contractsDir cfg). split; [apply list_elem_of_here|done].
Qed.

Lemma findImports_fullPath_cwd imp p :
  p = "" ∨ JsString.startsWith p "/" = true →
  findImports_fullPath moved imp (Some p) = findImports_fullPath cfg imp (Some p).
Proof.
  intros Hp. unfold findImports_fullPath, pathResolve.
  cbn [cwdTail contractsDir ozContractsDir].
  repeat case_match; apply resolve_cwd.
  - exists (ozContractsDir cfg). split; [apply list_elem_of_here|done].
  - exists (Path.dirname p). split; [apply list_elem_of_here|].
    destruct Hp as [->|?]; [done|by apply dirname_absolute].
  - exists (contractsDir cfg). split; [apply list_elem_of_here|done].
  - exists (contractsDir cfg). split; [apply list_elem_of_here|done].
Qed.

Lemma importFilePath_cwd p imp :
  JsString.startsWith p "/" = true →
  importFilePath moved p imp = importFilePath cfg p imp.
Proof.
  intros Hp. unfold importFilePath, pathResolve.
  cbn [cwdTail contractsDir ozContractsDir].
  repeat case_match; apply resolve_cwd.
  - exists (ozContractsDir cfg). split; [apply list_elem_of_here|done].
  - exists (Path.dirname p). split; [apply list_elem_of_here|by apply dirname_absolute].
  - exists (contractsDir cfg). split; [apply list_elem_of_here|done].
Qed.

Lemma relative_cwd from to :
  JsString.startsWith from "/" = true → JsString.startsWith to "/" = true →
  Path.relative cwd' from to = Path.relative (cwdTail cfg) from to.
Proof.
  intros Hfrom Hto. unfold Path.relative.
  rewrite (resolve_cwd cwd' (cwdTail cfg) [from])
    by (exists from; split; [apply list_elem_of_here|done]).
  rewrite (resolve_cwd cwd' (cwdTail cfg) [to])
    by (exists to; split; [apply list_elem_of_here|done]).
  done.
Qed.

Lemma importSourceKey_cwd p imp :
  JsString.startsWith p "/" = true →
  importSourceKey moved p imp = importSourceKey cfg p imp.
Proof.
  intros Hp. unfold importSourceKey, pathResolve.
  cbn [cwdTail contractsDir ozContractsDir].
  assert (Path.resolve cwd' [Path.dirname p; imp]
          = Path.resolve (cwdTail cfg) [Path.dirname p; imp]) as ->.
  { apply resolve_cwd. exists (Path.dirname p).
    split; [apply list_elem_of_here|by apply dirname_absolute]. }
  rewrite relative_cwd; [done|done|apply resolve_absolute].
Qed.

Lemma Exec_ExecLoop_cwd :
  (∀ st source p k st', Exec cfg fs st source p k st' →
     JsString.startsWith p "/" = true → Exec moved fs st source p k st') ∧
  (∀ p imports st st', ExecLoop cfg fs p imports st st' →
     JsString.startsWith p "/" = true → ExecLoop moved fs p imports st st').
Proof.
  apply Exec_ExecLoop_ind.
  - intros. by apply Exec_seen.
  - intros. apply Exec_new; auto.
  - intros. apply ExecLoop_done.
  - intros p imp rest st contents st2 st3 Hf Hex IHex Hloop IHloop Hp.
    apply ExecLoop_import with contents st2.
    + unfold findImports in *. by rewrite findImports_fullPath_cwd by auto.
    + rewrite findImports_fullPath_cwd, importFilePath_cwd, importSourceKey_cwd by auto.
      apply IHex, importFilePath_absolute.
    + by apply IHloop.
  - intros p imp rest st e st3 Hf Hloop IHloop Hp.
    apply ExecLoop_missing with (ImportNotFound imp (Some p)).
    + unfold findImports in *. rewrite findImports_fullPath_cwd by auto.
      by destruct (fs !! findImports_fullPath cfg imp (Some p)).
    + unfold warn. rewrite findImports_fullPath_cwd by auto. by apply IHloop.
Qed.

Lemma resolveAllImports_cwd contractSource contractPath :
  JsString.startsWith contractPath "/" = true →
  resolveAllImports moved fs contractSource contractPath
  = resolveAllImports cfg fs contractSource contractPath.
Proof.
  intros Hp.
  pose proof (resolveAllImports_Exec cfg fs contractSource contractPath) as Hex.
  apply (proj1 Exec_ExecLoop_cwd) in Hex; [|done].
  pose proof (resolveAllImports_Exec moved fs contractSource contractPath) as Hex'.
  exact (proj1 (Exec_ExecLoop_deterministic moved fs) _ _ _ _ _ Hex' _ Hex).
Qed.

End WorkingDirectory.

(** X15.  An instance built by the constructor does not depend on the
    working directory of the process: with the two directories the
    constructor fixed, [getContract] gives the same result and leaves the
    same state whatever the working directory is at the time of the
    call, and so does the resolution from any absolute path. *)
Theorem working_directory_is_irrelevant
    cwd dirName cwd' (fs : FileSystem) solc :
  let cfg := newContractCompiler cwd dirName in
  let moved := {| cwdTail := cwd'; contractsDir := contractsDir cfg;
                  ozContractsDir := ozContractsDir cfg |} in
  (∀ name w, getContract moved fs solc name w = getContract cfg fs solc name w) ∧
  (∀ contractSource contractPath,
     JsString.startsWith contractPath "/" = true →
     resolveAllImports moved fs contractSource contractPath
     = resolveAllImports cfg fs contractSource contractPath).
Proof.
  intros cfg moved.
  assert (JsString.startsWith (contractsDir cfg) "/" = true) as Hc
    by apply resolve_absolute.
  assert (JsString.startsWith (ozContractsDir cfg) "/" = true) as Ho
    by apply resolve_absolute.
  split.
  - intros name w. unfold getContract.
    rewrite (entryPath_cwd cfg cwd' Hc name : entryPath moved name = entryPath cfg name).
    unfold compileContract.
    destruct (cache w !! _); [done|].
    destruct (fs !! entryPath cfg name) as [source|]; [|done].
    rewrite (resolveAllImports_cwd cfg cwd' fs Hc Ho source (entryPath cfg name)
               (resolve_absolute _ _)
             : resolveAllImports moved fs source (entryPath cfg name) = _).
    done.
  - intros contractSource contractPath Hp.
    by apply (resolveAllImports_cwd cfg cwd' fs Hc Ho).
Qed.

Section ReadAccounting.

Variable cfg : Config.
Variable fs : FileSystem.

Lemma Exec_ExecLoop_read_total :
  (∀ st source p k st', Exec cfg fs st source p k st' →
     countEv isRead (rtrace st') + sum_list_with importStatements (rtrace st)
     = countEv isRead (rtrace st) + sum_list_with importStatements (rtrace st')) ∧
  (∀ p imports st st', ExecLoop cfg fs p imports st st' →
     countEv isRead (rtrace st') + sum_list_with importStatements (rtrace st)
     = countEv isRead (rtrace st) + sum_list_with importStatements (rtrace st')
       + length imports).
Proof.
  apply Exec_ExecLoop_ind.
  - intros. lia.
  - intros st source p k st' Hnin Hloop IH. simpl in IH.
    rewrite countEv_snoc, sum_list_with_app in IH. simpl in IH. lia.
  - intros. simpl. lia.
  - intros p imp rest st contents st2 st3 Hf Hex IHex Hloop IHloop. simpl in IHex.
    rewrite countEv_snoc, sum_list_with_app in IHex. simpl in *. lia.
  - intros p imp rest st e st3 Hf Hloop IHloop. unfold warn in IHloop. simpl in IHloop.
    rewrite !countEv_snoc, !sum_list_with_app in IHloop. simpl in *. lia.
Qed.

Lemma Exec_ExecLoop_read_first :
  (∀ st source p k st', Exec cfg fs st source p k st' →
     countEv isRecord (rtrace st') + countEv isWarn (rtrace st')
       + countEv isRead (rtrace st)
     ≤ countEv isRecord (rtrace st) + countEv isWarn (rtrace st)
       + countEv isRead (rtrace st') + 1) ∧
  (∀ p imports st st', ExecLoop cfg fs p imports st st' →
     countEv isRecord (rtrace st') + countEv isWarn (rtrace st')
       + countEv isRead (rtrace st)
     ≤ countEv isRecord (rtrace st) + countEv isWarn (rtrace st)
       + countEv isRead (rtrace st')).
Proof.
  apply Exec_ExecLoop_ind.
  - intros. lia.
  - intros st source p k st' Hnin Hloop IH. simpl in IH.
    rewrite !countEv_snoc in IH. simpl in IH. lia.
  - intros. lia.
  - intros p imp rest st contents st2 st3 Hf Hex IHex Hloop IHloop. simpl in IHex.
    rewrite !countEv_snoc in IHex. simpl in *. lia.
  - intros p imp rest st e st3 Hf Hloop IHloop. unfold warn in IHloop. simpl in IHloop.
    rewrite !countEv_snoc in IHloop. simpl in *. lia.
Qed.

End ReadAccounting.

(** X16.  A resolution looks for a file once for each import statement
    of each file it records, neither more nor less.  Every read is made
    for an import statement of a file recorded before it; every record
    but the first of the trace, and every warning, comes right after a
    read. *)
Theorem one_read_per_import_statement
    cfg (fs : FileSystem) contractSource contractPath :
  let r := resolveAllImports cfg fs contractSource contractPath in
  countEv isRead (rtrace r) = sum_list_with importStatements (rtrace r) ∧
  countEv isRecord (rtrace r) + countEv isWarn (rtrace r)
  ≤ countEv isRead (rtrace r) + 1 ∧
  (∀ before e after,
     rtrace r = before ++ e :: after →
     match e with
     | EvRead path =>
         ∃ parent kp cp imp,
           EvRecord parent kp cp ∈ before ∧ imp ∈ ImportScan.scanImports cp ∧
           path = findImports_fullPath cfg imp (Some parent)
     | EvRecord _ _ _ =>
         before = [] ∨ ∃ earlier path, before = earlier ++ [EvRead path]
     | EvWarn _ _ _ => ∃ earlier path, before = earlier ++ [EvRead path]
     | EvCompile _ => False
     end).
Proof.
  intros r. subst r.
  pose proof (proj1 (Exec_ExecLoop_read_total cfg fs) _ _ _ _ _
                (resolveAllImports_Exec cfg fs contractSource contractPath)) as Htotal.
  pose proof (proj1 (Exec_ExecLoop_read_first cfg fs) _ _ _ _ _
                (resolveAllImports_Exec cfg fs contractSource contractPath)) as Hfirst.
  change (rtrace initialState) with (@nil Event) in Htotal, Hfirst.
  change (countEv isRead []) with 0 in Htotal, Hfirst.
  change (countEv isRecord []) with 0 in Hfirst.
  change (countEv isWarn []) with 0 in Hfirst.
  change (sum_list_with importStatements []) with 0 in Htotal.
  split_and!; [lia|lia|].
  intros before e after Htr.
  pose proof (resolveAllImports_justified cfg fs contractSource contractPath
                before e after Htr) as Hj.
  destruct e as [path|q k c|imp parent message|srcs]; cbn [justified] in Hj.
  - exact Hj.
  - destruct Hj as [_ [?|(earlier & parent & kp & cp & imp & -> & _)]]; [by left|].
    right. by eexists _, _.
  - destruct Hj as (earlier & kp & cp & -> & _). by eexists _, _.
  - done.
Qed.
